(** * es5-generators: the Generator ("streamable promise") and its combinators

    A shallow embedding of [Generator.js].  Two revisions of the file are in
    the repository: the one whose constructor defers the whole producer by a
    single [setTimeout] and dispatches synchronously afterwards (called
    _legacy_ below), and the later one, which runs the producer inside the
    constructor and defers every [emit], [done] and [reject] by a timer of
    its own.  The later revision is the one with promise wrapping,
    cancellation hooks and working intersections; it is the main object of
    this development, the legacy constructor is embedded next to it.

    JavaScript closures are defunctionalised: every function expression of
    the source that ends up in a listener list, in the timer queue or in a
    promise's reaction list is a constructor of [Listener], [Task] or
    [Reaction], and [invoke], [run_task] and [react] are their bodies.  The
    host is the usual single-threaded event loop: a FIFO queue of timers
    (all timers of the source have the same delay, so they expire in the
    order they were set) and a FIFO queue of promise jobs that is drained
    before the next timer runs. *)

From stdpp Require Import base option list numbers gmap.
From stdpp Require Import strings pretty.

Section Es5Generators.

(** [item] is the type of JavaScript values that travel through a stream
    (items, errors, results of callbacks); [undefined] and [NaN] are the
    values of those names.  Equality on [item] is sameness of values; it is
    [===] everywhere but at [NaN], which [===] does not relate to itself.
    [key] is the type of property keys, what a hasher's result is once it
    is used in [map[id]]. *)
Context {item key : Type} `{!EqDecision item} `{!EqDecision key} `{!Countable key}.
Context (undefined NaN : item).

(** What every object inherits from [Object.prototype]: the built-in
    methods ([constructor], [toString], [valueOf], [hasOwnProperty], ...)
    and the accessor [__proto__]. *)
Inductive Builtin :=
  | Method
  | Accessor.

Context (Object_prototype : gmap key Builtin).

(** ** Heap references *)

Definition genRef := nat.
Definition promRef := nat.
Definition arrRef := nat.
Definition envRef := nat.

(** ** Closures of the source, defunctionalised *)

(** The second argument of [emit(item, cancel)]. *)
Inductive Hook :=
  | HookNone                      (* emit(item): cancel is undefined *)
  | HookNoop                      (* function() { } *)
  | HookCancel (env : envRef).    (* function() { cancelled = true; } *)

(** What a user callback given to [then] does with the collected items. *)
Inductive Res :=
  | Return (v : item)
  | Throw (e : item).

(** Callbacks passed to [Generator.prototype.then]. *)
Inductive ThenCb :=
  | CbUser (f : list item → Res)          (* a callback of the caller *)
  | CbSetItemsA (env : envRef)            (* function(items) { itemsA = items; } *)
  | CbSetItemsB (env : envRef)            (* function(items) { itemsB = items; } *)
  | CbResolve (p : promRef).              (* function() { resolve(); } *)

(** Functions found in the three listener lists of a Generator. *)
Inductive Listener :=
  | LUser (tag : nat)
      (* a listener of the caller that records what it is called with *)
  | LUserCancel (tag : nat)
      (* function(item, cancel) { record(item); if (cancel) cancel(); } *)
  | LThenPush (items : arrRef)
      (* then: function(item) { items.push(item); } *)
  | LThenDone (items : arrRef) (cb : ThenCb) (p : promRef)
      (* then: function() { try { resolve(cb(items)) } catch (e) { reject(e) } } *)
  | LResolve (p : promRef)
      (* function() { resolve(); } *)
  | LReject (p : promRef)
      (* function(err) { reject(err); } *)
  | LHashEmit (env : envRef) (hasher : item → key) (K : nat) (out : genRef)
      (* intersectByHash: handleEmit *)
  | LCmpEmit (env : envRef) (comparator : item → item → bool) (K : nat) (out : genRef).
      (* intersectByComparison: handleEmit *)

(** Arguments a listener list is called back with. *)
Inductive Args :=
  | ArgsItem (x : item) (cancel : Hook)   (* [item, cancel] *)
  | ArgsError (e : item)                  (* [error] *)
  | ArgsNone.                             (* [] *)

(** A Generator object: its three listener arrays. *)
Record Gen := mkGen {
  _registeredEmits : list Listener;
  _registeredCatches : list Listener;
  _registeredDones : list Listener
}.

Inductive Kind := KEmit | KCatch | KDone.

Definition registered (k : Kind) (G : Gen) : list Listener :=
  match k with
  | KEmit => _registeredEmits G
  | KCatch => _registeredCatches G
  | KDone => _registeredDones G
  end.

(** Statements a producer function of the caller runs, in order. *)
Inductive Action :=
  | ActEmit (x : item)       (* emit(x); *)
  | ActDone                  (* done(); *)
  | ActReject (e : item).    (* reject(e); *)

(** The four shapes the constructor tells apart by [cb.constructor.name];
    among the functions, those of a caller and the one that intersectByHash
    of the legacy revision hands to the constructor. *)
Inductive Producer :=
  | PFunction (body : list Action)   (* function(done, reject, emit) { ... } *)
  | PArray (items : list item)
  | PPromise (p : promRef)
  | PIterator (vals : list item)     (* an ES6 generator instance yielding vals *)
  | PIntersectByHash (promises : list genRef) (error : item).
      (* legacy intersectByHash: function(resolve, reject, emit) { ... };
         error is the TypeError that calling [handlers.emit] raises *)

(** State of a promise of the host. *)
Inductive Settled :=
  | Fulfilled (v : item)
  | Rejected (e : item).

(** Functions handed to [Promise.prototype.then]. *)
Inductive Reaction :=
  | RAllElem (all : promRef)
      (* the per-element resolver of Promise.all *)
  | RDone (g : genRef)
      (* function() { resolve(); }, resolve being the done handle of g *)
  | RExcludeJoin (env : envRef) (comparator : item → item → bool) (out : genRef)
      (* exclude: the loop over itemsA and itemsB *)
  | RCtorPromise (g : genRef)
      (* constructor: function(result) { emit(result, function() { }); done(); } *)
  | RLegacyDone (g : genRef)
      (* function() { resolve(); }, resolve being the done handle of g in the
         legacy revision *)
  | RUser (tag : nat).
      (* an observer of the caller: then(record, record) *)

Record Promise := mkPromise {
  pstate : option Settled;        (* None: pending *)
  reactions : list Reaction;
  remaining : nat                 (* Promise.all: elements not yet fulfilled *)
}.

(** One record of intersectByComparison's [distinctItems]. *)
Record Distinct := mkDistinct {
  d_item : item;
  d_count : nat;
  d_emitted : bool
}.

(** What [map[id]] can be in intersectByHash. *)
Inductive Value :=
  | VNumber (n : nat)
      (* a counter *)
  | VMethod
      (* a built-in function, inherited *)
  | VProto
      (* what [__proto__] answers: the prototype object; assigning a
         primitive value to it does nothing *)
  | VText.
      (* the string [count += 1] makes of a function or an object, and of
         such a string: it is not empty and it is no numeral *)

#[global] Instance Value_eq_dec : EqDecision Value.
Proof. solve_decision. Defined.

(** Variables captured by closures and assigned after their creation.  The
    object [map] of intersectByHash is kept as the properties it answers
    to, its own and the inherited ones. *)
Inductive Env :=
  | EnvCancel (cancelled : bool)
  | EnvExclude (itemsA itemsB : arrRef)
  | EnvHash (map : gmap key Value)
  | EnvCmp (distinctItems : list Distinct).

(** Callbacks the host holds: timers, and promise jobs. *)
Inductive Task :=
  | TEmit (g : genRef) (x : item) (cancel : Hook)
      (* function() { callback(self._registeredEmits, [item, cancel]); } *)
  | TDone (g : genRef)
      (* function() { callback(self._registeredDones, []); } *)
  | TCatch (g : genRef) (e : item)
      (* function() { callback(self._registeredCatches, [error]); } *)
  | TStart (g : genRef) (cb : Producer)
      (* legacy constructor: the function that classifies and runs cb *)
  | TSettle (p : promRef) (s : Settled).
      (* the outside world settling a promise it owns *)

Inductive Job :=
  | JReact (r : Reaction) (s : Settled).

(** What the caller's listeners and observers have recorded, in order. *)
Inductive Ev :=
  | EvItem (x : item)
  | EvFault (e : item)
  | EvDone
  | EvFulfilled (v : item)
  | EvRejected (e : item).

Inductive Obs :=
  | Seen (tag : nat) (e : Ev).

(** ** The world: heap, host queues, and the record of observations *)

Record World := mkWorld {
  gens : list Gen;
  arrays : list (list item);
  envs : list Env;
  promises : list Promise;
  jobs : list Job;
  timers : list Task;
  log : list Obs
}.

Definition empty_world : World := mkWorld [] [] [] [] [] [] [].

Definition with_gens (f : list Gen → list Gen) (w : World) : World :=
  mkWorld (f (gens w)) (arrays w) (envs w) (promises w) (jobs w) (timers w) (log w).
Definition with_arrays (f : list (list item) → list (list item)) (w : World) : World :=
  mkWorld (gens w) (f (arrays w)) (envs w) (promises w) (jobs w) (timers w) (log w).
Definition with_envs (f : list Env → list Env) (w : World) : World :=
  mkWorld (gens w) (arrays w) (f (envs w)) (promises w) (jobs w) (timers w) (log w).
Definition with_promises (f : list Promise → list Promise) (w : World) : World :=
  mkWorld (gens w) (arrays w) (envs w) (f (promises w)) (jobs w) (timers w) (log w).
Definition with_jobs (f : list Job → list Job) (w : World) : World :=
  mkWorld (gens w) (arrays w) (envs w) (promises w) (f (jobs w)) (timers w) (log w).
Definition with_timers (f : list Task → list Task) (w : World) : World :=
  mkWorld (gens w) (arrays w) (envs w) (promises w) (jobs w) (f (timers w)) (log w).
Definition with_log (f : list Obs → list Obs) (w : World) : World :=
  mkWorld (gens w) (arrays w) (envs w) (promises w) (jobs w) (timers w) (f (log w)).

(** A small state monad for the synchronous code. *)
Definition M (A : Type) : Type := World → A * World.
Definition ret {A} (a : A) : M A := fun w => (a, w).
Definition bind {A B} (m : M A) (k : A → M B) : M B :=
  fun w => let '(a, w') := m w in k a w'.
Definition exec (f : World → World) : M unit := fun w => (tt, f w).

Notation "'do' x <~ m ; k" := (bind m (fun x => k))
  (at level 10, x name, m at level 100, k at level 200).
Notation "m ;; k" := (bind m (fun _ => k))
  (at level 100, k at level 200, right associativity).

(** [setTimeout(f, 1)] *)
Definition setTimeout (t : Task) : World → World :=
  with_timers (fun ts => ts ++ [t]).

Definition enqueue_job (j : Job) : World → World :=
  with_jobs (fun js => js ++ [j]).

Definition record (tag : nat) (e : Ev) : World → World :=
  with_log (fun l => l ++ [Seen tag e]).

(** ** The handles of the constructor (later revision)

    [var done = function() { setTimeout(function() { callback(...) }, 1) }]
    and likewise [reject] and [emit]. *)

Definition done (g : genRef) : World → World := setTimeout (TDone g).
Definition reject (g : genRef) (error : item) : World → World := setTimeout (TCatch g error).
Definition emit (g : genRef) (x : item) (cancel : Hook) : World → World :=
  setTimeout (TEmit g x cancel).

(** ** Promises of the host *)

Definition new_promise : M promRef :=
  fun w => (length (promises w), with_promises (fun ps => ps ++ [mkPromise None [] 0]) w).

(** Settling a pending promise queues one job per reaction; settling a
    settled one does nothing. *)
Definition settle (p : promRef) (s : Settled) (w : World) : World :=
  match promises w !! p with
  | Some (mkPromise None rs n) =>
      with_jobs (fun js => js ++ map (fun r => JReact r s) rs)
        (with_promises (fun ps => <[p := mkPromise (Some s) [] n]> ps) w)
  | _ => w
  end.

(** [p.then(r)] where the derived promise is dropped. *)
Definition promise_then (p : promRef) (r : Reaction) (w : World) : World :=
  match promises w !! p with
  | Some (mkPromise None rs n) =>
      with_promises (fun ps => <[p := mkPromise None (rs ++ [r]) n]> ps) w
  | Some (mkPromise (Some s) _ _) => enqueue_job (JReact r s) w
  | None => w
  end.

(** [Promise.all(ps)]: the values are not used by the source, the result is
    fulfilled with [undefined] here. *)
Definition promise_all (ps : list promRef) : M promRef :=
  fun w =>
    let q := length (promises w) in
    let w := with_promises (fun l => l ++ [mkPromise None [] (length ps)]) w in
    let w := foldl (fun w p => promise_then p (RAllElem q) w) w ps in
    (q, match ps with [] => settle q (Fulfilled undefined) w | _ => w end).

(** ** Arrays and closure variables *)

Definition new_array : M arrRef :=
  fun w => (length (arrays w), with_arrays (fun l => l ++ [[]]) w).

Definition new_env (e : Env) : M envRef :=
  fun w => (length (envs w), with_envs (fun l => l ++ [e]) w).

Definition read_array (a : arrRef) (w : World) : list item :=
  default [] (arrays w !! a).

Definition cancelled (env : envRef) (w : World) : bool :=
  match envs w !! env with
  | Some (EnvCancel b) => b
  | _ => false
  end.

Definition run_hook (c : Hook) (w : World) : World :=
  match c with
  | HookCancel env => with_envs (fun l => <[env := EnvCancel true]> l) w
  | HookNoop | HookNone => w
  end.

(** ** The algorithms inside the combinators *)

(** [var map = {}]: no property of its own, the inherited ones. *)
Definition empty_object : gmap key Value :=
  (fun b => match b with Method => VMethod | Accessor => VProto end) <$> Object_prototype.

(** [if (v)] *)
Definition truthy (v : Value) : bool :=
  match v with
  | VNumber n => bool_decide (n ≠ 0)
  | VMethod | VProto | VText => true
  end.

(** [v + 1]: a sum of numbers, else the concatenation of two strings. *)
Definition plus_one (v : Value) : Value :=
  match v with
  | VNumber n => VNumber (n + 1)
  | VMethod | VProto | VText => VText
  end.

(** [v == n] for a number [n]: a string that is no numeral converts to
    [NaN], which equals nothing. *)
Definition loose_equals (v : Value) (n : nat) : bool :=
  match v with
  | VNumber m => bool_decide (m = n)
  | VMethod | VProto | VText => false
  end.

(** [map[id] = v] for a number or a string [v]: a property of the object's
    own that hides an inherited method; the setter of [__proto__] takes
    objects only and leaves the object as it is. *)
Definition assign (map : gmap key Value) (id : key) (v : Value) : gmap key Value :=
  match map !! id with
  | Some VProto => map
  | _ => <[id := v]> map
  end.

(** intersectByHash, [handleEmit]: the new map and the item handed to
    [emit], if any. *)
Definition handleEmit_hash (hasher : item → key) (K : nat)
    (map : gmap key Value) (x : item) : gmap key Value * option item :=
  let id := hasher x in
  let count := VNumber 0 in
  let count := match map !! id with
               | Some v => if truthy v then v else count
               | None => count
               end in
  let count := plus_one count in
  (assign map id count, if loose_equals count K then Some x else None).

(** intersectByComparison, [handleEmit]: the scan over [distinctItems];
    [None] when the loop ends with [found] still false. *)
Fixpoint scan_distinct (comparator : item → item → bool) (K : nat)
    (ds : list Distinct) (x : item) : option (list Distinct * option item) :=
  match ds with
  | [] => None
  | d :: rest =>
      if comparator (d_item d) x then
        let count := d_count d + 1 in
        if negb (d_emitted d) && bool_decide (count = K)
        then Some (mkDistinct (d_item d) count true :: rest, Some (d_item d))
        else Some (mkDistinct (d_item d) count (d_emitted d) :: rest, None)
      else
        match scan_distinct comparator K rest x with
        | Some (rest', o) => Some (d :: rest', o)
        | None => None
        end
  end.

Definition handleEmit_cmp (comparator : item → item → bool) (K : nat)
    (ds : list Distinct) (x : item) : list Distinct * option item :=
  match scan_distinct comparator K ds x with
  | Some r => r
  | None =>
      if bool_decide (1 = K)
      then (ds ++ [mkDistinct x 1 true], Some x)
      else (ds ++ [mkDistinct x 1 false], None)
  end.

(** exclude: the inner loop over [itemsB], leaving at the first match. *)
Fixpoint skip_scan (comparator : item → item → bool) (itemA : item)
    (itemsB : list item) : bool :=
  match itemsB with
  | [] => false
  | itemB :: rest =>
      if comparator itemA itemB then true else skip_scan comparator itemA rest
  end.

(** exclude: the outer loop over [itemsA]. *)
Fixpoint exclude_loop (comparator : item → item → bool) (out : genRef)
    (itemsA itemsB : list item) (w : World) : World :=
  match itemsA with
  | [] => w
  | itemA :: rest =>
      exclude_loop comparator out rest itemsB
        (if skip_scan comparator itemA itemsB then w else emit out itemA HookNone w)
  end.

(** ** Bodies of the closures *)

Definition arg0 (args : Args) : item :=
  match args with
  | ArgsItem x _ => x
  | ArgsError e => e
  | ArgsNone => undefined
  end.

Definition ev_of (args : Args) : Ev :=
  match args with
  | ArgsItem x _ => EvItem x
  | ArgsError e => EvFault e
  | ArgsNone => EvDone
  end.

Definition hook_of (args : Args) : Hook :=
  match args with
  | ArgsItem _ c => c
  | _ => HookNone
  end.

Definition apply_cb (cb : ThenCb) (items : arrRef) (w : World) : Res * World :=
  match cb with
  | CbUser f => (f (read_array items w), w)
  | CbSetItemsA env =>
      (Return undefined,
       with_envs (alter (fun e => match e with
                                  | EnvExclude _ b => EnvExclude items b
                                  | e => e
                                  end) env) w)
  | CbSetItemsB env =>
      (Return undefined,
       with_envs (alter (fun e => match e with
                                  | EnvExclude a _ => EnvExclude a items
                                  | e => e
                                  end) env) w)
  | CbResolve p => (Return undefined, settle p (Fulfilled undefined) w)
  end.

Definition invoke (l : Listener) (args : Args) (w : World) : World :=
  match l with
  | LUser tag => record tag (ev_of args) w
  | LUserCancel tag => run_hook (hook_of args) (record tag (ev_of args) w)
  | LThenPush items => with_arrays (alter (fun a => a ++ [arg0 args]) items) w
  | LThenDone items cb p =>
      match apply_cb cb items w with
      | (Return result, w') => settle p (Fulfilled result) w'
      | (Throw e, w') => settle p (Rejected e) w'
      end
  | LResolve p => settle p (Fulfilled undefined) w
  | LReject p => settle p (Rejected (arg0 args)) w
  | LHashEmit env hasher K out =>
      match envs w !! env with
      | Some (EnvHash map) =>
          let '(map', o) := handleEmit_hash hasher K map (arg0 args) in
          let w := with_envs (fun l => <[env := EnvHash map']> l) w in
          match o with Some y => emit out y HookNone w | None => w end
      | _ => w
      end
  | LCmpEmit env comparator K out =>
      match envs w !! env with
      | Some (EnvCmp ds) =>
          let '(ds', o) := handleEmit_cmp comparator K ds (arg0 args) in
          let w := with_envs (fun l => <[env := EnvCmp ds']> l) w in
          match o with Some y => emit out y HookNone w | None => w end
      | _ => w
      end
  end.

(** [callback(fns, args)]: [max] is read once, [fns[i]] is read from the
    live array at every turn; an undefined [fns[i]] ends the task with a
    TypeError. *)
Fixpoint callback_from (n i : nat) (g : genRef) (k : Kind) (args : Args)
    (w : World) : World :=
  match n with
  | 0 => w
  | S n' =>
      match gens w !! g ≫= (fun G => registered k G !! i) with
      | Some l => callback_from n' (S i) g k args (invoke l args w)
      | None => w
      end
  end.

Definition callback (g : genRef) (k : Kind) (args : Args) (w : World) : World :=
  match gens w !! g with
  | Some G => callback_from (length (registered k G)) 0 g k args w
  | None => w
  end.

Definition react (r : Reaction) (s : Settled) (w : World) : World :=
  match r, s with
  | RAllElem all, Fulfilled _ =>
      match promises w !! all with
      | Some (mkPromise st rs (S n)) =>
          let w := with_promises (fun ps => <[all := mkPromise st rs n]> ps) w in
          match n with
          | 0 => settle all (Fulfilled undefined) w
          | S _ => w
          end
      | _ => w
      end
  | RAllElem all, Rejected e => settle all (Rejected e) w
  | RDone g, Fulfilled _ => done g w
  | RExcludeJoin env comparator out, Fulfilled _ =>
      match envs w !! env with
      | Some (EnvExclude a b) =>
          done out (exclude_loop comparator out (read_array a w) (read_array b w) w)
      | _ => w
      end
  | RCtorPromise g, Fulfilled result => done g (emit g result HookNoop w)
  | RLegacyDone g, Fulfilled _ => callback g KDone ArgsNone w
  | RUser tag, Fulfilled v => record tag (EvFulfilled v) w
  | RUser tag, Rejected e => record tag (EvRejected e) w
  | _, Rejected _ => w
  end.

(** ** The legacy revision: synchronous handles, one deferred start *)

Definition legacy_done (g : genRef) : World → World := callback g KDone ArgsNone.
Definition legacy_reject (g : genRef) (error : item) : World → World :=
  callback g KCatch (ArgsError error).
Definition legacy_emit (g : genRef) (x : item) : World → World :=
  callback g KEmit (ArgsItem x HookNone).

Fixpoint run_body (hdone : World → World) (hreject : item → World → World)
    (hemit : item → World → World) (body : list Action) (w : World) : World :=
  match body with
  | [] => w
  | ActEmit x :: rest => run_body hdone hreject hemit rest (hemit x w)
  | ActDone :: rest => run_body hdone hreject hemit rest (hdone w)
  | ActReject e :: rest => run_body hdone hreject hemit rest (hreject e w)
  end.

Fixpoint legacy_emit_all (g : genRef) (items : list item) (w : World) : World :=
  match items with
  | [] => w
  | x :: rest => legacy_emit_all g rest (legacy_emit g x w)
  end.

(** intersectByHash of the legacy revision, the loop over [promises].
    Every element is a Generator and has the method [emit], so the first
    branch is taken: [new Promise(function(resolve, reject) {
    handlers.emit(handleEmit).then(...) })].  [handlers] is the array, it
    has no [emit]: the executor throws, and the promise that is pushed is
    rejected with the TypeError.  [handleEmit], which calls the undefined
    [identify], is registered nowhere. *)
Fixpoint legacy_subscribe_hash (error : item) (promises : list genRef)
    : M (list promRef) :=
  match promises with
  | [] => ret []
  | _ :: rest =>
      do p <~ new_promise;
      exec (settle p (Rejected error)) ;;
      do handlers <~ legacy_subscribe_hash error rest;
      ret (p :: handlers)
  end.

(** The function that intersectByHash of the legacy revision hands to the
    constructor; [resolve] is the reaction [function() { resolve(); }]
    around the done handle it is called with. *)
Definition intersectByHash_body (resolve : Reaction) (promises : list genRef)
    (error : item) : World → World :=
  fun w =>
    let '(handlers, w) := legacy_subscribe_hash error promises w in
    let '(all, w) := promise_all handlers w in
    promise_then all resolve w.

(** The function the legacy constructor hands to [setTimeout]. *)
Definition legacy_start (g : genRef) (cb : Producer) (w : World) : World :=
  match cb with
  | PIterator vals => legacy_done g (legacy_emit_all g vals w)
  | PArray items => legacy_done g (legacy_emit_all g items w)
  | PFunction body => run_body (legacy_done g) (legacy_reject g) (legacy_emit g) body w
  | PPromise _ => w   (* cb(done, reject, emit): cb is not a function *)
  | PIntersectByHash promises error =>
      intersectByHash_body (RLegacyDone g) promises error w
  end.

(** ** The host's event loop *)

Definition run_job (j : Job) (w : World) : World :=
  match j with
  | JReact r s => react r s w
  end.

Definition run_task (t : Task) (w : World) : World :=
  match t with
  | TEmit g x cancel => callback g KEmit (ArgsItem x cancel) w
  | TDone g => callback g KDone ArgsNone w
  | TCatch g e => callback g KCatch (ArgsError e) w
  | TStart g cb => legacy_start g cb w
  | TSettle p s => settle p s w
  end.

(** One turn: the oldest promise job if there is one, else the oldest timer. *)
Definition step (w : World) : option World :=
  match jobs w with
  | j :: js => Some (run_job j (with_jobs (fun _ => js) w))
  | [] =>
      match timers w with
      | t :: ts => Some (run_task t (with_timers (fun _ => ts) w))
      | [] => None
      end
  end.

Fixpoint run (fuel : nat) (w : World) : World :=
  match fuel with
  | 0 => w
  | S n => match step w with
           | Some w' => run n w'
           | None => w
           end
  end.

Definition quiescent (w : World) : Prop := step w = None.

(** ** The constructor *)

Definition new_gen : M genRef :=
  fun w => (length (gens w), with_gens (fun l => l ++ [mkGen [] [] []]) w).

Fixpoint emit_all (g : genRef) (cancel : Hook) (items : list item) (w : World) : World :=
  match items with
  | [] => w
  | x :: rest => emit_all g cancel rest (emit g x cancel w)
  end.

(** [while (!cancelled && !(item = cb.next()).done) emit(item.value, ...)] *)
Fixpoint drain_iterator (g : genRef) (env : envRef) (vals : list item)
    (w : World) : World :=
  match vals with
  | [] => w
  | v :: rest =>
      if cancelled env w then w
      else drain_iterator g env rest (emit g v (HookCancel env) w)
  end.

(** The constructor up to the choice of route: the three arrays are
    created, then the route runs, all inside [new Generator(cb)]. *)
Definition Generator_with (route : genRef → M unit) : M genRef :=
  do g <~ new_gen;
  route g ;;
  ret g.

Definition classify (cb : Producer) (g : genRef) : M unit :=
  match cb with
  | PIterator vals =>
      do env <~ new_env (EnvCancel false);
      exec (drain_iterator g env vals) ;;
      exec (done g)
  | PArray items =>
      do env <~ new_env (EnvCancel false);
      exec (emit_all g (HookCancel env) items) ;;
      exec (done g)
  | PPromise p => exec (promise_then p (RCtorPromise g))
  | PFunction body =>
      exec (run_body (done g) (reject g) (fun x => emit g x HookNone) body)
  | PIntersectByHash promises error =>
      exec (intersectByHash_body (RDone g) promises error)
  end.

Definition Generator (cb : Producer) : M genRef := Generator_with (classify cb).

(** The legacy constructor: [setTimeout(function() { ... }, 1)] and nothing else. *)
Definition legacy_Generator (cb : Producer) : M genRef :=
  do g <~ new_gen;
  exec (setTimeout (TStart g cb)) ;;
  ret g.

(** [Generator.intersectByHash] of the legacy revision; [hasher] is not
    used by its body, which calls [identify]. *)
Definition legacy_intersectByHash (promises : list genRef) (hasher : item → key)
    (error : item) : M genRef :=
  legacy_Generator (PIntersectByHash promises error).

(** ** Instance methods *)

Definition register (k : Kind) (g : genRef) (cb : Listener) : World → World :=
  with_gens (alter (fun G =>
    match k with
    | KEmit => mkGen (_registeredEmits G ++ [cb]) (_registeredCatches G) (_registeredDones G)
    | KCatch => mkGen (_registeredEmits G) (_registeredCatches G ++ [cb]) (_registeredDones G)
    | KDone => mkGen (_registeredEmits G) (_registeredCatches G) (_registeredDones G ++ [cb])
    end) g).

(** [emit(cb)], [catch(cb)], [done(cb)] with a callback. *)
Definition Generator_emit (g : genRef) (cb : Listener) : M unit := exec (register KEmit g cb).
Definition Generator_catch (g : genRef) (cb : Listener) : M unit := exec (register KCatch g cb).
Definition Generator_done (g : genRef) (cb : Listener) : M unit := exec (register KDone g cb).

(** [done()] without a callback (later revision). *)
Definition Generator_done_promise (g : genRef) : M promRef :=
  do p <~ new_promise;
  Generator_done g (LResolve p) ;;
  Generator_catch g (LReject p) ;;
  ret p.

Definition Generator_then (g : genRef) (cb : ThenCb) : M promRef :=
  do p <~ new_promise;
  do items <~ new_array;
  Generator_emit g (LThenPush items) ;;
  Generator_done g (LThenDone items cb p) ;;
  ret p.

(** ** Static methods *)

(** [function(a, b) { return a === b; }] *)
Definition strict_equals (a b : item) : bool :=
  bool_decide (a = b) && negb (bool_decide (a = NaN)).

Definition Generator_exclude (setA setB : genRef)
    (comparator : option (item → item → bool)) : M genRef :=
  let comparator := match comparator with
                    | Some c => c
                    | None => strict_equals
                    end in
  Generator_with (fun out =>
    do itemsA <~ new_array;
    do itemsB <~ new_array;
    do env <~ new_env (EnvExclude itemsA itemsB);
    do pA <~ Generator_then setA (CbSetItemsA env);
    do pB <~ Generator_then setB (CbSetItemsB env);
    do all <~ promise_all [pA; pB];
    exec (promise_then all (RExcludeJoin env comparator out))).

Fixpoint subscribe_hash (handleEmit : Listener) (generators : list genRef)
    : M (list promRef) :=
  match generators with
  | [] => ret []
  | generator :: rest =>
      do p <~ new_promise;
      Generator_emit generator handleEmit ;;
      Generator_done generator (LResolve p) ;;
      do handlers <~ subscribe_hash handleEmit rest;
      ret (p :: handlers)
  end.

Definition Generator_intersectByHash (generators : list genRef)
    (hasher : item → key) : M genRef :=
  Generator_with (fun out =>
    do env <~ new_env (EnvHash empty_object);
    do handlers <~ subscribe_hash
                     (LHashEmit env hasher (length generators) out) generators;
    do all <~ promise_all handlers;
    exec (promise_then all (RDone out))).

Fixpoint subscribe_cmp (handleEmit : Listener) (generators : list genRef)
    : M (list promRef) :=
  match generators with
  | [] => ret []
  | generator :: rest =>
      do p <~ new_promise;
      Generator_emit generator handleEmit ;;
      do _ <~ Generator_then generator (CbResolve p);
      do handlers <~ subscribe_cmp handleEmit rest;
      ret (p :: handlers)
  end.

Definition Generator_intersectByComparison (generators : list genRef)
    (comparator : item → item → bool) : M genRef :=
  Generator_with (fun out =>
    do env <~ new_env (EnvCmp []);
    do handlers <~ subscribe_cmp
                     (LCmpEmit env comparator (length generators) out) generators;
    do all <~ promise_all handlers;
    exec (promise_then all (RDone out))).

(** ** Programs of a caller

    Each program is the synchronous code of a caller, run from the empty
    world; the event loop takes over when it returns. *)

Definition start {A} (m : M A) : World := snd (m empty_world).

(** [g = new Generator(cb); g.emit(le).catch(lc).done(ld)] *)
Definition observed (ctor : Producer → M genRef) (cb : Producer)
    (le lc ld : Listener) : M genRef :=
  do g <~ ctor cb;
  Generator_emit g le ;;
  Generator_catch g lc ;;
  Generator_done g ld ;;
  ret g.

(** * Properties *)

(** ** The event loop *)

Lemma run_add n m w : run (n + m) w = run m (run n w).
Proof.
  revert w. induction n as [|n IH]; intros w; simpl; [done|].
  destruct (step w) as [w'|] eqn:E; [apply IH|].
  destruct m; simpl; [done|]. by rewrite E.
Qed.

Lemma run_quiescent n w : quiescent w → run n w = w.
Proof. unfold quiescent. intros E. destruct n; simpl; [done|]. by rewrite E. Qed.

Lemma run_timer n w t ts :
  jobs w = [] → timers w = t :: ts →
  run (S n) w = run n (run_task t (with_timers (fun _ => ts) w)).
Proof. intros Hj Ht. simpl. unfold step. by rewrite Hj, Ht. Qed.

Lemma run_job_first n w j js :
  jobs w = j :: js →
  run (S n) w = run n (run_job j (with_jobs (fun _ => js) w)).
Proof. intros Hj. simpl. unfold step. by rewrite Hj. Qed.

(** Projections of updated worlds. *)
Ltac wcbn :=
  unfold with_gens, with_arrays, with_envs, with_promises, with_jobs, with_timers,
    with_log;
  cbn [gens arrays envs promises jobs timers log].

(** Evaluate [n] turns from a world whose queues start with known entries. *)
Ltac turns n :=
  match goal with
  | |- context [run n ?W] =>
      let W' := eval lazy -[exclude_loop] in (run n W) in
      replace (run n W) with W' by reflexivity
  end.

(** ** Dispatch *)

Lemma settle_gens p s w : gens (settle p s w) = gens w.
Proof.
  unfold settle. destruct (promises w !! p) as [[[?|] ? ?]|]; done.
Qed.

Lemma invoke_gens l args w : gens (invoke l args w) = gens w.
Proof.
  destruct l; cbn [invoke]; try done.
  - by destruct (hook_of args).
  - destruct cb; cbn [apply_cb]; try (destruct (f _)); rewrite ?settle_gens; reflexivity.
  - apply settle_gens.
  - apply settle_gens.
  - destruct (envs w !! env) as [[| |m|]|]; try done.
    destruct (handleEmit_hash hasher K m (arg0 args)) as [m' [y|]]; reflexivity.
  - destruct (envs w !! env) as [[| | |ds]|]; try done.
    destruct (handleEmit_cmp comparator K ds (arg0 args)) as [ds' [y|]]; reflexivity.
Qed.

Lemma callback_from_foldl n i g k args w G :
  gens w !! g = Some G →
  length (registered k G) = i + n →
  callback_from n i g k args w
  = foldl (fun w l => invoke l args w) w (drop i (registered k G)).
Proof.
  revert i w. induction n as [|n IH]; intros i w HG Hlen.
  - rewrite drop_ge by lia. done.
  - simpl. rewrite HG. simpl.
    destruct (registered k G !! i) as [l|] eqn:El.
    + rewrite (drop_S _ _ _ El). simpl.
      apply IH; [by rewrite invoke_gens | lia].
    + apply lookup_ge_None in El. lia.
Qed.

(** The listeners of the source never touch a listener array, so a dispatch
    is a left fold over the array as it was when the dispatch began. *)
Lemma callback_foldl g k args w G :
  gens w !! g = Some G →
  callback g k args w = foldl (fun w l => invoke l args w) w (registered k G).
Proof.
  intros HG. unfold callback. rewrite HG.
  by rewrite (callback_from_foldl _ 0 _ _ _ _ G).
Qed.

Lemma emit_all_timers g c xs w :
  emit_all g c xs w = with_timers (fun ts => ts ++ map (fun x => TEmit g x c) xs) w.
Proof.
  revert w. induction xs as [|x xs IH]; intros w; simpl.
  - destruct w. unfold with_timers. simpl. by rewrite app_nil_r.
  - rewrite IH. destruct w. unfold emit, setTimeout, with_timers. simpl.
    by rewrite <- app_assoc.
Qed.

(** A dispatch as a fold, and the listeners that queue no promise job. *)
Definition dispatch (G : Gen) (k : Kind) (args : Args) (w : World) : World :=
  foldl (fun w l => invoke l args w) w (registered k G).

Definition quiet (l : Listener) : bool :=
  match l with
  | LUser _ | LUserCancel _ | LThenPush _ | LHashEmit _ _ _ _ | LCmpEmit _ _ _ _ => true
  | LThenDone _ _ _ | LResolve _ | LReject _ => false
  end.

Lemma settle_prepend a p s w :
  settle p s (with_timers (app a) w) = with_timers (app a) (settle p s w).
Proof.
  unfold settle. simpl. destruct (promises w !! p) as [[[?|] ? ?]|]; done.
Qed.

Lemma setTimeout_prepend a t w :
  setTimeout t (with_timers (app a) w) = with_timers (app a) (setTimeout t w).
Proof. unfold setTimeout, with_timers. simpl. by rewrite app_assoc. Qed.

(** No listener reads the timer queue and every one only appends to it. *)
Lemma invoke_prepend a l args w :
  invoke l args (with_timers (app a) w) = with_timers (app a) (invoke l args w).
Proof.
  destruct l; cbn [invoke]; try done.
  - by destruct (hook_of args).
  - destruct cb as [f|env|env|q]; cbn [apply_cb].
    + change (read_array items (with_timers (app a) w)) with (read_array items w).
      destruct (f _); apply settle_prepend.
    + exact (settle_prepend a p _ (with_envs _ w)).
    + exact (settle_prepend a p _ (with_envs _ w)).
    + by rewrite !settle_prepend.
  - apply settle_prepend.
  - apply settle_prepend.
  - change (envs (with_timers (app a) w)) with (envs w).
    destruct (envs w !! env) as [[| |m|]|]; try done.
    destruct (handleEmit_hash hasher K m (arg0 args)) as [m' [y|]]; [|done].
    unfold emit. by rewrite <- setTimeout_prepend.
  - change (envs (with_timers (app a) w)) with (envs w).
    destruct (envs w !! env) as [[| | |ds]|]; try done.
    destruct (handleEmit_cmp comparator K ds (arg0 args)) as [ds' [y|]]; [|done].
    unfold emit. by rewrite <- setTimeout_prepend.
Qed.

Lemma dispatch_prepend a G k args w :
  dispatch G k args (with_timers (app a) w)
  = with_timers (app a) (dispatch G k args w).
Proof.
  unfold dispatch. revert w.
  induction (registered k G) as [|l ls IH]; intros w; simpl; [done|].
  by rewrite invoke_prepend, IH.
Qed.

Lemma invoke_quiet_jobs l args w : quiet l = true → jobs (invoke l args w) = jobs w.
Proof.
  destruct l; cbn [invoke quiet]; try done; intros _.
  - by destruct (hook_of args).
  - destruct (envs w !! env) as [[| |m|]|]; try done.
    by destruct (handleEmit_hash hasher K m (arg0 args)) as [m' [y|]].
  - destruct (envs w !! env) as [[| | |ds]|]; try done.
    by destruct (handleEmit_cmp comparator K ds (arg0 args)) as [ds' [y|]].
Qed.

Lemma dispatch_quiet_jobs G k args w :
  forallb quiet (registered k G) = true →
  jobs (dispatch G k args w) = jobs w.
Proof.
  unfold dispatch. revert w.
  induction (registered k G) as [|l ls IH]; intros w; simpl; [done|].
  intros [Hl Hls]%andb_prop. by rewrite IH, invoke_quiet_jobs.
Qed.

Lemma dispatch_gens G k args w : gens (dispatch G k args w) = gens w.
Proof.
  unfold dispatch. revert w.
  induction (registered k G) as [|l ls IH]; intros w; simpl; [done|].
  by rewrite IH, invoke_gens.
Qed.

Lemma with_timers_const_app (a b : list Task) w :
  with_timers (fun _ => a ++ b) w = with_timers (app a) (with_timers (fun _ => b) w).
Proof. done. Qed.

Lemma with_timers_reset (w' : World) a :
  with_timers (fun _ => timers w') (with_timers (app a) w') = w'.
Proof. by destruct w'. Qed.

(** The item timers of one Generator at the head of the queue, with quiet
    item listeners: in as many turns as there are timers, each item is
    dispatched in order; the timers the listeners set queue up behind. *)
Lemma run_items g G c xs rest w :
  jobs w = [] →
  gens w !! g = Some G →
  forallb quiet (_registeredEmits G) = true →
  timers w = map (fun x => TEmit g x c) xs ++ rest →
  run (length xs) w
  = foldl (fun w x => dispatch G KEmit (ArgsItem x c) w)
      (with_timers (fun _ => rest) w) xs.
Proof.
  revert rest w. induction xs as [|x xs IH]; intros rest w Hj HG Hq Ht.
  - simpl in *. destruct w; simpl in *. by subst.
  - cbn [length map app] in *.
    rewrite (run_timer _ _ _ _ Hj Ht). cbn [run_task].
    rewrite (callback_foldl _ _ _ _ G) by done.
    fold (dispatch G KEmit (ArgsItem x c)
            (with_timers (fun _ => map (fun x => TEmit g x c) xs ++ rest) w)).
    rewrite with_timers_const_app, dispatch_prepend.
    set (w2 := dispatch G KEmit (ArgsItem x c) (with_timers (fun _ => rest) w)).
    rewrite (IH (timers w2)).
    + by rewrite with_timers_reset.
    + unfold w2. simpl. by rewrite dispatch_quiet_jobs.
    + unfold w2. simpl. by rewrite dispatch_gens.
    + done.
    + done.
Qed.

Lemma legacy_emit_all_foldl g G xs w :
  gens w !! g = Some G →
  legacy_emit_all g xs w
  = foldl (fun w x => dispatch G KEmit (ArgsItem x HookNone) w) w xs.
Proof.
  revert w. induction xs as [|x xs IH]; intros w HG; simpl; [done|].
  unfold legacy_emit. rewrite (callback_foldl _ _ _ _ G) by done.
  apply IH. by rewrite dispatch_gens.
Qed.

(** Items dispatched to a single recording listener end up in the record,
    in order. *)
Lemma foldl_dispatch_user G tag c xs w :
  _registeredEmits G = [LUser tag] →
  foldl (fun w x => dispatch G KEmit (ArgsItem x c) w) w xs
  = with_log (fun l => l ++ map (fun x => Seen tag (EvItem x)) xs) w.
Proof.
  intros HE. revert w. induction xs as [|x xs IH]; intros w.
  - destruct w. unfold with_log. simpl. by rewrite app_nil_r.
  - cbn [foldl]. rewrite IH. unfold dispatch. cbn [registered]. rewrite HE.
    destruct w. unfold with_log, record. simpl. by rewrite <- app_assoc.
Qed.

(** The world a caller leaves behind after [new Generator(S)] and the
    registration of three listeners. *)
Lemma start_array xs le lc ld :
  start (observed Generator (PArray xs) le lc ld)
  = mkWorld [mkGen [le] [lc] [ld]] [] [EnvCancel false] [] []
      (map (fun x => TEmit 0 x (HookCancel 0)) xs ++ [TDone 0]) [].
Proof.
  unfold start, observed, Generator, Generator_with, bind. cbn.
  rewrite emit_all_timers. reflexivity.
Qed.

Lemma start_legacy cb le lc ld :
  start (observed legacy_Generator cb le lc ld)
  = mkWorld [mkGen [le] [lc] [ld]] [] [] [] [] [TStart 0 cb] [].
Proof. reflexivity. Qed.

(** C1, later revision: the run of [new Generator(S)] observed by recording
    listeners. *)
Lemma array_run xs te tc td extra :
  run (length xs + 1 + extra)
    (start (observed Generator (PArray xs) (LUser te) (LUser tc) (LUser td)))
  = mkWorld [mkGen [LUser te] [LUser tc] [LUser td]] [] [EnvCancel false] [] [] []
      (map (fun x => Seen te (EvItem x)) xs ++ [Seen td EvDone]).
Proof.
  rewrite start_array, <- Nat.add_assoc, run_add.
  rewrite (run_items 0 (mkGen [LUser te] [LUser tc] [LUser td]) (HookCancel 0) xs [TDone 0])
    by done.
  rewrite (foldl_dispatch_user _ te) by done.
  rewrite run_add. simpl. by apply run_quiescent.
Qed.

Lemma legacy_array_run xs te tc td extra :
  run (1 + extra)
    (start (observed legacy_Generator (PArray xs) (LUser te) (LUser tc) (LUser td)))
  = mkWorld [mkGen [LUser te] [LUser tc] [LUser td]] [] [] [] [] []
      (map (fun x => Seen te (EvItem x)) xs ++ [Seen td EvDone]).
Proof.
  rewrite start_legacy, run_add. cbn [run step jobs timers run_task legacy_start].
  rewrite (legacy_emit_all_foldl 0 (mkGen [LUser te] [LUser tc] [LUser td])) by done.
  rewrite (foldl_dispatch_user _ te) by done.
  simpl. by apply run_quiescent.
Qed.

(** C1. For every finite array [S], a listener registered on the Generator
    made from [S] before control is yielded receives the elements of [S] in
    their order, then completion is signalled once, and nothing follows:
    after [length S + 1] turns of the event loop (one turn in the legacy
    revision) the loop is at rest and the record of the listeners is [S]
    followed by one completion, whatever fuel is added. *)
Theorem C1_array_emits_in_order_then_completes_once
    (S : list item) (te tc td extra : nat) :
  let later := run (length S + 1 + extra)
      (start (observed Generator (PArray S) (LUser te) (LUser tc) (LUser td))) in
  let legacy := run (1 + extra)
      (start (observed legacy_Generator (PArray S) (LUser te) (LUser tc) (LUser td))) in
  log later = map (fun x => Seen te (EvItem x)) S ++ [Seen td EvDone]
  ∧ quiescent later
  ∧ log legacy = map (fun x => Seen te (EvItem x)) S ++ [Seen td EvDone]
  ∧ quiescent legacy.
Proof.
  cbv zeta. rewrite array_run, legacy_array_run. done.
Qed.

(** ** Queues of dispatching timers *)

Definition task_target (t : Task) : option (genRef * Kind * Args) :=
  match t with
  | TEmit g x c => Some (g, KEmit, ArgsItem x c)
  | TDone g => Some (g, KDone, ArgsNone)
  | TCatch g e => Some (g, KCatch, ArgsError e)
  | TStart _ _ | TSettle _ _ => None
  end.

(** A timer that dispatches to quiet listeners only. *)
Definition quiet_task (gs : list Gen) (t : Task) : Prop :=
  ∃ g k args G, task_target t = Some (g, k, args)
                ∧ gs !! g = Some G
                ∧ forallb quiet (registered k G) = true.

Lemma run_task_dispatch gs t w :
  gens w = gs → quiet_task gs t →
  ∃ G k args, forallb quiet (registered k G) = true
              ∧ ∀ w', gens w' = gs → run_task t w' = dispatch G k args w'.
Proof.
  intros Hg (g & k & args & G & Ht & HG & Hq).
  exists G, k, args. split; [done|]. intros w' Hw'.
  destruct t; simplify_eq/=; by apply callback_foldl; rewrite Hw'.
Qed.

Lemma run_tasks ts rest w :
  jobs w = [] →
  Forall (quiet_task (gens w)) ts →
  timers w = ts ++ rest →
  run (length ts) w
  = foldl (fun w t => run_task t w) (with_timers (fun _ => rest) w) ts.
Proof.
  revert rest w. induction ts as [|t ts IH]; intros rest w Hj Hq Ht.
  - simpl in *. destruct w; simpl in *. by subst.
  - cbn [length app] in *.
    rewrite (run_timer _ _ _ _ Hj Ht). cbn [foldl].
    apply Forall_cons in Hq as [Hq Hqs].
    destruct (run_task_dispatch (gens w) t w eq_refl Hq) as (G & k & args & HG & Hrun).
    rewrite !Hrun by done.
    rewrite with_timers_const_app, dispatch_prepend.
    set (w2 := dispatch G k args (with_timers (fun _ => rest) w)).
    rewrite (IH (timers w2)).
    + by rewrite with_timers_reset.
    + unfold w2. simpl. by rewrite dispatch_quiet_jobs.
    + unfold w2. simpl. by rewrite dispatch_gens.
    + done.
Qed.

(** ** Producer functions of the caller *)

Definition task_of (g : genRef) (a : Action) : Task :=
  match a with
  | ActEmit x => TEmit g x HookNone
  | ActDone => TDone g
  | ActReject e => TCatch g e
  end.

(** What three recording listeners, one per list, record of an action. *)
Definition seen_of (te tc td : nat) (a : Action) : Obs :=
  match a with
  | ActEmit x => Seen te (EvItem x)
  | ActDone => Seen td EvDone
  | ActReject e => Seen tc (EvFault e)
  end.

Lemma run_body_timers g body w :
  run_body (done g) (reject g) (fun x => emit g x HookNone) body w
  = with_timers (fun ts => ts ++ map (task_of g) body) w.
Proof.
  revert w. induction body as [|a body IH]; intros w.
  - destruct w. unfold with_timers. simpl. by rewrite app_nil_r.
  - destruct a; cbn [run_body map]; rewrite IH; destruct w;
      unfold done, reject, emit, setTimeout, with_timers; simpl;
      by rewrite <- app_assoc.
Qed.

Lemma start_function body le lc ld :
  start (observed Generator (PFunction body) le lc ld)
  = mkWorld [mkGen [le] [lc] [ld]] [] [] [] [] (map (task_of 0) body) [].
Proof.
  unfold start, observed, Generator, Generator_with, bind. cbn.
  rewrite run_body_timers. reflexivity.
Qed.

Lemma quiet_task_of G te tc td body :
  G = mkGen [LUser te] [LUser tc] [LUser td] →
  Forall (quiet_task [G]) (map (task_of 0) body).
Proof.
  intros ->. apply Forall_forall. intros t [a [-> _]]%list_elem_of_fmap.
  destruct a; eexists 0, _, _, _; done.
Qed.

Lemma foldl_tasks_user G te tc td body w :
  G = mkGen [LUser te] [LUser tc] [LUser td] →
  gens w = [G] →
  foldl (fun w t => run_task t w) w (map (task_of 0) body)
  = with_log (fun l => l ++ map (seen_of te tc td) body) w.
Proof.
  intros -> . revert w. induction body as [|a body IH]; intros w Hg.
  - destruct w. unfold with_log. simpl. by rewrite app_nil_r.
  - cbn [foldl map]. rewrite IH.
    + destruct a; cbn [run_task task_of];
        erewrite callback_foldl by (by rewrite Hg);
        destruct w; unfold with_log, record; simpl; by rewrite <- app_assoc.
    + destruct a; cbn [run_task task_of];
        erewrite callback_foldl by (by rewrite Hg);
        by rewrite ?invoke_gens.
Qed.

(** A producer function observed by three recording listeners: every call
    of a handle is recorded by the listener of its list, in call order. *)
Lemma function_run body te tc td extra :
  run (length body + extra)
    (start (observed Generator (PFunction body) (LUser te) (LUser tc) (LUser td)))
  = mkWorld [mkGen [LUser te] [LUser tc] [LUser td]] [] [] [] [] []
      (map (seen_of te tc td) body).
Proof.
  rewrite start_function, run_add.
  rewrite <- (length_map (task_of 0) body).
  rewrite (run_tasks _ []); [|done|by eapply quiet_task_of|by rewrite app_nil_r].
  erewrite foldl_tasks_user by done.
  by apply run_quiescent.
Qed.

Lemma legacy_run_body_foldl g body w :
  run_body (legacy_done g) (legacy_reject g) (legacy_emit g) body w
  = foldl (fun w t => run_task t w) w (map (task_of g) body).
Proof.
  revert w. induction body as [|a body IH]; intros w; [done|].
  destruct a; cbn [run_body map foldl]; by rewrite IH.
Qed.

Lemma legacy_function_run body te tc td extra :
  run (1 + extra)
    (start (observed legacy_Generator (PFunction body) (LUser te) (LUser tc) (LUser td)))
  = mkWorld [mkGen [LUser te] [LUser tc] [LUser td]] [] [] [] [] []
      (map (seen_of te tc td) body).
Proof.
  rewrite start_legacy, run_add. cbn [run step jobs timers run_task legacy_start].
  rewrite legacy_run_body_foldl.
  erewrite foldl_tasks_user by done.
  by apply run_quiescent.
Qed.

(** ** The iterator route *)

Lemma emit_envs g x c w : envs (emit g x c w) = envs w.
Proof. done. Qed.

(** Nothing can set [cancelled] while the constructor runs: the loop over
    the iterator never leaves early. *)
Lemma drain_iterator_timers g env vals w :
  cancelled env w = false →
  drain_iterator g env vals w
  = with_timers (fun ts => ts ++ map (fun x => TEmit g x (HookCancel env)) vals) w.
Proof.
  revert w. induction vals as [|v vals IH]; intros w Hc; simpl.
  - destruct w. unfold with_timers. simpl. by rewrite app_nil_r.
  - rewrite Hc, IH by done. destruct w. unfold emit, setTimeout, with_timers. simpl.
    by rewrite <- app_assoc.
Qed.

Lemma start_iterator xs le lc ld :
  start (observed Generator (PIterator xs) le lc ld)
  = start (observed Generator (PArray xs) le lc ld).
Proof.
  unfold start, observed, Generator, Generator_with, bind. cbn.
  by rewrite drain_iterator_timers, emit_all_timers.
Qed.

(** ** Cancellation hooks *)

Lemma foldl_dispatch_cancel G tag env x xs w :
  _registeredEmits G = [LUserCancel tag] →
  foldl (fun w x => dispatch G KEmit (ArgsItem x (HookCancel env)) w) w (x :: xs)
  = with_envs (fun l => <[env := EnvCancel true]> l)
      (with_log (fun l => l ++ map (fun x => Seen tag (EvItem x)) (x :: xs)) w).
Proof.
  intros HE. revert x w. induction xs as [|y xs IH]; intros x w.
  - unfold dispatch. cbn [registered]. rewrite HE. reflexivity.
  - change (foldl ?f w (x :: y :: xs)) with (foldl f (f w x) (y :: xs)).
    rewrite IH. unfold dispatch. cbn [registered]. rewrite HE.
    destruct w. unfold with_log, with_envs, record. simpl.
    by rewrite <- app_assoc, list_insert_insert_eq.
Qed.

(** The array route with a listener that invokes the hook on every item. *)
Lemma array_cancel_run x xs te tc td extra :
  run (length (x :: xs) + 1 + extra)
    (start (observed Generator (PArray (x :: xs)) (LUserCancel te) (LUser tc) (LUser td)))
  = mkWorld [mkGen [LUserCancel te] [LUser tc] [LUser td]] [] [EnvCancel true] [] [] []
      (map (fun x => Seen te (EvItem x)) (x :: xs) ++ [Seen td EvDone]).
Proof.
  rewrite start_array, <- Nat.add_assoc, run_add.
  rewrite (run_items 0 (mkGen [LUserCancel te] [LUser tc] [LUser td])
             (HookCancel 0) (x :: xs) [TDone 0]) by done.
  rewrite (foldl_dispatch_cancel _ te) by done.
  rewrite run_add. simpl. by apply run_quiescent.
Qed.

(** The iterator route tests [cancelled] in its loop, which has ended as
    well before any listener runs: the same listener receives everything. *)
Lemma iterator_cancel_run x xs te tc td extra :
  run (length (x :: xs) + 1 + extra)
    (start (observed Generator (PIterator (x :: xs)) (LUserCancel te) (LUser tc) (LUser td)))
  = mkWorld [mkGen [LUserCancel te] [LUser tc] [LUser td]] [] [EnvCancel true] [] [] []
      (map (fun x => Seen te (EvItem x)) (x :: xs) ++ [Seen td EvDone]).
Proof. rewrite start_iterator. apply array_cancel_run. Qed.

(** C9. The array route hands every element to [emit] together with a hook
    that sets [cancelled], but the loop that does so has ended before any
    listener runs and never reads the flag: a listener that invokes the
    hook on the first element (and on every later one) still receives all
    the elements, and completion after them, while [cancelled] is indeed
    set to true. *)
Theorem C9_array_ignores_cancellation
    (x : item) (rest : list item) (te tc td extra : nat) :
  let w := run (length (x :: rest) + 1 + extra)
      (start (observed Generator (PArray (x :: rest))
                (LUserCancel te) (LUser tc) (LUser td))) in
  log w = map (fun y => Seen te (EvItem y)) (x :: rest) ++ [Seen td EvDone]
  ∧ cancelled 0 w = true
  ∧ quiescent w.
Proof.
  cbv zeta. rewrite array_cancel_run. done.
Qed.

(** ** Promises as producers *)

(** [Promise.resolve(v)], [Promise.reject(e)]. *)
Definition Promise_settled (s : Settled) : M promRef :=
  do p <~ new_promise;
  exec (settle p s) ;;
  ret p.

(** A promise that the outside world settles in a later turn. *)
Definition Promise_later (s : Settled) : M promRef :=
  do p <~ new_promise;
  exec (setTimeout (TSettle p s)) ;;
  ret p.

Definition observed_promise (mk : M promRef) (le lc ld : Listener) : M genRef :=
  do p <~ mk;
  observed Generator (PPromise p) le lc ld.

Lemma promise_fulfilled_run v te tc td extra :
  run (3 + extra)
    (start (observed_promise (Promise_settled (Fulfilled v))
              (LUser te) (LUser tc) (LUser td)))
  = mkWorld [mkGen [LUser te] [LUser tc] [LUser td]] [] []
      [mkPromise (Some (Fulfilled v)) [] 0] [] []
      [Seen te (EvItem v); Seen td EvDone].
Proof. rewrite run_add. by apply run_quiescent. Qed.

Lemma promise_later_fulfilled_run v te tc td extra :
  run (4 + extra)
    (start (observed_promise (Promise_later (Fulfilled v))
              (LUser te) (LUser tc) (LUser td)))
  = mkWorld [mkGen [LUser te] [LUser tc] [LUser td]] [] []
      [mkPromise (Some (Fulfilled v)) [] 0] [] []
      [Seen te (EvItem v); Seen td EvDone].
Proof. rewrite run_add. by apply run_quiescent. Qed.

Lemma promise_rejected_run e te tc td extra :
  run (1 + extra)
    (start (observed_promise (Promise_settled (Rejected e))
              (LUser te) (LUser tc) (LUser td)))
  = mkWorld [mkGen [LUser te] [LUser tc] [LUser td]] [] []
      [mkPromise (Some (Rejected e)) [] 0] [] [] [].
Proof. rewrite run_add. by apply run_quiescent. Qed.

Lemma promise_later_rejected_run e te tc td extra :
  run (2 + extra)
    (start (observed_promise (Promise_later (Rejected e))
              (LUser te) (LUser tc) (LUser td)))
  = mkWorld [mkGen [LUser te] [LUser tc] [LUser td]] [] []
      [mkPromise (Some (Rejected e)) [] 0] [] [] [].
Proof. rewrite run_add. by apply run_quiescent. Qed.

(** C5. A Generator made from a promise that is fulfilled with [v] emits
    [v] once and then completes.  Made from a promise that is rejected,
    whether before the constructor runs or in a later turn, it delivers
    nothing at all: the constructor hands [then] a fulfilment callback
    only, so the fault listener is never called (nor is any other), and the
    loop comes to rest with an empty record. *)
Theorem C5_rejected_promise_is_not_a_fault (v e : item) (te tc td extra : nat) :
  let fulfilled := run (3 + extra)
      (start (observed_promise (Promise_settled (Fulfilled v))
                (LUser te) (LUser tc) (LUser td))) in
  let now := run (1 + extra)
      (start (observed_promise (Promise_settled (Rejected e))
                (LUser te) (LUser tc) (LUser td))) in
  let later := run (2 + extra)
      (start (observed_promise (Promise_later (Rejected e))
                (LUser te) (LUser tc) (LUser td))) in
  log fulfilled = [Seen te (EvItem v); Seen td EvDone] ∧ quiescent fulfilled
  ∧ log now = [] ∧ quiescent now
  ∧ log later = [] ∧ quiescent later.
Proof.
  cbv zeta.
  rewrite promise_fulfilled_run, promise_rejected_run, promise_later_rejected_run.
  done.
Qed.

(** ** [then] *)

(** [g = new Generator(cb); g.catch(lc); g.then(f).then(record, record)] *)
Definition then_program (ctor : Producer → M genRef) (cb : Producer)
    (f : list item → Res) (tc tp : nat) : M promRef :=
  do g <~ ctor cb;
  Generator_catch g (LUser tc) ;;
  do p <~ Generator_then g (CbUser f);
  exec (promise_then p (RUser tp)) ;;
  ret p.

Definition settled_of (r : Res) : Settled :=
  match r with
  | Return v => Fulfilled v
  | Throw e => Rejected e
  end.

Definition ev_of_settled (s : Settled) : Ev :=
  match s with
  | Fulfilled v => EvFulfilled v
  | Rejected e => EvRejected e
  end.

Lemma foldl_dispatch_push G a c xs w :
  _registeredEmits G = [LThenPush a] →
  foldl (fun w x => dispatch G KEmit (ArgsItem x c) w) w xs
  = with_arrays (alter (fun l => l ++ xs) a) w.
Proof.
  intros HE. revert w. induction xs as [|x xs IH]; intros w.
  - destruct w. unfold with_arrays. simpl. f_equal.
    symmetry. apply list_alter_id. intros l. by rewrite app_nil_r.
  - cbn [foldl]. rewrite IH. unfold dispatch. cbn [registered]. rewrite HE.
    destruct w. unfold with_arrays. simpl. f_equal.
    rewrite list_alter_alter_eq. apply list_alter_ext; [|done].
    intros l _. simpl. by rewrite <- app_assoc.
Qed.

Lemma start_then_array xs f tc tp :
  start (then_program Generator (PArray xs) f tc tp)
  = mkWorld [mkGen [LThenPush 0] [LUser tc] [LThenDone 0 (CbUser f) 0]]
      [[]] [EnvCancel false] [mkPromise None [RUser tp] 0] []
      (map (fun x => TEmit 0 x (HookCancel 0)) xs ++ [TDone 0]) [].
Proof.
  unfold start, then_program, Generator, Generator_with, bind. cbn.
  rewrite emit_all_timers. reflexivity.
Qed.

(** [then] on the Generator of an array: the callback is applied to the
    array's elements in order, and the future is settled by its outcome. *)
Lemma then_array_run xs f tc tp extra :
  run (length xs + 2 + extra) (start (then_program Generator (PArray xs) f tc tp))
  = mkWorld [mkGen [LThenPush 0] [LUser tc] [LThenDone 0 (CbUser f) 0]]
      [xs] [EnvCancel false] [mkPromise (Some (settled_of (f xs))) [] 0] [] []
      [Seen tp (ev_of_settled (settled_of (f xs)))].
Proof.
  rewrite start_then_array, <- Nat.add_assoc, run_add.
  rewrite (run_items 0 (mkGen [LThenPush 0] [LUser tc] [LThenDone 0 (CbUser f) 0])
             (HookCancel 0) xs [TDone 0]) by done.
  rewrite (foldl_dispatch_push _ 0) by done.
  rewrite run_add.
  cbn. unfold read_array. cbn.
  destruct (f xs); cbn; by apply run_quiescent.
Qed.

Lemma foldl_emit_tasks g G c xs w :
  gens w !! g = Some G →
  foldl (fun w t => run_task t w) w (map (fun x => TEmit g x c) xs)
  = foldl (fun w x => dispatch G KEmit (ArgsItem x c) w) w xs.
Proof.
  revert w. induction xs as [|x xs IH]; intros w HG; [done|].
  cbn [map foldl run_task]. rewrite (callback_foldl _ _ _ _ G) by done.
  apply IH. by rewrite dispatch_gens.
Qed.

(** A producer function that emits [xs] and then faults. *)
Definition faulting (xs : list item) (e : item) : Producer :=
  PFunction (map ActEmit xs ++ [ActReject e]).

Lemma foldl_then_fault G xs e f tc w :
  G = mkGen [LThenPush 0] [LUser tc] [LThenDone 0 (CbUser f) 0] →
  gens w = [G] →
  foldl (fun w t => run_task t w) w (map (task_of 0) (map ActEmit xs ++ [ActReject e]))
  = with_log (fun l => l ++ [Seen tc (EvFault e)])
      (with_arrays (alter (fun l => l ++ xs) 0) w).
Proof.
  intros -> Hg. rewrite map_app, foldl_app, map_map.
  change (map (fun x => task_of 0 (ActEmit x)) xs)
    with (map (fun x => TEmit 0 x HookNone) xs).
  erewrite foldl_emit_tasks by (by rewrite Hg).
  rewrite (foldl_dispatch_push _ 0) by done.
  cbn [map foldl task_of run_task].
  erewrite callback_foldl by (simpl; by rewrite Hg). done.
Qed.

Lemma then_fault_run xs e f tc tp extra :
  run (length xs + 1 + extra) (start (then_program Generator (faulting xs e) f tc tp))
  = mkWorld [mkGen [LThenPush 0] [LUser tc] [LThenDone 0 (CbUser f) 0]]
      [xs] [] [mkPromise None [RUser tp] 0] [] [] [Seen tc (EvFault e)].
Proof.
  unfold start, then_program, faulting, Generator, Generator_with, bind. cbn.
  rewrite run_body_timers, run_add.
  replace (length xs + 1) with (length (map (task_of 0) (map ActEmit xs ++ [ActReject e])))
    by (by rewrite length_map, length_app, length_map).
  rewrite (run_tasks _ []).
  - erewrite foldl_then_fault by done. by apply run_quiescent.
  - done.
  - apply Forall_forall. intros t [a [-> Ha]]%list_elem_of_fmap.
    apply elem_of_app in Ha as [[x [-> _]]%list_elem_of_fmap | ->%list_elem_of_singleton];
      eexists 0, _, _, _; done.
  - cbn. by rewrite app_nil_r.
Qed.

Lemma legacy_then_fault_run xs e f tc tp extra :
  run (1 + extra) (start (then_program legacy_Generator (faulting xs e) f tc tp))
  = mkWorld [mkGen [LThenPush 0] [LUser tc] [LThenDone 0 (CbUser f) 0]]
      [xs] [] [mkPromise None [RUser tp] 0] [] [] [Seen tc (EvFault e)].
Proof.
  rewrite run_add. unfold start, then_program, faulting, legacy_Generator, bind.
  cbn [run step jobs timers run_task legacy_start]. cbn.
  rewrite legacy_run_body_foldl.
  erewrite foldl_then_fault by done. by apply run_quiescent.
Qed.

(** C3. [then] registers an item listener and a completion listener and no
    fault listener.  On a stream that emits [xs] and then faults with [e],
    in either revision, the fault reaches the fault listener, the items
    are collected, and the future returned by [then] is left pending for
    good: its state is still pending when the loop is at rest, and its
    observer has recorded neither a value nor a rejection. *)
Theorem C3_then_future_stays_pending_on_fault
    (xs : list item) (e : item) (f : list item → Res) (tc tp extra : nat) :
  let later := run (length xs + 1 + extra)
      (start (then_program Generator (faulting xs e) f tc tp)) in
  let legacy := run (1 + extra)
      (start (then_program legacy_Generator (faulting xs e) f tc tp)) in
  (log later = [Seen tc (EvFault e)]
   ∧ promises later !! 0 = Some (mkPromise None [RUser tp] 0)
   ∧ quiescent later)
  ∧ (log legacy = [Seen tc (EvFault e)]
     ∧ promises legacy !! 0 = Some (mkPromise None [RUser tp] 0)
     ∧ quiescent legacy).
Proof.
  cbv zeta. rewrite then_fault_run, legacy_then_fault_run. done.
Qed.

(** The sibling: the future of [done()] is wired to the fault list. *)
Definition done_promise_program (cb : Producer) (tp : nat) : M promRef :=
  do g <~ Generator cb;
  do p <~ Generator_done_promise g;
  exec (promise_then p (RUser tp)) ;;
  ret p.

Lemma done_promise_rejects_on_fault e tp extra :
  log (run (2 + extra) (start (done_promise_program (faulting [] e) tp)))
  = [Seen tp (EvRejected e)].
Proof. rewrite run_add. by rewrite run_quiescent. Qed.

(** ** Terminal events *)

Definition terminal (o : Obs) : bool :=
  match o with
  | Seen _ EvDone | Seen _ (EvFault _) => true
  | Seen _ _ => false
  end.

(** The property of a record that at most one terminal event is in it. *)
Definition at_most_one_terminal (l : list Obs) : Prop :=
  length (List.filter terminal l) ≤ 1.

(** C4, as the code has it.  A Generator keeps no state of its life cycle.
    Every call of the done handle is delivered, once, to the completion
    listeners and to no others; every call of the fault handle is
    delivered, once, to the fault listeners and to no others; every call of
    the emit handle to the item listeners; and the deliveries come in the
    order of the calls whatever they are, so a producer function that calls
    both terminal handles, or one of them twice, fires that many terminal
    events.  With three recording listeners [te], [tc], [td] on the three
    lists the record is the image of the producer's calls, in both
    revisions. *)
Theorem C4_every_handle_call_is_delivered_to_its_own_list
    (body : list Action) (te tc td extra : nat) :
  let later := run (length body + extra)
      (start (observed Generator (PFunction body) (LUser te) (LUser tc) (LUser td))) in
  let legacy := run (1 + extra)
      (start (observed legacy_Generator (PFunction body)
                (LUser te) (LUser tc) (LUser td))) in
  log later = map (seen_of te tc td) body ∧ quiescent later
  ∧ log legacy = map (seen_of te tc td) body ∧ quiescent legacy.
Proof.
  cbv zeta. rewrite function_run, legacy_function_run. done.
Qed.

(** ** Deferral *)

(** The scheme in which the constructor sets one timer and everything else
    happens inside that timer's turn. *)
Definition single_deferral (ctor : Producer → M genRef) (cb : Producer) : Prop :=
  let w := start (observed ctor cb (LUser 0) (LUser 1) (LUser 2)) in
  length (timers w) = 1 ∧ timers (run 1 w) = [].

Lemma settle_timers p s w : timers (settle p s w) = timers w.
Proof. unfold settle. by destruct (promises w !! p) as [[[?|] ? ?]|]. Qed.

Lemma promise_then_timers p r w : timers (promise_then p r w) = timers w.
Proof. unfold promise_then. by destruct (promises w !! p) as [[[?|] ? ?]|]. Qed.

Lemma foldl_promise_then_timers r ps w :
  timers (foldl (fun w p => promise_then p r w) w ps) = timers w.
Proof.
  revert w. induction ps as [|p ps IH]; intros w; [done|].
  cbn [foldl]. by rewrite IH, promise_then_timers.
Qed.

Lemma promise_all_timers ps w : timers (promise_all ps w).2 = timers w.
Proof.
  unfold promise_all. cbn [snd].
  destruct ps; rewrite ?settle_timers, foldl_promise_then_timers; done.
Qed.

Lemma legacy_subscribe_hash_timers error gs w :
  timers (legacy_subscribe_hash error gs w).2 = timers w.
Proof.
  revert w. induction gs as [|g gs IH]; intros w; [done|].
  cbn [legacy_subscribe_hash]. unfold bind, new_promise, exec, ret.
  specialize (IH (settle (length (promises w)) (Rejected error)
                    (with_promises (fun ps => ps ++ [mkPromise None [] 0]) w))).
  destruct (legacy_subscribe_hash error gs _) as [hs w']. cbn [snd] in *.
  by rewrite IH, settle_timers.
Qed.

(** The function of the legacy intersectByHash sets no timer. *)
Lemma intersectByHash_body_timers r gs error w :
  timers (intersectByHash_body r gs error w) = timers w.
Proof.
  unfold intersectByHash_body.
  pose proof (legacy_subscribe_hash_timers error gs w) as H1.
  destruct (legacy_subscribe_hash error gs w) as [hs w1]. cbn [snd] in H1.
  pose proof (promise_all_timers hs w1) as H2.
  destruct (promise_all hs w1) as [q w2]. cbn [snd] in H2.
  by rewrite promise_then_timers, H2, H1.
Qed.

Lemma legacy_single_deferral cb : single_deferral legacy_Generator cb.
Proof.
  split; [done|]. cbv zeta. change (run 1) with (run (1 + 0)).
  destruct cb as [body|xs|p|xs|gs error].
  5: { change (start (observed legacy_Generator (PIntersectByHash gs error)
                       (LUser 0) (LUser 1) (LUser 2)))
         with (mkWorld [mkGen [LUser 0] [LUser 1] [LUser 2]] [] [] [] []
                 [TStart 0 (PIntersectByHash gs error)] []).
       rewrite run_add. cbn [run step jobs timers run_task legacy_start].
       by rewrite intersectByHash_body_timers. }
  - by rewrite legacy_function_run.
  - by rewrite legacy_array_run.
  - done.
  - change (start (observed legacy_Generator (PIterator xs)
                     (LUser 0) (LUser 1) (LUser 2)))
      with (mkWorld [mkGen [LUser 0] [LUser 1] [LUser 2]] [] [] [] []
              [TStart 0 (PIterator xs)] []).
    rewrite run_add. cbn [run step jobs timers run_task legacy_start].
    rewrite (legacy_emit_all_foldl 0 (mkGen [LUser 0] [LUser 1] [LUser 2])) by done.
    by rewrite (foldl_dispatch_user _ 0).
Qed.

(** C2, as the code has it.  In the later revision the constructor
    classifies its argument and runs the producer at once, inside
    [new Generator]; what is deferred is each call of [emit], [done] and
    [reject], by a timer of its own: one timer per element and one for
    completion for an array or an iterator, one per call for a producer
    function, and for a fulfilled promise a promise job that sets two
    timers.  Nothing is dispatched before the caller yields control, so
    listeners registered between construction and that moment record every
    event from the first on.  In the legacy revision construction sets a
    single timer and its turn dispatches everything. *)
Theorem C2_later_revision_defers_each_event
    (xs : list item) (body : list Action) (v : item) (te tc td extra : nat) :
  let go cb := start (observed Generator cb (LUser te) (LUser tc) (LUser td)) in
  let pr := start (observed_promise (Promise_settled (Fulfilled v))
                     (LUser te) (LUser tc) (LUser td)) in
  let all := map (fun x => Seen te (EvItem x)) xs ++ [Seen td EvDone] in
  (log (go (PArray xs)) = []
   ∧ timers (go (PArray xs)) = map (fun x => TEmit 0 x (HookCancel 0)) xs ++ [TDone 0]
   ∧ log (run (length xs + 1 + extra) (go (PArray xs))) = all)
  ∧ (log (go (PIterator xs)) = []
     ∧ timers (go (PIterator xs)) = map (fun x => TEmit 0 x (HookCancel 0)) xs ++ [TDone 0]
     ∧ log (run (length xs + 1 + extra) (go (PIterator xs))) = all)
  ∧ (log (go (PFunction body)) = []
     ∧ timers (go (PFunction body)) = map (task_of 0) body
     ∧ log (run (length body + extra) (go (PFunction body)))
       = map (seen_of te tc td) body)
  ∧ (log pr = [] ∧ timers pr = []
     ∧ timers (run 1 pr) = [TEmit 0 v HookNoop; TDone 0]
     ∧ log (run (3 + extra) pr) = [Seen te (EvItem v); Seen td EvDone])
  ∧ (∀ cb, single_deferral legacy_Generator cb).
Proof.
  cbv beta zeta. rewrite start_iterator, array_run, function_run, promise_fulfilled_run.
  rewrite start_array, start_function.
  repeat split; try done. apply legacy_single_deferral.
Qed.

(** ** Streams observed by recording listeners *)

Lemma run_user_stream out te tc td c xs w :
  jobs w = [] →
  gens w !! out = Some (mkGen [LUser te] [LUser tc] [LUser td]) →
  timers w = map (fun x => TEmit out x c) xs ++ [TDone out] →
  run (length xs + 1) w
  = with_log (fun l => l ++ map (fun x => Seen te (EvItem x)) xs ++ [Seen td EvDone])
      (with_timers (fun _ => []) w).
Proof.
  intros Hj HG Ht.
  rewrite run_add, (run_items out _ c xs [TDone out] w Hj HG eq_refl Ht).
  rewrite (foldl_dispatch_user _ te) by done.
  rewrite (run_timer 0 _ (TDone out) []) by done.
  cbn [run run_task]. erewrite callback_foldl by exact HG.
  destruct w. unfold with_log, with_timers, record. simpl. by rewrite app_assoc.
Qed.

(** ** Streams in general

    Whatever its producer is, a Generator reaches its listeners through the
    timers that its three handles set.  An [Event] is one call of a handle:
    the Generator it belongs to, and what the listeners of that Generator
    are called with.  A list of events stands for Generators of any
    producers: it is what they do from the moment a combinator subscribes
    to them, in the order in which the timers of the calls expire.  The
    calls are made before the event loop takes over again, so that their
    timers expire before those that the output of the combinator sets:
    in the record, what the listeners of the inputs see comes first. *)
Definition Event : Type := genRef * Args.

(** [emit(x, cancel)], [reject(error)] or [done()] of the Generator [e.1]. *)
Definition call (e : Event) : World → World :=
  match e.2 with
  | ArgsItem x cancel => emit e.1 x cancel
  | ArgsError error => reject e.1 error
  | ArgsNone => done e.1
  end.

(** The producers call their handles. *)
Definition calls (evs : list Event) : M unit :=
  exec (fun w => foldl (fun w e => call e w) w evs).

Definition task_of_event (e : Event) : Task :=
  match e.2 with
  | ArgsItem x cancel => TEmit e.1 x cancel
  | ArgsError error => TCatch e.1 error
  | ArgsNone => TDone e.1
  end.

Lemma calls_timers evs w :
  foldl (fun w e => call e w) w evs
  = with_timers (fun ts => ts ++ map task_of_event evs) w.
Proof.
  revert w. induction evs as [|[g a] evs IH]; intros w.
  - destruct w. unfold with_timers. simpl. by rewrite app_nil_r.
  - cbn [foldl map]. rewrite IH.
    destruct a; destruct w; unfold call, task_of_event, emit, reject, done, setTimeout,
      with_timers; simpl; by rewrite <- app_assoc.
Qed.

(** [K] Generators whose producer functions keep their handles for later
    ([function(done, reject, emit) { handles.push([done, reject, emit]); }]),
    each with a completion listener of the caller; the listeners are
    tagged from [tag] on. *)
Fixpoint construct_streams (tag K : nat) : M (list genRef) :=
  match K with
  | 0 => ret []
  | S K' =>
      do g <~ Generator (PFunction []);
      Generator_done g (LUser tag) ;;
      do gs <~ construct_streams (S tag) K';
      ret (g :: gs)
  end.

(** The items that arrive, in the order of arrival; those of one Generator. *)
Definition arrivals (evs : list Event) : list item :=
  flat_map (fun e => match e.2 with ArgsItem x _ => [x] | _ => [] end) evs.

Definition items_of (g : genRef) (evs : list Event) : list item :=
  arrivals (filter (fun e => e.1 = g) evs).

(** [completes P evs]: the events up to the one with which the last
    Generator of [P] completes, and the events after it; [None] when one
    of them never completes. *)
Fixpoint completes (P : list genRef) (evs : list Event)
    : option (list Event * list Event) :=
  match P with
  | [] => Some ([], evs)
  | _ =>
      match evs with
      | [] => None
      | e :: rest =>
          let P' := match e.2 with
                    | ArgsNone => filter (fun g => g ≠ e.1) P
                    | _ => P
                    end in
          match completes P' rest with
          | Some (pre, post) => Some (e :: pre, post)
          | None => None
          end
      end
  end.

(** What the completion listeners of the inputs record, the listener of
    the Generator [g] being tagged [tags g]. *)
Definition inputs_seen (tags : genRef → nat) (evs : list Event) : list Obs :=
  flat_map (fun e => match e.2 with
                     | ArgsNone => [Seen (tags e.1) EvDone]
                     | _ => []
                     end) evs.

(** The record of an output that emits [em], its completion coming after
    the first [n] of them. *)
Definition completed_after (te td : nat) (em : list item) (n : nat) : list Obs :=
  map (fun y => Seen te (EvItem y)) (take n em)
    ++ [Seen td EvDone]
    ++ map (fun y => Seen te (EvItem y)) (drop n em).

Lemma inputs_seen_no_item tags evs t x : Seen t (EvItem x) ∉ inputs_seen tags evs.
Proof.
  unfold inputs_seen. intros Hin. apply list_elem_of_In, in_flat_map in Hin as (e & _ & He).
  destruct (e.2); [done| done|]. by destruct He.
Qed.

Lemma arrivals_elem_of x evs :
  x ∈ arrivals evs ↔ ∃ g c, (g, ArgsItem x c) ∈ evs.
Proof.
  unfold arrivals. rewrite list_elem_of_In, in_flat_map. split.
  - intros ([g a] & He & Hx). destruct a as [y c|e|]; cbn in Hx; try done.
    destruct Hx as [->|[]]. exists g, c. by apply list_elem_of_In.
  - intros (g & c & He). exists (g, ArgsItem x c). split; [by apply list_elem_of_In|].
    cbn. by left.
Qed.

Lemma items_of_elem_of g x evs :
  x ∈ items_of g evs ↔ ∃ c, (g, ArgsItem x c) ∈ evs.
Proof.
  unfold items_of. rewrite arrivals_elem_of. split.
  - intros (h & c & [<- He]%list_elem_of_filter). by exists c.
  - intros (c & He). exists g, c. by apply list_elem_of_filter.
Qed.

Lemma completes_nil evs : completes [] evs = Some ([], evs).
Proof. by destruct evs. Qed.

Lemma completes_cons P (e : Event) evs :
  P ≠ [] →
  completes P (e :: evs)
  = match completes (match e.2 with
                     | ArgsNone => filter (fun g => g ≠ e.1) P
                     | _ => P
                     end) evs with
    | Some (pre, post) => Some (e :: pre, post)
    | None => None
    end.
Proof. by destruct P. Qed.

Lemma completes_app P evs pre post :
  completes P evs = Some (pre, post) → evs = pre ++ post.
Proof.
  revert P pre post. induction evs as [|e evs IH]; intros P pre post.
  - destruct P; cbn; [by intros [= <- <-]|done].
  - destruct P as [|g P]; [by intros [= <- <-]|]. cbn [completes].
    destruct (completes _ evs) as [[pre' post']|] eqn:E; [|done].
    intros [= <- <-]. cbn [app]. f_equal. by eapply IH.
Qed.

Lemma arrivals_item g x c evs : arrivals ((g, ArgsItem x c) :: evs) = x :: arrivals evs.
Proof. done. Qed.

Lemma arrivals_fault g e evs : arrivals ((g, ArgsError e) :: evs) = arrivals evs.
Proof. done. Qed.

Lemma arrivals_done g evs : arrivals ((g, ArgsNone) :: evs) = arrivals evs.
Proof. done. Qed.

Lemma arrivals_app evs evs' : arrivals (evs ++ evs') = arrivals evs ++ arrivals evs'.
Proof. unfold arrivals. by rewrite flat_map_app. Qed.

(** The timers of a Generator observed by three recording listeners, at
    any place in the heap. *)
Lemma quiet_task_observer gs out te tc td body :
  gs !! out = Some (mkGen [LUser te] [LUser tc] [LUser td]) →
  Forall (quiet_task gs) (map (task_of out) body).
Proof.
  intros Hout. apply Forall_forall. intros t [a [-> _]]%list_elem_of_fmap.
  destruct a; eexists out, _, _, _; done.
Qed.

Lemma foldl_tasks_observer out te tc td body w :
  gens w !! out = Some (mkGen [LUser te] [LUser tc] [LUser td]) →
  foldl (fun w t => run_task t w) w (map (task_of out) body)
  = with_log (fun l => l ++ map (seen_of te tc td) body) w.
Proof.
  revert w. induction body as [|a body IH]; intros w Hg.
  - destruct w. unfold with_log. simpl. by rewrite app_nil_r.
  - cbn [foldl map]. rewrite IH.
    + destruct a; cbn [run_task task_of];
        erewrite callback_foldl by exact Hg;
        destruct w; unfold with_log, record; simpl; by rewrite <- app_assoc.
    + destruct a; cbn [run_task task_of];
        erewrite callback_foldl by exact Hg;
        by rewrite ?invoke_gens.
Qed.

(** Only the timers of an observed Generator are left: they are delivered
    in order, one per turn, and the loop comes to rest. *)
Lemma observer_run out te tc td body w extra :
  jobs w = [] →
  gens w !! out = Some (mkGen [LUser te] [LUser tc] [LUser td]) →
  timers w = map (task_of out) body →
  log (run (length body + extra) w) = log w ++ map (seen_of te tc td) body
  ∧ quiescent (run (length body + extra) w).
Proof.
  intros Hj Hg Ht. rewrite run_add.
  rewrite <- (length_map (task_of out) body).
  rewrite (run_tasks _ []); [|done|by eapply quiet_task_observer|by rewrite app_nil_r].
  rewrite (foldl_tasks_observer out te tc td) by done.
  rewrite run_quiescent; [|by unfold quiescent, step; cbn; rewrite Hj].
  split; [done|]. unfold quiescent, step. cbn. by rewrite Hj.
Qed.

(** ** exclude *)

(** The constructor on an array, from any world. *)
Lemma Generator_array xs w :
  Generator (PArray xs) w
  = (length (gens w),
     mkWorld (gens w ++ [mkGen [] [] []]) (arrays w)
       (envs w ++ [EnvCancel false]) (promises w) (jobs w)
       (timers w ++ map (fun x => TEmit (length (gens w)) x (HookCancel (length (envs w)))) xs
          ++ [TDone (length (gens w))])
       (log w)).
Proof.
  unfold Generator, Generator_with, bind. cbn.
  rewrite emit_all_timers. unfold done, setTimeout, with_timers. cbn.
  by rewrite <- app_assoc.
Qed.

(** [big = new Generator(A); small = new Generator(B)], a completion
    listener on each, then [exclude(big, small, comparator)] observed by
    recording listeners. *)
Definition exclude_program (A B : list item)
    (comparator : option (item → item → bool)) (ta tb te tc td : nat) : M genRef :=
  do big <~ Generator (PArray A);
  Generator_done big (LUser ta) ;;
  do small <~ Generator (PArray B);
  Generator_done small (LUser tb) ;;
  do out <~ Generator_exclude big small comparator;
  Generator_emit out (LUser te) ;;
  Generator_catch out (LUser tc) ;;
  Generator_done out (LUser td) ;;
  ret out.

(** The items of [A] that no item of [B] matches, in the order of [A]. *)
Definition excluded (comparator : item → item → bool) (A B : list item) : list item :=
  List.filter (fun a => negb (existsb (fun b => comparator a b) B)) A.

Lemma skip_scan_existsb comparator a B :
  skip_scan comparator a B = existsb (fun b => comparator a b) B.
Proof.
  induction B as [|b B IH]; simpl; [done|]. rewrite IH. by destruct (comparator a b).
Qed.

Lemma exclude_loop_timers comparator out A B w :
  exclude_loop comparator out A B w
  = with_timers (fun ts => ts ++ map (fun x => TEmit out x HookNone)
                                   (excluded comparator A B)) w.
Proof.
  revert w. induction A as [|a A IH]; intros w.
  - destruct w. unfold with_timers. simpl. by rewrite app_nil_r.
  - cbn [exclude_loop excluded List.filter]. rewrite IH, skip_scan_existsb.
    destruct (existsb _ B); cbn [negb]; [done|].
    destruct w. unfold emit, setTimeout, with_timers. simpl.
    by rewrite <- app_assoc.
Qed.

Lemma start_exclude A B comparator ta tb te tc td :
  start (exclude_program A B comparator ta tb te tc td)
  = mkWorld
      [mkGen [LThenPush 2] [] [LUser ta; LThenDone 2 (CbSetItemsA 2) 0];
       mkGen [LThenPush 3] [] [LUser tb; LThenDone 3 (CbSetItemsB 2) 1];
       mkGen [LUser te] [LUser tc] [LUser td]]
      [[]; []; []; []]
      [EnvCancel false; EnvCancel false; EnvExclude 0 1]
      [mkPromise None [RAllElem 2] 0; mkPromise None [RAllElem 2] 0;
       mkPromise None [RExcludeJoin 2 (match comparator with
                                       | Some c => c
                                       | None => strict_equals
                                       end) 2] 2]
      []
      ((map (fun x => TEmit 0 x (HookCancel 0)) A ++ [TDone 0])
         ++ map (fun x => TEmit 1 x (HookCancel 1)) B ++ [TDone 1])
      [].
Proof.
  unfold start, exclude_program, bind.
  unfold Generator_done, Generator_emit, Generator_catch, exec, ret.
  rewrite Generator_array. cbn beta iota.
  rewrite Generator_array. reflexivity.
Qed.

Lemma exclude_run A B comparator ta tb te tc td extra :
  let cmp := match comparator with Some c => c | None => strict_equals end in
  run (length A + (2 + (length B + (3 + (length (excluded cmp A B) + 1 + extra)))))
    (start (exclude_program A B comparator ta tb te tc td))
  = mkWorld
      [mkGen [LThenPush 2] [] [LUser ta; LThenDone 2 (CbSetItemsA 2) 0];
       mkGen [LThenPush 3] [] [LUser tb; LThenDone 3 (CbSetItemsB 2) 1];
       mkGen [LUser te] [LUser tc] [LUser td]]
      [[]; []; A; B]
      [EnvCancel false; EnvCancel false; EnvExclude 2 3]
      [mkPromise (Some (Fulfilled undefined)) [] 0;
       mkPromise (Some (Fulfilled undefined)) [] 0;
       mkPromise (Some (Fulfilled undefined)) [] 0]
      [] []
      ([Seen ta EvDone; Seen tb EvDone]
         ++ map (fun x => Seen te (EvItem x)) (excluded cmp A B) ++ [Seen td EvDone]).
Proof.
  intros cmp. rewrite start_exclude, <- app_assoc. fold cmp.
  rewrite run_add.
  rewrite (run_items 0 (mkGen [LThenPush 2] [] [LUser ta; LThenDone 2 (CbSetItemsA 2) 0])
             (HookCancel 0) A
             (TDone 0 :: map (fun x => TEmit 1 x (HookCancel 1)) B ++ [TDone 1]))
    by reflexivity.
  rewrite (foldl_dispatch_push _ 2) by reflexivity.
  rewrite run_add. turns 2.
  rewrite run_add.
  rewrite (run_items 1 (mkGen [LThenPush 3] [] [LUser tb; LThenDone 3 (CbSetItemsB 2) 1])
             (HookCancel 1) B [TDone 1])
    by reflexivity.
  rewrite (foldl_dispatch_push _ 3) by reflexivity.
  rewrite run_add. turns 3.
  rewrite exclude_loop_timers.
  rewrite run_add.
  rewrite (run_user_stream 2 te tc td HookNone (excluded cmp A B)) by reflexivity.
  by apply run_quiescent.
Qed.

(** The moment both inputs have completed: nothing has been emitted, and
    no timer is set; the loop over the collected items is the one promise
    job left. *)
Lemma exclude_run_join A B comparator ta tb te tc td :
  let cmp := match comparator with Some c => c | None => strict_equals end in
  let w := run (length A + (2 + (length B + 2)))
             (start (exclude_program A B comparator ta tb te tc td)) in
  log w = [Seen ta EvDone; Seen tb EvDone]
  ∧ timers w = []
  ∧ jobs w = [JReact (RExcludeJoin 2 cmp 2) (Fulfilled undefined)].
Proof.
  intros cmp. cbv zeta. rewrite start_exclude, <- app_assoc. fold cmp.
  rewrite run_add.
  rewrite (run_items 0 (mkGen [LThenPush 2] [] [LUser ta; LThenDone 2 (CbSetItemsA 2) 0])
             (HookCancel 0) A
             (TDone 0 :: map (fun x => TEmit 1 x (HookCancel 1)) B ++ [TDone 1]))
    by reflexivity.
  rewrite (foldl_dispatch_push _ 2) by reflexivity.
  rewrite run_add. turns 2.
  rewrite run_add.
  rewrite (run_items 1 (mkGen [LThenPush 3] [] [LUser tb; LThenDone 3 (CbSetItemsB 2) 1])
             (HookCancel 1) B [TDone 1])
    by reflexivity.
  rewrite (foldl_dispatch_push _ 3) by reflexivity.
  turns 2. done.
Qed.

(** *** exclude over streams in general *)

(** Two Generators of any producers, a completion listener on each, and
    [exclude] over them, observed by recording listeners. *)
Definition exclude_observed
    (comparator : option (item → item → bool)) (ta tb te tc td : nat) : M genRef :=
  do big <~ Generator (PFunction []);
  Generator_done big (LUser ta) ;;
  do small <~ Generator (PFunction []);
  Generator_done small (LUser tb) ;;
  do out <~ Generator_exclude big small comparator;
  Generator_emit out (LUser te) ;;
  Generator_catch out (LUser tc) ;;
  Generator_done out (LUser td) ;;
  ret out.

(** After that the producers call their handles, in the order [evs]. *)
Definition exclude_streams (evs : list Event)
    (comparator : option (item → item → bool)) (ta tb te tc td : nat) : M genRef :=
  do out <~ exclude_observed comparator ta tb te tc td;
  calls evs ;;
  ret out.

(** The heap of [exclude_streams] while its inputs are at work: [a] and
    [b] are the items collected so far, [dA] and [dB] tell which input has
    completed. *)
Definition exclude_world (cmp : item → item → bool) (ta tb te tc td : nat)
    (a b : list item) (dA dB : bool) (ts : list Task) (lg : list Obs) : World :=
  mkWorld
    [mkGen [LThenPush 2] [] [LUser ta; LThenDone 2 (CbSetItemsA 0) 0];
     mkGen [LThenPush 3] [] [LUser tb; LThenDone 3 (CbSetItemsB 0) 1];
     mkGen [LUser te] [LUser tc] [LUser td]]
    [[]; []; a; b]
    [EnvExclude (if dA then 2 else 0) (if dB then 3 else 1)]
    [(if dA then mkPromise (Some (Fulfilled undefined)) [] 0
      else mkPromise None [RAllElem 2] 0);
     (if dB then mkPromise (Some (Fulfilled undefined)) [] 0
      else mkPromise None [RAllElem 2] 0);
     (if dA && dB then mkPromise (Some (Fulfilled undefined)) [] 0
      else mkPromise None [RExcludeJoin 0 cmp 2] (if dA || dB then 1 else 2))]
    [] ts lg.

Lemma start_exclude_streams evs comparator ta tb te tc td :
  start (exclude_streams evs comparator ta tb te tc td)
  = exclude_world (match comparator with Some c => c | None => strict_equals end)
      ta tb te tc td [] [] false false (map task_of_event evs) [].
Proof.
  unfold start, exclude_streams, calls, bind, exec, ret.
  change (exclude_observed comparator ta tb te tc td empty_world)
    with (2, exclude_world (match comparator with Some c => c | None => strict_equals end)
               ta tb te tc td [] [] false false [] []).
  cbn beta iota. rewrite calls_timers. reflexivity.
Qed.

Section ExcludeSteps.

Context (cmp : item → item → bool) (ta tb te tc td : nat).
#[local] Notation "'W'" := (exclude_world cmp ta tb te tc td).

Lemma exclude_item_big a b dA dB x c ts lg :
  run 1 (W a b dA dB (TEmit 0 x c :: ts) lg) = W (a ++ [x]) b dA dB ts lg.
Proof. reflexivity. Qed.

Lemma exclude_item_small a b dA dB x c ts lg :
  run 1 (W a b dA dB (TEmit 1 x c :: ts) lg) = W a (b ++ [x]) dA dB ts lg.
Proof. reflexivity. Qed.

Lemma exclude_fault_big a b dA dB e ts lg :
  run 1 (W a b dA dB (TCatch 0 e :: ts) lg) = W a b dA dB ts lg.
Proof. reflexivity. Qed.

Lemma exclude_fault_small a b dA dB e ts lg :
  run 1 (W a b dA dB (TCatch 1 e :: ts) lg) = W a b dA dB ts lg.
Proof. reflexivity. Qed.

Lemma exclude_done_big_first a b ts lg :
  run 2 (W a b false false (TDone 0 :: ts) lg)
  = W a b true false ts (lg ++ [Seen ta EvDone]).
Proof. reflexivity. Qed.

Lemma exclude_done_small_first a b ts lg :
  run 2 (W a b false false (TDone 1 :: ts) lg)
  = W a b false true ts (lg ++ [Seen tb EvDone]).
Proof. reflexivity. Qed.

Lemma exclude_done_big_again a b dB ts lg :
  run 1 (W a b true dB (TDone 0 :: ts) lg)
  = W a b true dB ts (lg ++ [Seen ta EvDone]).
Proof. reflexivity. Qed.

Lemma exclude_done_small_again a b dA ts lg :
  run 1 (W a b dA true (TDone 1 :: ts) lg)
  = W a b dA true ts (lg ++ [Seen tb EvDone]).
Proof. reflexivity. Qed.

(** The completion that is the second of the two: the join. *)
Lemma exclude_done_big_join a b ts lg :
  run 3 (W a b false true (TDone 0 :: ts) lg)
  = W a b true true
      (ts ++ map (task_of 2) (map ActEmit (excluded cmp a b) ++ [ActDone]))
      (lg ++ [Seen ta EvDone]).
Proof.
  transitivity (done 2 (exclude_loop cmp 2 a b
                          (W a b true true ts (lg ++ [Seen ta EvDone]))));
    [reflexivity|].
  rewrite exclude_loop_timers. unfold exclude_world, done, setTimeout. wcbn.
  rewrite map_app, map_map, <- app_assoc. reflexivity.
Qed.

Lemma exclude_done_small_join a b ts lg :
  run 3 (W a b true false (TDone 1 :: ts) lg)
  = W a b true true
      (ts ++ map (task_of 2) (map ActEmit (excluded cmp a b) ++ [ActDone]))
      (lg ++ [Seen tb EvDone]).
Proof.
  transitivity (done 2 (exclude_loop cmp 2 a b
                          (W a b true true ts (lg ++ [Seen tb EvDone]))));
    [reflexivity|].
  rewrite exclude_loop_timers. unfold exclude_world, done, setTimeout. wcbn.
  rewrite map_app, map_map, <- app_assoc. reflexivity.
Qed.

End ExcludeSteps.

(** What [exclude] asks its output to deliver, event by event: nothing
    but at the completion that is the second of the two. *)
Fixpoint exclude_calls (cmp : item → item → bool) (a b : list item) (dA dB : bool)
    (evs : list Event) : list Action :=
  match evs with
  | [] => []
  | (0, ArgsItem x _) :: rest => exclude_calls cmp (a ++ [x]) b dA dB rest
  | (_, ArgsItem x _) :: rest => exclude_calls cmp a (b ++ [x]) dA dB rest
  | (_, ArgsError _) :: rest => exclude_calls cmp a b dA dB rest
  | (0, ArgsNone) :: rest =>
      (if negb dA && dB then map ActEmit (excluded cmp a b) ++ [ActDone] else [])
        ++ exclude_calls cmp a b true dB rest
  | (_, ArgsNone) :: rest =>
      (if dA && negb dB then map ActEmit (excluded cmp a b) ++ [ActDone] else [])
        ++ exclude_calls cmp a b dA true rest
  end.

Definition exclude_tags (ta tb : nat) (g : genRef) : nat :=
  match g with
  | 0 => ta
  | _ => tb
  end.

Lemma exclude_calls_joined cmp a b evs :
  Forall (fun e : Event => e.1 < 2) evs → exclude_calls cmp a b true true evs = [].
Proof.
  revert a b. induction evs as [|[g args] evs IH]; intros a b Hin; [done|].
  apply Forall_cons in Hin as [Hg Hin]. cbn [fst] in Hg.
  destruct g as [|[|g]]; [| |lia]; destruct args; cbn [exclude_calls negb andb app];
    by apply IH.
Qed.

Lemma excluded_length cmp a b : length (excluded cmp a b) ≤ length a.
Proof. unfold excluded. induction a as [|x a IH]; simpl; [done|]. destruct (negb _); simpl; lia. Qed.

Lemma exclude_calls_length cmp evs : ∀ a b dA dB,
  Forall (fun e : Event => e.1 < 2) evs →
  length (exclude_calls cmp a b dA dB evs) ≤ length a + length evs.
Proof.
  induction evs as [|[g args] evs IH]; intros a b dA dB Hin; [cbn; lia|].
  apply Forall_cons in Hin as [Hg Hin]. cbn [fst] in Hg.
  destruct g as [|[|g]]; [| |lia]; destruct args; cbn [exclude_calls length].
  - specialize (IH (a ++ [x]) b dA dB Hin). rewrite length_app in IH. cbn in IH. lia.
  - specialize (IH a b dA dB Hin). lia.
  - destruct dA, dB; cbn [negb andb app];
      try (specialize (IH a b true true Hin); lia);
      try (specialize (IH a b true false Hin); lia).
    rewrite exclude_calls_joined by done.
    rewrite !length_app, length_map. cbn. pose proof (excluded_length cmp a b). lia.
  - specialize (IH a (b ++ [x]) dA dB Hin). lia.
  - specialize (IH a b dA dB Hin). lia.
  - destruct dA, dB; cbn [negb andb app];
      try (specialize (IH a b true true Hin); lia);
      try (specialize (IH a b false true Hin); lia).
    rewrite exclude_calls_joined by done.
    rewrite !length_app, length_map. cbn. pose proof (excluded_length cmp a b). lia.
Qed.

(** The run of [exclude] over any events of its two inputs: the events
    are dispatched one by one, a completion taking a promise job or two
    more; the calls of the output's handles queue up behind them and are
    delivered when the inputs have no event left. *)
Lemma exclude_events cmp ta tb te tc td evs : ∀ a b dA dB outq lg,
  Forall (fun e : Event => e.1 < 2) evs →
  ∃ n, n ≤ 3 * length evs + length outq + length (exclude_calls cmp a b dA dB evs)
       ∧ ∀ extra,
           let w := run (n + extra)
                      (exclude_world cmp ta tb te tc td a b dA dB
                         (map task_of_event evs ++ map (task_of 2) outq) lg) in
           log w = lg ++ inputs_seen (exclude_tags ta tb) evs
                      ++ map (seen_of te tc td) (outq ++ exclude_calls cmp a b dA dB evs)
           ∧ quiescent w.
Proof.
  induction evs as [|[g args] evs IH]; intros a b dA dB outq lg Hin.
  - exists (length outq). split; [cbn; lia|]. intros extra. cbn [map app exclude_calls inputs_seen flat_map].
    rewrite app_nil_r.
    apply (observer_run 2 te tc td outq); reflexivity.
  - apply Forall_cons in Hin as [Hg Hin]. cbn [fst] in Hg.
    assert (∀ k a' b' dA' dB' outq' lg' seen calls,
              (∀ ts, run k (exclude_world cmp ta tb te tc td a b dA dB
                              (task_of_event (g, args) :: ts) lg)
                     = exclude_world cmp ta tb te tc td a' b' dA' dB'
                         (ts ++ map (task_of 2) calls) lg') →
              k ≤ 3 →
              outq' = outq ++ calls →
              lg' = lg ++ seen →
              inputs_seen (exclude_tags ta tb) ((g, args) :: evs)
              = seen ++ inputs_seen (exclude_tags ta tb) evs →
              exclude_calls cmp a b dA dB ((g, args) :: evs)
              = calls ++ exclude_calls cmp a' b' dA' dB' evs →
              ∃ n, n ≤ 3 * length ((g, args) :: evs) + length outq
                       + length (exclude_calls cmp a b dA dB ((g, args) :: evs))
                   ∧ ∀ extra,
                       let w := run (n + extra)
                                  (exclude_world cmp ta tb te tc td a b dA dB
                                     (map task_of_event ((g, args) :: evs)
                                        ++ map (task_of 2) outq) lg) in
                       log w = lg ++ inputs_seen (exclude_tags ta tb) ((g, args) :: evs)
                                  ++ map (seen_of te tc td)
                                       (outq ++ exclude_calls cmp a b dA dB ((g, args) :: evs))
                       ∧ quiescent w) as Hstep.
    { intros k a' b' dA' dB' outq' lg' seen calls Hrun Hk -> -> Hseen Hcalls.
      destruct (IH a' b' dA' dB' (outq ++ calls) (lg ++ seen) Hin) as (n & Hn & Hgo).
      exists (k + n). split.
      { rewrite Hcalls. rewrite !length_app in *. cbn [length]. unfold Event, genRef in *. lia. }
      intros extra. cbv zeta. rewrite <- Nat.add_assoc, run_add.
      cbn [map app]. rewrite Hrun.
      rewrite <- app_assoc, <- map_app.
      destruct (Hgo extra) as [Hlog Hq]. split; [|exact Hq].
      rewrite Hlog, Hseen, Hcalls. by rewrite <- !app_assoc. }
    destruct g as [|[|g]]; [| |lia]; destruct args as [x c|e|].
    + apply (Hstep 1 (a ++ [x]) b dA dB outq lg [] []);
        [|lia|by rewrite app_nil_r..|reflexivity|reflexivity].
      intros ts. rewrite app_nil_r. apply exclude_item_big.
    + apply (Hstep 1 a b dA dB outq lg [] []);
        [|lia|by rewrite app_nil_r..|reflexivity|reflexivity].
      intros ts. rewrite app_nil_r. apply exclude_fault_big.
    + destruct dA.
      * apply (Hstep 1 a b true dB outq (lg ++ [Seen ta EvDone]) [Seen ta EvDone] []);
          [|lia|by rewrite app_nil_r|reflexivity..].
        intros ts. rewrite app_nil_r. apply exclude_done_big_again.
      * destruct dB.
        -- apply (Hstep 3 a b true true
                    (outq ++ map ActEmit (excluded cmp a b) ++ [ActDone])
                    (lg ++ [Seen ta EvDone]) [Seen ta EvDone]
                    (map ActEmit (excluded cmp a b) ++ [ActDone]));
             [|lia|reflexivity..].
           intros ts. apply exclude_done_big_join.
        -- apply (Hstep 2 a b true false outq (lg ++ [Seen ta EvDone]) [Seen ta EvDone] []);
             [|lia|by rewrite app_nil_r|reflexivity..].
           intros ts. rewrite app_nil_r. apply exclude_done_big_first.
    + apply (Hstep 1 a (b ++ [x]) dA dB outq lg [] []);
        [|lia|by rewrite app_nil_r..|reflexivity|reflexivity].
      intros ts. rewrite app_nil_r. apply exclude_item_small.
    + apply (Hstep 1 a b dA dB outq lg [] []);
        [|lia|by rewrite app_nil_r..|reflexivity|reflexivity].
      intros ts. rewrite app_nil_r. apply exclude_fault_small.
    + destruct dB.
      * apply (Hstep 1 a b dA true outq (lg ++ [Seen tb EvDone]) [Seen tb EvDone] []);
          [|lia|by rewrite app_nil_r|reflexivity|reflexivity|].
        -- intros ts. rewrite app_nil_r. apply exclude_done_small_again.
        -- cbn [exclude_calls negb]. by rewrite andb_false_r.
      * destruct dA.
        -- apply (Hstep 3 a b true true
                    (outq ++ map ActEmit (excluded cmp a b) ++ [ActDone])
                    (lg ++ [Seen tb EvDone]) [Seen tb EvDone]
                    (map ActEmit (excluded cmp a b) ++ [ActDone]));
             [|lia|reflexivity..].
           intros ts. apply exclude_done_small_join.
        -- apply (Hstep 2 a b false true outq (lg ++ [Seen tb EvDone]) [Seen tb EvDone] []);
             [|lia|by rewrite app_nil_r|reflexivity..].
           intros ts. rewrite app_nil_r. apply exclude_done_small_first.
Qed.

Lemma items_of_cons g (e : Event) evs :
  items_of g (e :: evs)
  = (if decide (e.1 = g) then match e.2 with ArgsItem x _ => [x] | _ => [] end else [])
      ++ items_of g evs.
Proof.
  unfold items_of, arrivals. rewrite filter_cons.
  destruct (decide (e.1 = g)); [|done]. cbn [flat_map]. done.
Qed.

(** The inputs that have not completed. *)
Definition pending2 (dA dB : bool) : list genRef :=
  (if dA then [] else [0]) ++ (if dB then [] else [1]).

(** [exclude] calls the handles of its output once both inputs have
    completed, with what they had emitted by then; if one of them never
    completes it calls none. *)
Lemma exclude_calls_completes cmp evs : ∀ a b dA dB,
  Forall (fun e : Event => e.1 < 2) evs →
  dA && dB = false →
  exclude_calls cmp a b dA dB evs
  = match completes (pending2 dA dB) evs with
    | Some (pre, _) =>
        map ActEmit (excluded cmp (a ++ items_of 0 pre) (b ++ items_of 1 pre)) ++ [ActDone]
    | None => []
    end.
Proof.
  induction evs as [|[g args] evs IH]; intros a b dA dB Hin Hd.
  - by destruct dA, dB.
  - apply Forall_cons in Hin as [Hg Hin]. cbn [fst] in Hg.
    assert (∀ P a' b',
              P ≠ [] →
              (∀ pre, a ++ items_of 0 ((g, args) :: pre) = a' ++ items_of 0 pre) →
              (∀ pre, b ++ items_of 1 ((g, args) :: pre) = b' ++ items_of 1 pre) →
              match completes P evs with
              | Some (pre, _) =>
                  map ActEmit (excluded cmp (a' ++ items_of 0 pre) (b' ++ items_of 1 pre))
                    ++ [ActDone]
              | None => []
              end
              = match match completes P evs with
                      | Some (pre, post) => Some ((g, args) :: pre, post)
                      | None => None
                      end with
                | Some (pre, _) =>
                    map ActEmit (excluded cmp (a ++ items_of 0 pre) (b ++ items_of 1 pre))
                      ++ [ActDone]
                | None => []
                end) as Hshift.
    { intros P a' b' _ Ha Hb. destruct (completes P evs) as [[pre post]|]; [|done].
      by rewrite Ha, Hb. }
    assert (∀ pre h x c, h ≠ 0 →
              a ++ items_of 0 ((h, ArgsItem x c) :: pre) = a ++ items_of 0 pre) as HA0.
    { intros. rewrite items_of_cons. cbn [fst]. by rewrite decide_False. }
    assert (∀ pre h x c, h ≠ 1 →
              b ++ items_of 1 ((h, ArgsItem x c) :: pre) = b ++ items_of 1 pre) as HB0.
    { intros. rewrite items_of_cons. cbn [fst]. by rewrite decide_False. }
    assert (∀ pre x c,
              a ++ items_of 0 ((0, ArgsItem x c) :: pre) = (a ++ [x]) ++ items_of 0 pre) as HA1.
    { intros. rewrite items_of_cons. cbn [fst snd]. rewrite decide_True by done.
      by rewrite <- app_assoc. }
    assert (∀ pre x c,
              b ++ items_of 1 ((1, ArgsItem x c) :: pre) = (b ++ [x]) ++ items_of 1 pre) as HB1.
    { intros. rewrite items_of_cons. cbn [fst snd]. rewrite decide_True by done.
      by rewrite <- app_assoc. }
    assert (∀ (l : list item) i pre h e,
              l ++ items_of i ((h, ArgsError e) :: pre) = l ++ items_of i pre) as HE.
    { intros. rewrite items_of_cons. cbn [snd]. by destruct (decide _). }
    assert (∀ (l : list item) i pre h,
              l ++ items_of i ((h, ArgsNone) :: pre) = l ++ items_of i pre) as HN.
    { intros. rewrite items_of_cons. cbn [snd]. by destruct (decide _). }
    assert (∀ (l : list item) i h, l ++ items_of i [(h, ArgsNone)] = l) as HN1.
    { intros. rewrite HN. unfold items_of. cbn. apply app_nil_r. }
    destruct g as [|[|g]]; [| |lia]; destruct args as [x c|e|];
      destruct dA, dB; try done;
      cbn [exclude_calls negb andb app];
      rewrite ?exclude_calls_joined by done;
      rewrite ?IH by done;
      cbn [pending2 app completes snd fst filter list_filter];
      rewrite ?(decide_True (P := 1 ≠ 0)), ?(decide_True (P := 0 ≠ 1)),
        ?(decide_False (P := 0 ≠ 0)), ?(decide_False (P := 1 ≠ 1)) by lia;
      rewrite ?completes_nil;
      rewrite ?app_nil_r;
      try (by rewrite ?HN1);
      apply Hshift; try done; intros pre; rewrite ?HE, ?HN; try done;
      first [apply HA1|apply HB1|apply HA0; lia|apply HB0; lia].
Qed.

(** What is left of [A] when [===] finds nothing equal in [B]: an item that
    is no element of [B], and [NaN] whatever [B] holds. *)
Definition unmatched (A B : list item) : list item :=
  filter (fun a => a = NaN ∨ a ∉ B) A.

Lemma existsb_strict_equals a B :
  existsb (fun b => strict_equals a b) B = bool_decide (a ≠ NaN ∧ a ∈ B).
Proof.
  induction B as [|b B IH].
  - cbn [existsb]. symmetry. apply bool_decide_eq_false_2. intros [_ H].
    by apply elem_of_nil in H.
  - cbn [existsb]. rewrite IH. unfold strict_equals.
    destruct (decide (a = NaN)) as [Hnan|Hnum].
    + rewrite (bool_decide_eq_true_2 (a = NaN)) by done. rewrite andb_false_r.
      cbn [orb]. apply bool_decide_ext. intuition.
    + rewrite (bool_decide_eq_false_2 (a = NaN)) by done. rewrite andb_true_r.
      destruct (decide (a = b)) as [->|Hne].
      * rewrite bool_decide_eq_true_2 by done. cbn [orb].
        symmetry. apply bool_decide_eq_true_2. split; [done|left].
      * rewrite (bool_decide_eq_false_2 (a = b)) by done. cbn [orb].
        apply bool_decide_ext. rewrite elem_of_cons. intuition.
Qed.

Lemma excluded_strict_equals A B :
  excluded strict_equals A B = unmatched A B.
Proof.
  unfold unmatched. induction A as [|a A IH]; [done|].
  cbn [excluded List.filter]. fold (excluded strict_equals A B).
  rewrite IH, existsb_strict_equals, filter_cons.
  destruct (decide (a = NaN ∨ a ∉ B)) as [Hkeep|Hdrop].
  - rewrite bool_decide_eq_false_2; [done|]. intros [Hnum Hin]. by destruct Hkeep.
  - rewrite bool_decide_eq_true_2; [done|]. split.
    + intros ->. apply Hdrop. by left.
    + destruct (decide (a ∈ B)) as [|Hout]; [done|]. destruct Hdrop. by right.
Qed.

(** C6. [exclude] emits nothing before both inputs have completed, then
    emits, in the order of the first input, exactly the items of the first
    input that no item of the second matches under the comparator, and
    completes once after them.

    For the Generators of any arrays [A] and [B]: when the second
    completion has been delivered no timer is set and nothing but the two
    completions has been recorded; at rest the record holds after them the
    unmatched items of [A] and one completion.  When the comparator is left
    out the items are compared with [===]: the items emitted are those of
    [A] that are no element of [B], and every [NaN] of [A].

    For Generators of any producers, whose handles are called in any order
    [evs]: as long as one of the two has not completed nothing is emitted,
    whatever else happens; once the second has completed, the unmatched
    items among those the first had emitted by then are emitted, then one
    completion, and nothing after that. *)
Theorem C6_exclude_emits_unmatched_items_after_both_complete
    (A B : list item) (evs : list Event) (comparator : option (item → item → bool))
    (ta tb te tc td extra : nat) :
  Forall (fun e : Event => e.1 < 2) evs →
  let cmp := match comparator with Some c => c | None => strict_equals end in
  let w0 := start (exclude_program A B comparator ta tb te tc td) in
  let joined := run (length A + length B + 4) w0 in
  let w := run (length A + length B + length (excluded cmp A B) + 6 + extra) w0 in
  let wd := run (length A + length B + length (unmatched A B) + 6 + extra)
              (start (exclude_program A B None ta tb te tc td)) in
  let ws := run (4 * length evs + extra)
              (start (exclude_streams evs comparator ta tb te tc td)) in
  (log joined = [Seen ta EvDone; Seen tb EvDone] ∧ timers joined = [])
  ∧ (log w = [Seen ta EvDone; Seen tb EvDone]
             ++ map (fun x => Seen te (EvItem x)) (excluded cmp A B)
             ++ [Seen td EvDone]
     ∧ quiescent w)
  ∧ (log wd = [Seen ta EvDone; Seen tb EvDone]
              ++ map (fun x => Seen te (EvItem x)) (unmatched A B)
              ++ [Seen td EvDone]
     ∧ quiescent wd)
  ∧ (log ws = inputs_seen (exclude_tags ta tb) evs
              ++ match completes [0; 1] evs with
                 | Some (pre, _) =>
                     map (fun x => Seen te (EvItem x))
                       (excluded cmp (items_of 0 pre) (items_of 1 pre))
                     ++ [Seen td EvDone]
                 | None => []
                 end
     ∧ quiescent ws).
Proof.
  intros Hin cmp w0 joined w wd ws. split; [|split; [|split]].
  - unfold joined, w0.
    replace (length A + length B + 4) with (length A + (2 + (length B + 2))) by lia.
    destruct (exclude_run_join A B comparator ta tb te tc td) as (? & ? & _). done.
  - unfold w, w0.
    replace (length A + length B + length (excluded cmp A B) + 6 + extra)
      with (length A + (2 + (length B + (3 + (length (excluded cmp A B) + 1 + extra)))))
      by lia.
    unfold cmp. rewrite exclude_run. done.
  - unfold wd. rewrite <- excluded_strict_equals.
    replace (length A + length B + length (excluded strict_equals A B) + 6 + extra)
      with (length A + (2 + (length B + (3 + (length (excluded strict_equals A B) + 1
                                                 + extra))))) by lia.
    rewrite (exclude_run A B None). done.
  - unfold ws. rewrite start_exclude_streams. fold cmp.
    destruct (exclude_events cmp ta tb te tc td evs [] [] false false [] [] Hin)
      as (n & Hn & Hgo).
    pose proof (exclude_calls_length cmp evs [] [] false false Hin) as Hlen.
    cbn [length] in Hn, Hlen.
    replace (4 * length evs + extra) with (n + (4 * length evs - n + extra))
      by (unfold Event, genRef in *; lia).
    destruct (Hgo (4 * length evs - n + extra)) as [Hlog Hq].
    cbn [app map] in Hlog, Hq. rewrite app_nil_r in Hlog, Hq. split; [|exact Hq].
    rewrite Hlog. f_equal.
    rewrite (exclude_calls_completes cmp evs [] [] false false Hin eq_refl).
    cbn [pending2 app]. destruct (completes [0; 1] evs) as [[pre post]|]; [|done].
    by rewrite map_app, map_map.
Qed.

(** ** Lists of pending inputs *)

Lemma filter_ne_notin (g : nat) (P : list nat) :
  g ∉ P → filter (fun h => h ≠ g) P = P.
Proof.
  induction P as [|h P IH]; [done|]. intros [Hne Hin]%not_elem_of_cons.
  rewrite filter_cons, decide_True by done. by rewrite IH.
Qed.

Lemma filter_ne_length (g : nat) (P : list nat) :
  NoDup P → g ∈ P → length P = S (length (filter (fun h => h ≠ g) P)).
Proof.
  induction P as [|h P IH]; [by intros _ ?%elem_of_nil|].
  intros [Hh HP]%NoDup_cons Hin. rewrite filter_cons.
  destruct (decide (h = g)) as [->|Hne].
  - rewrite decide_False by (by intros ?). by rewrite filter_ne_notin.
  - rewrite decide_True by done. cbn [length]. f_equal. apply IH; [done|].
    by apply elem_of_cons in Hin as [->|Hin].
Qed.

Lemma filter_ne_singleton (g : nat) (P : list nat) :
  NoDup P → g ∈ P → filter (fun h => h ≠ g) P = [] → P = [g].
Proof.
  intros HP Hin Hnil. pose proof (filter_ne_length g P HP Hin) as Hlen.
  rewrite Hnil in Hlen. destruct P as [|h [|h' P]]; try done.
  by apply list_elem_of_singleton in Hin as ->.
Qed.

Lemma NoDup_fmap_eq {A B} (f : A → B) (l : list A) x y :
  NoDup (map f l) → x ∈ l → y ∈ l → f x = f y → x = y.
Proof.
  induction l as [|a l IH]; [by intros _ ?%elem_of_nil|].
  cbn [map]. intros [Ha Hl]%NoDup_cons Hx Hy Hf.
  apply elem_of_cons in Hx as [->|Hx]; apply elem_of_cons in Hy as [->|Hy]; [done| | |by apply IH].
  - destruct Ha. rewrite Hf. by apply list_elem_of_fmap_2.
  - destruct Ha. rewrite <- Hf. by apply list_elem_of_fmap_2.
Qed.

Lemma NoDup_flat_map_disjoint {A B} (f : A → list B) (l : list A) x y q :
  NoDup (flat_map f l) → x ∈ l → y ∈ l → x ≠ y → q ∈ f x → q ∉ f y.
Proof.
  induction l as [|a l IH]; [by intros _ ?%elem_of_nil|].
  cbn [flat_map]. intros (Ha & Hdisj & Hl)%NoDup_app Hx Hy Hne Hqx Hqy.
  assert (∀ z, z ∈ l → q ∈ f z → q ∈ flat_map f l) as Hin.
  { intros z Hz Hq. apply list_elem_of_In, in_flat_map. exists z.
    split; by apply list_elem_of_In. }
  apply elem_of_cons in Hx as [->|Hx]; apply elem_of_cons in Hy as [->|Hy]; [done| | |].
  - by apply (Hdisj q Hqx), (Hin y).
  - by apply (Hdisj q Hqy), (Hin x).
  - by apply (IH Hl Hx Hy Hne Hqx).
Qed.

(** ** The two intersections: what they have in common

    Both share one [handleEmit] among all inputs; it keeps its state in a
    closure variable, and for every item it is called with it updates that
    state and hands at most one item to [emit].  They differ in the state,
    and in how an input's completion is wired to the promise that is given
    to [Promise.all]: by [done] in intersectByHash, by [then] (which adds a
    collecting item listener) in intersectByComparison. *)

Section Intersection.

Context {St : Type} (inj : St → Env) (stepf : St → item → St * option item).
Context (handleEmit : Listener) (env : envRef) (out : genRef) (all : promRef).
Context (te tc td : nat).

Hypothesis handleEmit_spec : ∀ w st args,
  envs w !! env = Some (inj st) →
  invoke handleEmit args w
  = match (stepf st (arg0 args)).2 with
    | Some y => emit out y HookNone
    | None => id
    end (with_envs (fun l => <[env := inj (stepf st (arg0 args)).1]> l) w).
Hypothesis handleEmit_quiet : quiet handleEmit = true.

(** [handleEmit] over a sequence of items: the final state and the items
    emitted on the way, in order. *)
Fixpoint run_handler (st : St) (xs : list item) : St * list item :=
  match xs with
  | [] => (st, [])
  | x :: rest =>
      let '(st1, o) := stepf st x in
      let '(st2, em) := run_handler st1 rest in
      (st2, match o with Some y => y :: em | None => em end)
  end.

Lemma run_handler_app st xs ys :
  run_handler st (xs ++ ys)
  = ((run_handler (run_handler st xs).1 ys).1,
     (run_handler st xs).2 ++ (run_handler (run_handler st xs).1 ys).2).
Proof.
  revert st. induction xs as [|x xs IH]; intros st; simpl.
  - by destruct (run_handler st ys).
  - destruct (stepf st x) as [st1 o]. rewrite IH.
    destruct (run_handler st1 xs) as [st2 em]. simpl.
    destruct (run_handler st2 ys) as [st3 em']. by destruct o.
Qed.

(** One input of an intersection, as the subscription loop leaves it. *)
Record Input := mkInput {
  in_gen : genRef;
  in_tag : nat;                         (* the caller's completion listener *)
  in_items : list item;
  in_hook : Hook;
  in_prom : promRef;                    (* the promise pushed on handlers *)
  in_then : option (arrRef * promRef)   (* then's array and future, if wired by then *)
}.

Definition input_emits (i : Input) : list Listener :=
  handleEmit :: match in_then i with
                | None => []
                | Some (a, _) => [LThenPush a]
                end.

Definition input_dones (i : Input) : list Listener :=
  [LUser (in_tag i);
   match in_then i with
   | None => LResolve (in_prom i)
   | Some (a, q) => LThenDone a (CbResolve (in_prom i)) q
   end].

Definition input_timers (i : Input) : list Task :=
  map (fun x => TEmit (in_gen i) x (in_hook i)) (in_items i) ++ [TDone (in_gen i)].

Definition input_proms (i : Input) : list promRef :=
  in_prom i :: match in_then i with None => [] | Some (_, q) => [q] end.

Definition ready (ps : list Promise) (gs : list Gen) (i : Input) : Prop :=
  gs !! in_gen i = Some (mkGen (input_emits i) [] (input_dones i))
  ∧ ps !! in_prom i = Some (mkPromise None [RAllElem all] 0)
  ∧ match in_then i with
    | None => True
    | Some (_, q) => ps !! q = Some (mkPromise None [] 0)
    end.

Definition pushes (i : Input) (xs : list item) (arrs : list (list item)) :=
  match in_then i with
  | None => arrs
  | Some (a, _) => alter (fun l => l ++ xs) a arrs
  end.

Lemma pushes_nil i arrs : pushes i [] arrs = arrs.
Proof.
  unfold pushes. destruct (in_then i) as [[a q]|]; [|done].
  apply list_alter_id. intros l. by rewrite app_nil_r.
Qed.

Lemma pushes_cons i x xs arrs :
  pushes i xs (pushes i [x] arrs) = pushes i (x :: xs) arrs.
Proof.
  unfold pushes. destruct (in_then i) as [[a q]|]; [|done].
  rewrite list_alter_alter_eq. apply list_alter_ext; [|done].
  intros l _. simpl. by rewrite <- app_assoc.
Qed.

Lemma dispatch_input_item G i x c w st :
  _registeredEmits G = input_emits i →
  envs w !! env = Some (inj st) →
  dispatch G KEmit (ArgsItem x c) w
  = with_arrays (pushes i [x])
      (with_timers (fun ts => ts ++ map (fun y => TEmit out y HookNone)
                                      (run_handler st [x]).2)
         (with_envs (fun l => <[env := inj (run_handler st [x]).1]> l) w)).
Proof.
  intros HE Henv. unfold dispatch. cbn [registered]. rewrite HE.
  unfold input_emits, pushes. cbn [foldl].
  rewrite (handleEmit_spec _ st) by done. cbn [arg0 run_handler].
  destruct (stepf st x) as [st1 [y|]]; cbn [fst snd];
    destruct (in_then i) as [[a q]|]; cbn [foldl invoke arg0 map];
    destruct w; unfold emit, setTimeout, with_timers, with_arrays, with_envs; simpl;
    by rewrite ?app_nil_r.
Qed.

Lemma foldl_dispatch_input G i c xs w st :
  _registeredEmits G = input_emits i →
  envs w !! env = Some (inj st) →
  foldl (fun w x => dispatch G KEmit (ArgsItem x c) w) w xs
  = with_arrays (pushes i xs)
      (with_timers (fun ts => ts ++ map (fun y => TEmit out y HookNone)
                                      (run_handler st xs).2)
         (with_envs (fun l => <[env := inj (run_handler st xs).1]> l) w)).
Proof.
  intros HE. revert w st. induction xs as [|x xs IH]; intros w st Henv.
  - destruct w; simpl in *. unfold with_arrays, with_timers, with_envs. simpl.
    by rewrite pushes_nil, app_nil_r, list_insert_id.
  - cbn [foldl]. rewrite (dispatch_input_item G i x c w st HE Henv).
    erewrite IH; cycle 1.
    { simpl. apply list_lookup_insert_eq. by eapply lookup_lt_Some. }
    change (x :: xs) with ([x] ++ xs). rewrite run_handler_app.
    destruct w; unfold with_arrays, with_timers, with_envs; simpl.
    rewrite pushes_cons, list_insert_insert_eq, map_app, app_assoc. done.
Qed.

Lemma settle_pending p s rs n w :
  promises w !! p = Some (mkPromise None rs n) →
  settle p s w
  = with_jobs (fun js => js ++ map (fun r => JReact r s) rs)
      (with_promises (fun ps => <[p := mkPromise (Some s) [] n]> ps) w).
Proof. intros H. unfold settle. by rewrite H. Qed.

Lemma input_emits_quiet i : forallb quiet (input_emits i) = true.
Proof.
  unfold input_emits. cbn [forallb]. rewrite handleEmit_quiet.
  by destruct (in_then i) as [[a q]|].
Qed.

(** The completion listener of an input, the promises being as the
    subscription left them: the input's promise is fulfilled (and the
    future of [then], if there is one), one job for [Promise.all] is
    queued. *)
Lemma invoke_input_done i gs arrs es ps ts lg :
  ps !! in_prom i = Some (mkPromise None [RAllElem all] 0) →
  match in_then i with
  | None => True
  | Some (_, q) => ps !! q = Some (mkPromise None [] 0) ∧ q ≠ in_prom i
  end →
  ∃ ps',
    foldl (fun w l => invoke l ArgsNone w) (mkWorld gs arrs es ps [] ts lg) (input_dones i)
    = mkWorld gs arrs es ps' [JReact (RAllElem all) (Fulfilled undefined)] ts
        (lg ++ [Seen (in_tag i) EvDone])
    ∧ length ps' = length ps
    ∧ ∀ q, q ∉ input_proms i → ps' !! q = ps !! q.
Proof.
  intros Hp Hq. unfold input_dones, input_proms.
  destruct (in_then i) as [[a q]|]; cbn [foldl invoke ev_of];
    unfold record, with_log; cbn [gens arrays envs promises jobs timers log].
  - destruct Hq as [Hq Hne]. cbn [apply_cb].
    rewrite (settle_pending (in_prom i) _ [RAllElem all] 0) by exact Hp.
    wcbn. cbn [app map].
    rewrite (settle_pending q _ [] 0); cycle 1.
    { wcbn. by rewrite list_lookup_insert_ne. }
    wcbn. cbn [app map].
    eexists. split; [reflexivity|]. split.
    + by rewrite !length_insert.
    + intros r Hr. rewrite !list_lookup_insert_ne; [done| |]; set_solver.
  - rewrite (settle_pending _ _ [RAllElem all] 0) by exact Hp.
    wcbn. cbn [app map].
    eexists. split; [reflexivity|]. split.
    + by rewrite !length_insert.
    + intros r Hr. rewrite !list_lookup_insert_ne; [done|]. set_solver.
Qed.

(** The job of [Promise.all] for one fulfilled element. *)
Lemma react_all_elem gs arrs es ps ts lg rs n v :
  ps !! all = Some (mkPromise None rs (S n)) →
  react (RAllElem all) (Fulfilled v) (mkWorld gs arrs es ps [] ts lg)
  = match n with
    | 0 => mkWorld gs arrs es
             (<[all := mkPromise (Some (Fulfilled undefined)) [] 0]> ps)
             (map (fun r => JReact r (Fulfilled undefined)) rs) ts lg
    | S _ => mkWorld gs arrs es (<[all := mkPromise None rs n]> ps) [] ts lg
    end.
Proof.
  intros Hall. cbn [react promises]. rewrite Hall.
  destruct n as [|n]; [|reflexivity].
  rewrite (settle_pending _ _ rs 0); cycle 1.
  { wcbn. apply list_lookup_insert_eq. by eapply lookup_lt_Some. }
  wcbn. cbn [app].
  by rewrite list_insert_insert_eq.
Qed.

(** One input from its first item to the job of [Promise.all] that
    follows its completion; [S n] inputs have not completed before, [n]
    are left after. *)
Lemma input_phase i rest gs arrs es ps lg st rs n :
  ready ps gs i →
  es !! env = Some (inj st) →
  ps !! all = Some (mkPromise None rs (S n)) →
  all ∉ input_proms i →
  NoDup (input_proms i) →
  ∃ arrs' ps',
    run (length (in_items i) + 2)
      (mkWorld gs arrs es ps [] (input_timers i ++ rest) lg)
    = mkWorld gs arrs' (<[env := inj (run_handler st (in_items i)).1]> es) ps'
        (match n with
         | 0 => map (fun r => JReact r (Fulfilled undefined)) rs
         | S _ => []
         end)
        (rest ++ map (fun y => TEmit out y HookNone) (run_handler st (in_items i)).2)
        (lg ++ [Seen (in_tag i) EvDone])
    ∧ length ps' = length ps
    ∧ (∀ q, q ∉ input_proms i → q ≠ all → ps' !! q = ps !! q)
    ∧ ps' !! all = Some (match n with
                         | 0 => mkPromise (Some (Fulfilled undefined)) [] 0
                         | S _ => mkPromise None rs n
                         end).
Proof.
  intros (HG & Hp & Hq) Henv Hall Hnotin Hnd.
  set (G := mkGen (input_emits i) [] (input_dones i)) in *.
  unfold input_timers. rewrite <- app_assoc, run_add.
  rewrite (run_items (in_gen i) G (in_hook i) (in_items i) (TDone (in_gen i) :: rest));
    [|reflexivity|exact HG|apply input_emits_quiet|reflexivity].
  rewrite (foldl_dispatch_input G i _ _ _ st); [|reflexivity|exact Henv].
  wcbn. cbn [app].
  rewrite (run_timer 1 _ (TDone (in_gen i))
             (rest ++ map (fun y => TEmit out y HookNone) (run_handler st (in_items i)).2))
    by reflexivity.
  cbn [run_task]. rewrite (callback_foldl _ _ _ _ G) by exact HG.
  unfold G. cbn [registered _registeredDones]. wcbn.
  edestruct (invoke_input_done i) as (ps1 & Heq & Hlen & Hframe); [exact Hp| |].
  { unfold input_proms in Hnd. destruct (in_then i) as [[a q]|]; [|done].
    split; [done|]. apply NoDup_cons in Hnd as [Hnd _]. set_solver. }
  rewrite Heq. clear Heq.
  rewrite (run_job_first 0 _ (JReact (RAllElem all) (Fulfilled undefined)) []) by reflexivity.
  cbn [run run_job]. wcbn.
  rewrite (react_all_elem _ _ _ _ _ _ rs n) by (by rewrite Hframe).
  assert (all < length ps1) as Hlt.
  { rewrite Hlen. by eapply lookup_lt_Some. }
  destruct n as [|n]; eexists _, _; (split; [reflexivity|]);
    rewrite length_insert; (split; [done|]); split.
  - intros q Hq1 Hq2. rewrite list_lookup_insert_ne by done. by apply Hframe.
  - by apply list_lookup_insert_eq.
  - intros q Hq1 Hq2. rewrite list_lookup_insert_ne by done. by apply Hframe.
  - by apply list_lookup_insert_eq.
Qed.

Lemma ready_frame ps ps' gs i :
  (∀ q, q ∈ input_proms i → ps' !! q = ps !! q) →
  ready ps gs i → ready ps' gs i.
Proof.
  intros Hf (HG & Hp & Hq). unfold ready, input_proms in *.
  split; [done|]. split.
  - rewrite Hf; [done|]. set_solver.
  - destruct (in_then i) as [[a q]|]; [|done]. rewrite Hf; [done|]. set_solver.
Qed.

(** All inputs, one after the other as their timers are queued, then the
    output: the completions of the inputs are recorded first, then the
    items [handleEmit] emitted, in the order it emitted them, then the
    completion of the output. *)
Lemma inputs_run ins : ∀ gs arrs es ps lg st outq extra,
  ins ≠ [] →
  Forall (ready ps gs) ins →
  NoDup (flat_map input_proms ins) →
  all ∉ flat_map input_proms ins →
  es !! env = Some (inj st) →
  ps !! all = Some (mkPromise None [RDone out] (length ins)) →
  gs !! out = Some (mkGen [LUser te] [LUser tc] [LUser td]) →
  let em := (run_handler st (flat_map in_items ins)).2 in
  let w := run (length (flat_map in_items ins) + 2 * length ins
                + (length outq + length em + 2) + extra)
             (mkWorld gs arrs es ps []
                (flat_map input_timers ins ++ map (fun y => TEmit out y HookNone) outq)
                lg) in
  log w = lg ++ map (fun i => Seen (in_tag i) EvDone) ins
             ++ map (fun y => Seen te (EvItem y)) (outq ++ em) ++ [Seen td EvDone]
  ∧ quiescent w.
Proof.
  induction ins as [|i ins IH]; intros gs arrs es ps lg st outq extra
    Hne Hready Hnd Hnotin Henv Hall Hout; [done|].
  apply Forall_cons in Hready as [Hi Hrest].
  cbn [flat_map] in Hnd, Hnotin.
  apply NoDup_app in Hnd as (Hnd_i & Hdisj & Hnd_rest).
  apply not_elem_of_app in Hnotin as [Hnotin_i Hnotin_rest].
  cbn [flat_map length]. cbv zeta.
  rewrite run_handler_app. cbn [fst snd].
  set (st1 := (run_handler st (in_items i)).1).
  set (em_i := (run_handler st (in_items i)).2).
  set (em_rest := (run_handler st1 (flat_map in_items ins)).2).
  destruct ins as [|j ins'].
  - edestruct (input_phase i (map (fun y => TEmit out y HookNone) outq)
                 gs arrs es ps lg st [RDone out] 0)
      as (arrs' & ps' & Hrun & _ & _ & _); [done..|].
    fold st1 em_i in Hrun.
    cbn [flat_map length] in *. unfold em_rest. cbn [run_handler snd].
    rewrite !app_nil_r.
    replace (length (in_items i) + 2 * 1 + (length outq + length em_i + 2) + extra)
      with ((length (in_items i) + 2) + (1 + (length (outq ++ em_i) + 1 + extra)))
      by (rewrite length_app; lia).
    rewrite run_add, Hrun. cbn [map].
    rewrite run_add, (run_job_first 0 _ (JReact (RDone out) (Fulfilled undefined)) [])
      by reflexivity.
    cbn [run run_job react]. unfold done, setTimeout. wcbn.
    rewrite <- map_app, run_add.
    rewrite (run_user_stream out te tc td HookNone (outq ++ em_i)) by done.
    rewrite run_quiescent by reflexivity. wcbn.
    split; [|reflexivity]. by rewrite <- !app_assoc.
  - edestruct (input_phase i
                 (flat_map input_timers (j :: ins') ++ map (fun y => TEmit out y HookNone) outq)
                 gs arrs es ps lg st [RDone out] (S (length ins')))
      as (arrs' & ps' & Hrun & Hlen & Hframe & Hall'); [done..|].
    fold st1 em_i in Hrun.
    rewrite <- app_assoc.
    replace (length (in_items i ++ flat_map in_items (j :: ins')) + 2 * S (length (j :: ins'))
             + (length outq + length (em_i ++ em_rest) + 2) + extra)
      with ((length (in_items i) + 2)
            + (length (flat_map in_items (j :: ins')) + 2 * length (j :: ins')
               + (length (outq ++ em_i) + length em_rest + 2) + extra))
      by (rewrite !length_app; lia).
    rewrite run_add, Hrun. rewrite <- app_assoc, <- map_app.
    edestruct (IH gs arrs' (<[env := inj st1]> es) ps' (lg ++ [Seen (in_tag i) EvDone])
                 st1 (outq ++ em_i) extra) as [Hlog Hq]; [done| | done | done | | done | done |].
    + apply Forall_forall. intros k Hk.
      eapply ready_frame; [|by eapply Forall_forall in Hrest].
      intros q Hqk.
      assert (q ∈ flat_map input_proms (j :: ins')) as Hqin.
      { apply list_elem_of_In, in_flat_map. exists k. split; by apply list_elem_of_In. }
      apply Hframe; [intros Hc; by eapply Hdisj | by intros ->].
    + apply list_lookup_insert_eq. by eapply lookup_lt_Some.
    + fold em_rest in Hlog, Hq. split; [|exact Hq].
      rewrite Hlog. cbn [map]. by rewrite <- !app_assoc.
Qed.

(** *** Inputs of any producers

    The same for inputs whose events come in any order: each event takes a
    turn, the first completion of an input one promise job more, and the
    completion of the last input a second one, in which the done handle of
    the output is called. *)

Definition fulfilled : Promise := mkPromise (Some (Fulfilled undefined)) [] 0.

(** An input as the subscription loop leaves it while its Generator is in
    [P], and with its promises fulfilled once it is not. *)
Definition wired (ps : list Promise) (gs : list Gen) (P : list genRef) (i : Input) : Prop :=
  gs !! in_gen i = Some (mkGen (input_emits i) [] (input_dones i))
  ∧ ps !! in_prom i = Some (if decide (in_gen i ∈ P) then mkPromise None [RAllElem all] 0
                            else fulfilled)
  ∧ match in_then i with
    | None => True
    | Some (_, q) => ps !! q = Some (if decide (in_gen i ∈ P) then mkPromise None [] 0
                                     else fulfilled)
    end.

(** The calls of the output's handles, event by event; [P] are the inputs
    that have not completed. *)
Fixpoint out_calls (st : St) (P : list genRef) (evs : list Event) : list Action :=
  match evs with
  | [] => []
  | (_, ArgsItem x _) :: rest =>
      match (stepf st x).2 with Some y => [ActEmit y] | None => [] end
        ++ out_calls (stepf st x).1 P rest
  | (_, ArgsError _) :: rest => out_calls st P rest
  | (g, ArgsNone) :: rest =>
      (if decide (P = [g]) then [ActDone] else [])
        ++ out_calls st (filter (fun h => h ≠ g) P) rest
  end.

Lemma out_calls_length evs : ∀ st P, length (out_calls st P evs) ≤ length evs.
Proof.
  induction evs as [|[g args] evs IH]; intros st P; [done|].
  destruct args; cbn [out_calls length]; rewrite ?length_app.
  - specialize (IH (stepf st x).1 P). destruct (stepf st x).2; cbn [length]; lia.
  - specialize (IH st P). lia.
  - specialize (IH st (filter (fun h => h ≠ g) P)). destruct (decide _); cbn [length]; lia.
Qed.

Definition settled_proms (i : Input) (ps : list Promise) : list Promise :=
  match in_then i with
  | None => <[in_prom i := fulfilled]> ps
  | Some (_, q) => <[q := fulfilled]> (<[in_prom i := fulfilled]> ps)
  end.

(** The first completion of an input. *)
Lemma invoke_input_done_pending i gs arrs es ps ts lg :
  ps !! in_prom i = Some (mkPromise None [RAllElem all] 0) →
  match in_then i with
  | None => True
  | Some (_, q) => ps !! q = Some (mkPromise None [] 0) ∧ q ≠ in_prom i
  end →
  foldl (fun w l => invoke l ArgsNone w) (mkWorld gs arrs es ps [] ts lg) (input_dones i)
  = mkWorld gs arrs es (settled_proms i ps) [JReact (RAllElem all) (Fulfilled undefined)] ts
      (lg ++ [Seen (in_tag i) EvDone]).
Proof.
  intros Hp Hq. unfold input_dones, settled_proms, fulfilled.
  destruct (in_then i) as [[a q]|]; cbn [foldl invoke ev_of];
    unfold record, with_log; cbn [gens arrays envs promises jobs timers log].
  - destruct Hq as [Hq Hne]. cbn [apply_cb].
    rewrite (settle_pending (in_prom i) _ [RAllElem all] 0) by exact Hp.
    wcbn. cbn [app map].
    rewrite (settle_pending q _ [] 0); cycle 1.
    { wcbn. by rewrite list_lookup_insert_ne. }
    wcbn. cbn [app map]. reflexivity.
  - rewrite (settle_pending _ _ [RAllElem all] 0) by exact Hp.
    wcbn. cbn [app map]. reflexivity.
Qed.

Lemma settle_settled p s s' rs n w :
  promises w !! p = Some (mkPromise (Some s') rs n) → settle p s w = w.
Proof. intros H. unfold settle. by rewrite H. Qed.

(** A completion of an input that has completed before. *)
Lemma invoke_input_done_again i gs arrs es ps ts lg :
  ps !! in_prom i = Some fulfilled →
  match in_then i with
  | None => True
  | Some (_, q) => ps !! q = Some fulfilled
  end →
  foldl (fun w l => invoke l ArgsNone w) (mkWorld gs arrs es ps [] ts lg) (input_dones i)
  = mkWorld gs arrs es ps [] ts (lg ++ [Seen (in_tag i) EvDone]).
Proof.
  intros Hp Hq. unfold input_dones, fulfilled in *.
  destruct (in_then i) as [[a q]|]; cbn [foldl invoke ev_of];
    unfold record, with_log; cbn [gens arrays envs promises jobs timers log].
  - cbn [apply_cb].
    rewrite (settle_settled (in_prom i) _ (Fulfilled undefined) [] 0) by exact Hp.
    rewrite (settle_settled q _ (Fulfilled undefined) [] 0) by exact Hq.
    reflexivity.
  - rewrite (settle_settled (in_prom i) _ (Fulfilled undefined) [] 0) by exact Hp.
    reflexivity.
Qed.

Lemma wired_after_done ins ps ps' gs P i :
  NoDup (map in_gen ins) →
  NoDup (flat_map input_proms ins) →
  i ∈ ins →
  Forall (wired ps gs P) ins →
  (∀ q, q ∈ input_proms i → ps' !! q = Some fulfilled) →
  (∀ q, q ∈ flat_map input_proms ins → q ∉ input_proms i → ps' !! q = ps !! q) →
  Forall (wired ps' gs (filter (fun h => h ≠ in_gen i) P)) ins.
Proof.
  intros Hgens Hnd Hi Hw Hdone Hframe. apply Forall_forall. intros j Hj.
  pose proof (proj1 (Forall_forall _ _) Hw j Hj) as (HG & Hp & Hq).
  split; [done|].
  destruct (decide (in_gen j = in_gen i)) as [Heq|Hg].
  - assert (j = i) as -> by (by apply (NoDup_fmap_eq in_gen ins)).
    rewrite decide_False by (rewrite list_elem_of_filter; by intros [? _]).
    split.
    + apply Hdone. unfold input_proms. left.
    + destruct (in_then i) as [[a q]|] eqn:Hthen; [|done].
      rewrite decide_False by (rewrite list_elem_of_filter; by intros [? _]).
      apply Hdone. unfold input_proms. rewrite Hthen. right; left.
  - assert (j ≠ i) as Hne by (by intros ->).
    assert (∀ q, q ∈ input_proms j → ps' !! q = ps !! q) as Hsame.
    { intros q Hqj. apply Hframe.
      - apply list_elem_of_In, in_flat_map. exists j. split; by apply list_elem_of_In.
      - by apply (NoDup_flat_map_disjoint input_proms ins j i). }
    assert (ps' !! in_prom j = ps !! in_prom j) as Hp'.
    { apply Hsame. unfold input_proms. left. }
    assert (∀ a q, in_then j = Some (a, q) → ps' !! q = ps !! q) as Hq'.
    { intros a q Hthen. apply Hsame. unfold input_proms. rewrite Hthen. right; left. }
    destruct (decide (in_gen j ∈ P)) as [HinP|HoutP].
    + rewrite decide_True by (by apply list_elem_of_filter).
      split; [by rewrite Hp'|].
      destruct (in_then j) as [[a q]|] eqn:Hthen; [|done].
      rewrite ?decide_True by (by apply list_elem_of_filter). by rewrite (Hq' a q).
    + rewrite decide_False by (rewrite list_elem_of_filter; by intros [_ ?]).
      split; [by rewrite Hp'|].
      destruct (in_then j) as [[a q]|] eqn:Hthen; [|done].
      rewrite ?decide_False by (rewrite list_elem_of_filter; by intros [_ ?]).
      by rewrite (Hq' a q).
Qed.

Lemma settled_proms_done i ps q :
  in_prom i < length ps →
  match in_then i with None => True | Some (_, r) => r < length ps end →
  q ∈ input_proms i → settled_proms i ps !! q = Some fulfilled.
Proof.
  unfold settled_proms, input_proms. intros Hp Hq Hin.
  destruct (in_then i) as [[a r]|].
  - destruct (decide (q = r)) as [->|Hne].
    + apply list_lookup_insert_eq. by rewrite length_insert.
    + rewrite list_lookup_insert_ne by done.
      apply elem_of_cons in Hin as [->|Hin]; [by apply list_lookup_insert_eq|].
      by apply list_elem_of_singleton in Hin.
  - apply list_elem_of_singleton in Hin as ->. by apply list_lookup_insert_eq.
Qed.

Lemma settled_proms_frame i ps q :
  q ∉ input_proms i → settled_proms i ps !! q = ps !! q.
Proof.
  unfold settled_proms, input_proms. intros Hin.
  destruct (in_then i) as [[a r]|].
  - apply not_elem_of_cons in Hin as [Hq Hin]. apply not_elem_of_cons in Hin as [Hr _].
    by rewrite !list_lookup_insert_ne.
  - apply not_elem_of_cons in Hin as [Hq _]. by rewrite list_lookup_insert_ne.
Qed.

Lemma length_settled_proms i ps : length (settled_proms i ps) = length ps.
Proof. unfold settled_proms. destruct (in_then i) as [[a r]|]; by rewrite !length_insert. Qed.

(** The run over any events of the inputs. *)
Lemma events_run (tags : genRef → nat) ins gs evs : ∀ arrs es ps lg st outq P,
  Forall (wired ps gs P) ins →
  NoDup (map in_gen ins) →
  NoDup (flat_map input_proms ins) →
  all ∉ flat_map input_proms ins →
  Forall (fun i => in_tag i = tags (in_gen i)) ins →
  NoDup P →
  Forall (fun e : Event => e.1 ∈ map in_gen ins) evs →
  es !! env = Some (inj st) →
  ps !! all = Some (match P with
                    | [] => fulfilled
                    | _ => mkPromise None [RDone out] (length P)
                    end) →
  gs !! out = Some (mkGen [LUser te] [LUser tc] [LUser td]) →
  ∃ n, n ≤ 3 * length evs + length outq + length (out_calls st P evs)
       ∧ ∀ extra,
           let w := run (n + extra)
                      (mkWorld gs arrs es ps []
                         (map task_of_event evs ++ map (task_of out) outq) lg) in
           log w = lg ++ inputs_seen tags evs
                      ++ map (seen_of te tc td) (outq ++ out_calls st P evs)
           ∧ quiescent w.
Proof.
  induction evs as [|[g args] evs IH];
    intros arrs es ps lg st outq P Hwired Hgens Hnd Hnotin Htags HP Hevs Henv Hall Hout.
  - exists (length outq). split; [cbn; lia|]. intros extra.
    cbn [map app out_calls inputs_seen flat_map]. rewrite app_nil_r.
    by apply (observer_run out te tc td outq).
  - apply Forall_cons in Hevs as [Hg Hevs]. cbn [fst] in Hg.
    apply list_elem_of_fmap in Hg as (i & -> & Hi).
    pose proof (proj1 (Forall_forall _ _) Hwired i Hi) as (HG & Hp & Hq).
    pose proof (proj1 (Forall_forall _ _) Htags i Hi) as Htag.
    set (G := mkGen (input_emits i) [] (input_dones i)) in *.
    assert (∀ k arrs' es' ps' st' P' lg' seen calls,
              (∀ ts, run k (mkWorld gs arrs es ps []
                              (task_of_event (in_gen i, args) :: ts) lg)
                     = mkWorld gs arrs' es' ps' [] (ts ++ map (task_of out) calls) lg') →
              k ≤ 3 →
              Forall (wired ps' gs P') ins →
              NoDup P' →
              es' !! env = Some (inj st') →
              ps' !! all = Some (match P' with
                                 | [] => fulfilled
                                 | _ => mkPromise None [RDone out] (length P')
                                 end) →
              lg' = lg ++ seen →
              inputs_seen tags ((in_gen i, args) :: evs) = seen ++ inputs_seen tags evs →
              out_calls st P ((in_gen i, args) :: evs) = calls ++ out_calls st' P' evs →
              ∃ n, n ≤ 3 * length ((in_gen i, args) :: evs) + length outq
                       + length (out_calls st P ((in_gen i, args) :: evs))
                   ∧ ∀ extra,
                       let w := run (n + extra)
                                  (mkWorld gs arrs es ps []
                                     (map task_of_event ((in_gen i, args) :: evs)
                                        ++ map (task_of out) outq) lg) in
                       log w = lg ++ inputs_seen tags ((in_gen i, args) :: evs)
                                  ++ map (seen_of te tc td)
                                       (outq ++ out_calls st P ((in_gen i, args) :: evs))
                       ∧ quiescent w) as Hstep.
    { intros k arrs' es' ps' st' P' lg' seen calls Hrun Hk Hw' HP' Henv' Hall' -> Hseen Hcalls.
      destruct (IH arrs' es' ps' (lg ++ seen) st' (outq ++ calls) P'
                  Hw' Hgens Hnd Hnotin Htags HP' Hevs Henv' Hall' Hout) as (n & Hn & Hgo).
      exists (k + n). split.
      { rewrite Hcalls. rewrite !length_app in *. cbn [length].
        unfold Event, genRef in *. lia. }
      intros extra. cbv zeta. rewrite <- Nat.add_assoc, run_add.
      cbn [map app]. rewrite Hrun.
      rewrite <- app_assoc, <- map_app.
      destruct (Hgo extra) as [Hlog Hqu]. split; [|exact Hqu].
      rewrite Hlog, Hseen, Hcalls. by rewrite <- !app_assoc. }
    destruct args as [x c|e|].
    + (* an item *)
      apply (Hstep 1 (pushes i [x] arrs) (<[env := inj (stepf st x).1]> es) ps
               (stepf st x).1 P lg []
               (match (stepf st x).2 with Some y => [ActEmit y] | None => [] end));
        [|lia|done|done| |done|by rewrite app_nil_r|reflexivity|reflexivity].
      * intros ts. rewrite (run_timer 0 _ (TEmit (in_gen i) x c) ts) by reflexivity.
        cbn [run run_task]. rewrite (callback_foldl _ _ _ _ G) by exact HG.
        change (foldl (fun w l => invoke l (ArgsItem x c) w) ?w (registered KEmit G))
          with (dispatch G KEmit (ArgsItem x c) w).
        rewrite (dispatch_input_item G i x c _ st) by done.
        cbn [run_handler]. destruct (stepf st x) as [st1 [y|]]; reflexivity.
      * apply list_lookup_insert_eq. by eapply lookup_lt_Some.
    + (* a fault *)
      apply (Hstep 1 arrs es ps st P lg [] []);
        [|lia|done|done|done|done|by rewrite app_nil_r|reflexivity|reflexivity].
      intros ts. rewrite (run_timer 0 _ (TCatch (in_gen i) e) ts) by reflexivity.
      cbn [run run_task]. rewrite (callback_foldl _ _ _ _ G) by exact HG.
      cbn [registered G _registeredCatches foldl]. by rewrite app_nil_r.
    + (* a completion *)
      assert (∀ ts, run 1 (mkWorld gs arrs es ps [] (TDone (in_gen i) :: ts) lg)
                    = foldl (fun w l => invoke l ArgsNone w)
                        (mkWorld gs arrs es ps [] ts lg) (input_dones i)) as Hdone.
      { intros ts. rewrite (run_timer 0 _ (TDone (in_gen i)) ts) by reflexivity.
        cbn [run run_task]. by rewrite (callback_foldl _ _ _ _ G) by exact HG. }
      destruct (decide (in_gen i ∈ P)) as [HinP|HoutP].
      * (* the first of this input *)
        assert (match in_then i with
                | None => True
                | Some (_, q) => ps !! q = Some (mkPromise None [] 0) ∧ q ≠ in_prom i
                end) as Hq'.
        { destruct (in_then i) as [[a q]|] eqn:Hthen; [|done]. split; [done|].
          intros ->. rewrite Hp in Hq. done. }
        pose proof (filter_ne_length _ P HP HinP) as Hlen.
        assert (ps !! all = Some (mkPromise None [RDone out] (length P))) as Hall0.
        { rewrite Hall. destruct P; [|done]. by apply elem_of_nil in HinP. }
        set (P' := filter (fun h => h ≠ in_gen i) P) in *.
        assert (all ∉ input_proms i) as Hall_i.
        { intros Hin. apply Hnotin, list_elem_of_In, in_flat_map. exists i.
          split; by apply list_elem_of_In. }
        assert (in_prom i < length ps) as Hlt by (by eapply lookup_lt_Some).
        assert (match in_then i with None => True | Some (_, r) => r < length ps end) as Hlt'.
        { destruct (in_then i) as [[a q]|]; [|done]. by eapply lookup_lt_Some. }
        assert (settled_proms i ps !! all = Some (mkPromise None [RDone out] (S (length P'))))
          as Hall1.
        { rewrite settled_proms_frame by done. rewrite Hall0. do 2 f_equal. exact Hlen. }
        assert (∀ pall, Forall (wired (<[all := pall]> (settled_proms i ps)) gs P') ins) as Hw'.
        { intros pall. apply (wired_after_done ins ps _ gs P i); try done.
          - intros q Hqi. rewrite list_lookup_insert_ne by (by intros ->).
            by apply settled_proms_done.
          - intros q Hqin Hqi. rewrite list_lookup_insert_ne by (by intros ->).
            by apply settled_proms_frame. }
        assert (all < length (settled_proms i ps)) as Hall_lt by (by eapply lookup_lt_Some).
        destruct (length P') as [|m] eqn:Hm.
        -- (* the last of all inputs *)
           assert (P' = []) as HP'nil by (by destruct P').
           assert (P = [in_gen i]) as HPi by (by apply filter_ne_singleton).
           apply (Hstep 3 arrs es (<[all := fulfilled]> (settled_proms i ps)) st P'
                    (lg ++ [Seen (tags (in_gen i)) EvDone]) [Seen (tags (in_gen i)) EvDone]
                    [ActDone]);
             [|lia|done|by apply NoDup_filter|done| |done|reflexivity|].
           ++ intros ts. change 3 with (1 + 2). rewrite run_add, Hdone.
              rewrite (invoke_input_done_pending i) by done.
              rewrite (run_job_first 1 _ (JReact (RAllElem all) (Fulfilled undefined)) [])
                by reflexivity.
              cbn [run_job]. wcbn.
              rewrite (react_all_elem _ _ _ _ _ _ [RDone out] 0) by exact Hall1.
              cbn [map].
              rewrite (run_job_first 0 _ (JReact (RDone out) (Fulfilled undefined)) [])
                by reflexivity.
              cbn [run run_job react]. unfold done, setTimeout. wcbn.
              by rewrite Htag.
           ++ rewrite HP'nil. by apply list_lookup_insert_eq.
           ++ cbn [out_calls]. fold P'. by rewrite decide_True.
        -- (* others have not completed *)
           assert (P ≠ [in_gen i]) as HPi.
           { intros Heq. subst P' . rewrite Heq in Hm. cbn in Hm.
             rewrite decide_False in Hm by (by intros ?). done. }
           apply (Hstep 2 arrs es
                    (<[all := mkPromise None [RDone out] (S m)]> (settled_proms i ps)) st P'
                    (lg ++ [Seen (tags (in_gen i)) EvDone]) [Seen (tags (in_gen i)) EvDone] []);
             [|lia|done|by apply NoDup_filter|done| |done|reflexivity|].
           ++ intros ts. change 2 with (1 + 1). rewrite run_add, Hdone.
              rewrite (invoke_input_done_pending i) by done.
              rewrite (run_job_first 0 _ (JReact (RAllElem all) (Fulfilled undefined)) [])
                by reflexivity.
              cbn [run run_job]. wcbn.
              rewrite (react_all_elem _ _ _ _ _ _ [RDone out] (S m)) by exact Hall1.
              by rewrite Htag, app_nil_r.
           ++ rewrite list_lookup_insert_eq by done. destruct P'; [done|]. by rewrite Hm.
           ++ cbn [out_calls]. fold P'. by rewrite decide_False.
      * (* a later one *)
        assert (P ≠ [in_gen i]) as HPi.
        { intros Heq. apply HoutP. rewrite Heq. left. }
        apply (Hstep 1 arrs es ps st P
                 (lg ++ [Seen (tags (in_gen i)) EvDone]) [Seen (tags (in_gen i)) EvDone] []);
          [|lia|done|done|done|done|done|reflexivity|].
        -- intros ts. rewrite Hdone, (invoke_input_done_again i) by done.
           by rewrite Htag, app_nil_r.
        -- cbn [out_calls]. rewrite decide_False by done.
           by rewrite filter_ne_notin.
Qed.

(** What the listeners of the output record: the items [handleEmit]
    emits, in the order in which it emits them, and one completion, which
    comes after the items emitted up to the event with which the last of
    the inputs [P] completes for the first time. *)
Definition out_record (st : St) (P : list genRef) (evs : list Event) : list Obs :=
  match completes P evs with
  | Some (pre, post) =>
      map (fun y => Seen te (EvItem y)) (run_handler st (arrivals pre)).2
        ++ [Seen td EvDone]
        ++ map (fun y => Seen te (EvItem y))
             (run_handler (run_handler st (arrivals pre)).1 (arrivals post)).2
  | None => map (fun y => Seen te (EvItem y)) (run_handler st (arrivals evs)).2
  end.

Lemma ready_wired ps gs P i : ready ps gs i → in_gen i ∈ P → wired ps gs P i.
Proof.
  intros (HG & Hp & Hq) Hin. split; [done|]. rewrite decide_True by done.
  split; [done|]. destruct (in_then i) as [[a q]|]; [|done]. by rewrite decide_True.
Qed.

Lemma out_calls_nil evs : ∀ st,
  out_calls st [] evs = map ActEmit (run_handler st (arrivals evs)).2.
Proof.
  induction evs as [|[g args] evs IH]; intros st; [done|].
  destruct args as [x c|e|]; cbn [out_calls]; rewrite ?IH.
  - unfold arrivals. cbn [flat_map snd app run_handler].
    destruct (stepf st x) as [st1 o]. cbn [fst snd].
    destruct (run_handler st1 _) as [st2 em]. by destruct o.
  - done.
  - by rewrite decide_False.
Qed.

Lemma filter_ne_nil (g : nat) (P : list nat) :
  NoDup P → P ≠ [] → filter (fun h => h ≠ g) P = [] → P = [g].
Proof.
  intros HP Hne Hnil. apply filter_ne_singleton; [done| |done].
  destruct P as [|h P]; [done|]. destruct (decide (h = g)) as [->|Hhg]; [left|].
  rewrite filter_cons, decide_True in Hnil by done. done.
Qed.

(** The calls of the output's handles, in terms of the arrivals: the
    items [handleEmit] emits in the order in which it emits them, and one
    completion, called at the event with which the last input completes
    for the first time. *)
Lemma out_calls_record evs : ∀ st P,
  P ≠ [] → NoDup P →
  map (seen_of te tc td) (out_calls st P evs) = out_record st P evs.
Proof.
  unfold out_record.
  induction evs as [|[g args] evs IH]; intros st P Hne HP.
  - by destruct P.
  - rewrite completes_cons by done. cbn [fst snd].
    destruct args as [x c|e|]; cbn [out_calls].
    + rewrite map_app, (IH _ P) by done. rewrite arrivals_item.
      destruct (completes P evs) as [[pre post]|]; rewrite ?arrivals_item;
        cbn [run_handler]; destruct (stepf st x) as [st1 o]; cbn [fst snd];
        destruct (run_handler st1 _) as [st2 em]; cbn [fst snd];
        destruct o; reflexivity.
    + rewrite (IH _ P) by done. rewrite arrivals_fault.
      destruct (completes P evs) as [[pre post]|]; by rewrite ?arrivals_fault.
    + rewrite map_app, arrivals_done. destruct (decide (P = [g])) as [->|HPg].
      * rewrite filter_cons, decide_False by (by intros ?).
        rewrite filter_nil, completes_nil, out_calls_nil, map_map, arrivals_done. done.
      * assert (filter (fun h => h ≠ g) P ≠ []) as Hne'.
        { intros Hnil. by apply HPg, filter_ne_nil. }
        rewrite (IH _ _ Hne') by (by apply NoDup_filter).
        destruct (completes _ evs) as [[pre post]|]; by rewrite ?arrivals_done.
Qed.

(** The same record, with the completion placed among all the items. *)
Lemma out_record_completed_after st P evs :
  out_record st P evs
  = match completes P evs with
    | Some (pre, _) =>
        completed_after te td (run_handler st (arrivals evs)).2
          (length (run_handler st (arrivals pre)).2)
    | None => map (fun y => Seen te (EvItem y)) (run_handler st (arrivals evs)).2
    end.
Proof.
  unfold out_record, completed_after.
  destruct (completes P evs) as [[pre post]|] eqn:E; [|done].
  apply completes_app in E as ->. rewrite arrivals_app, run_handler_app. cbn [snd].
  by rewrite take_app_length, drop_app_length.
Qed.

Lemma out_record_items st P evs x :
  Seen te (EvItem x) ∈ out_record st P evs ↔ x ∈ (run_handler st (arrivals evs)).2.
Proof.
  assert (∀ l, Seen te (EvItem x) ∈ map (fun y => Seen te (EvItem y)) l ↔ x ∈ l) as Hmap.
  { intros l. rewrite list_elem_of_fmap. split.
    - by intros (y & [= ->] & Hy).
    - intros Hx. by exists x. }
  unfold out_record. destruct (completes P evs) as [[pre post]|] eqn:E; [|apply Hmap].
  apply completes_app in E as ->. rewrite arrivals_app, run_handler_app. cbn [snd].
  rewrite !elem_of_app, !Hmap, list_elem_of_singleton. split; [|tauto].
  intros [?|[[=]|?]]; tauto.
Qed.

End Intersection.

(** ** Updates of an explicit world *)

Lemma with_gens_mk f gs arrs es ps js ts lg :
  with_gens f (mkWorld gs arrs es ps js ts lg) = mkWorld (f gs) arrs es ps js ts lg.
Proof. reflexivity. Qed.
Lemma with_arrays_mk f gs arrs es ps js ts lg :
  with_arrays f (mkWorld gs arrs es ps js ts lg) = mkWorld gs (f arrs) es ps js ts lg.
Proof. reflexivity. Qed.
Lemma with_envs_mk f gs arrs es ps js ts lg :
  with_envs f (mkWorld gs arrs es ps js ts lg) = mkWorld gs arrs (f es) ps js ts lg.
Proof. reflexivity. Qed.
Lemma with_promises_mk f gs arrs es ps js ts lg :
  with_promises f (mkWorld gs arrs es ps js ts lg) = mkWorld gs arrs es (f ps) js ts lg.
Proof. reflexivity. Qed.
Lemma with_jobs_mk f gs arrs es ps js ts lg :
  with_jobs f (mkWorld gs arrs es ps js ts lg) = mkWorld gs arrs es ps (f js) ts lg.
Proof. reflexivity. Qed.
Lemma with_timers_mk f gs arrs es ps js ts lg :
  with_timers f (mkWorld gs arrs es ps js ts lg) = mkWorld gs arrs es ps js (f ts) lg.
Proof. reflexivity. Qed.
Lemma with_log_mk f gs arrs es ps js ts lg :
  with_log f (mkWorld gs arrs es ps js ts lg) = mkWorld gs arrs es ps js ts (f lg).
Proof. reflexivity. Qed.

Ltac wred :=
  repeat first
    [ rewrite with_gens_mk | rewrite with_arrays_mk | rewrite with_envs_mk
    | rewrite with_promises_mk | rewrite with_jobs_mk | rewrite with_timers_mk
    | rewrite with_log_mk
    | progress cbn beta iota
    | progress cbn [gens arrays envs promises jobs timers log] ].

(** ** Programs over K arrays *)

(** [new Generator(A)] for every array of [As], each with a completion
    listener of the caller; the listeners are tagged from [tag] on. *)
Fixpoint construct_all (tag : nat) (As : list (list item)) : M (list genRef) :=
  match As with
  | [] => ret []
  | A :: rest =>
      do g <~ Generator (PArray A);
      Generator_done g (LUser tag) ;;
      do gs <~ construct_all (S tag) rest;
      ret (g :: gs)
  end.

(** The Generators of [As] combined, the result observed by recording
    listeners. *)
Definition intersect_program (combine : list genRef → M genRef)
    (tin : nat) (As : list (list item)) (te tc td : nat) : M genRef :=
  do gs <~ construct_all tin As;
  do out <~ combine gs;
  Generator_emit out (LUser te) ;;
  Generator_catch out (LUser tc) ;;
  Generator_done out (LUser td) ;;
  ret out.

Fixpoint fresh_gens (tag : nat) (As : list (list item)) : list Gen :=
  match As with
  | [] => []
  | _ :: rest => mkGen [] [] [LUser tag] :: fresh_gens (S tag) rest
  end.

Fixpoint arrays_timers (g : genRef) (As : list (list item)) : list Task :=
  match As with
  | [] => []
  | A :: rest =>
      (map (fun x => TEmit g x (HookCancel g)) A ++ [TDone g])
        ++ arrays_timers (S g) rest
  end.

Lemma alter_app_last {A} (f : A → A) (l : list A) (x : A) :
  alter f (length l) (l ++ [x]) = l ++ [f x].
Proof.
  rewrite <- (Nat.add_0_r (length l)). by rewrite alter_app_r.
Qed.

Lemma length_fresh_gens tag As : length (fresh_gens tag As) = length As.
Proof. revert tag. induction As as [|A As IH]; intros tag; simpl; [done|]. by rewrite IH. Qed.

Lemma construct_all_spec tag As gs es ts :
  length es = length gs →
  construct_all tag As (mkWorld gs [] es [] [] ts [])
  = (seq (length gs) (length As),
     mkWorld (gs ++ fresh_gens tag As) []
       (es ++ replicate (length As) (EnvCancel false)) [] []
       (ts ++ arrays_timers (length gs) As) []).
Proof.
  revert tag gs es ts. induction As as [|A As IH]; intros tag gs es ts Hlen.
  - cbn. by rewrite !app_nil_r.
  - cbn [construct_all]. unfold bind. rewrite Generator_array.
    unfold Generator_done, exec, register. wcbn. cbn beta iota.
    rewrite alter_app_last, Hlen.
    rewrite IH by (rewrite !length_app; simpl; lia).
    unfold ret. cbn [length seq fresh_gens arrays_timers replicate].
    rewrite !length_app. cbn [length]. rewrite Nat.add_1_r.
    by rewrite <- !app_assoc.
Qed.

(** ** intersectByHash: what the subscription loop builds *)

Fixpoint wired_hash (L : Listener) (p tag : nat) (As : list (list item)) : list Gen :=
  match As with
  | [] => []
  | _ :: rest => mkGen [L] [] [LUser tag; LResolve p] :: wired_hash L (S p) (S tag) rest
  end.

Lemma subscribe_hash_spec L As : ∀ pre post tag arrs es ps ts,
  subscribe_hash L (seq (length pre) (length As))
    (mkWorld (pre ++ fresh_gens tag As ++ post) arrs es ps [] ts [])
  = (seq (length ps) (length As),
     mkWorld (pre ++ wired_hash L (length ps) tag As ++ post) arrs es
       (ps ++ replicate (length As) (mkPromise None [] 0)) [] ts []).
Proof.
  induction As as [|A As IH]; intros pre post tag arrs es ps ts.
  - cbn. by rewrite app_nil_r.
  - cbn [length seq subscribe_hash fresh_gens wired_hash replicate].
    unfold bind, new_promise, Generator_emit, Generator_done, exec, register, ret.
    wcbn. cbn beta iota.
    rewrite <- (Nat.add_0_r (length pre)), !alter_app_r, Nat.add_0_r.
    cbn [app alter list_alter _registeredEmits _registeredCatches _registeredDones].
    specialize (IH (pre ++ [mkGen [L] [] [LUser tag; LResolve (length ps)]]) post
                  (S tag) arrs es (ps ++ [mkPromise None [] 0]) ts).
    rewrite !length_app in IH. cbn [length] in IH. rewrite !Nat.add_1_r in IH.
    rewrite <- !app_assoc in IH. cbn [app] in IH.
    rewrite IH. reflexivity.
Qed.

(** [Promise.all] subscribing to pending promises that sit next to each
    other in the heap. *)
Lemma promise_then_pending p r rs n w :
  promises w !! p = Some (mkPromise None rs n) →
  promise_then p r w
  = with_promises (fun ps => <[p := mkPromise None (rs ++ [r]) n]> ps) w.
Proof. intros H. unfold promise_then. by rewrite H. Qed.

Lemma promise_then_run r n : ∀ pre post gs arrs es js ts lg,
  foldl (fun w p => promise_then p r w)
    (mkWorld gs arrs es (pre ++ replicate n (mkPromise None [] 0) ++ post) js ts lg)
    (seq (length pre) n)
  = mkWorld gs arrs es (pre ++ replicate n (mkPromise None [r] 0) ++ post) js ts lg.
Proof.
  induction n as [|n IH]; intros pre post gs arrs es js ts lg; [done|].
  cbn [seq foldl replicate].
  rewrite (promise_then_pending _ _ [] 0); cycle 1.
  { wcbn. cbn [app]. by apply list_lookup_middle. }
  wcbn. rewrite <- (Nat.add_0_r (length pre)), insert_app_r, Nat.add_0_r.
  cbn [app insert list_insert].
  specialize (IH (pre ++ [mkPromise None [r] 0]) post gs arrs es js ts lg).
  rewrite length_app in IH. cbn [length] in IH. rewrite Nat.add_1_r in IH.
  rewrite <- !app_assoc in IH. cbn [app] in IH.
  by rewrite IH.
Qed.

Lemma subscribe_hash_start L As post tag arrs es ts :
  subscribe_hash L (seq 0 (length As))
    (mkWorld (fresh_gens tag As ++ post) arrs es [] [] ts [])
  = (seq 0 (length As),
     mkWorld (wired_hash L 0 tag As ++ post) arrs es
       (replicate (length As) (mkPromise None [] 0)) [] ts []).
Proof. exact (subscribe_hash_spec L As [] post tag arrs es [] ts). Qed.

Lemma promise_then_start r n post gs arrs es js ts lg :
  foldl (fun w p => promise_then p r w)
    (mkWorld gs arrs es (replicate n (mkPromise None [] 0) ++ post) js ts lg)
    (seq 0 n)
  = mkWorld gs arrs es (replicate n (mkPromise None [r] 0) ++ post) js ts lg.
Proof. exact (promise_then_run r n [] post gs arrs es js ts lg). Qed.

Lemma length_wired_hash L p tag As : length (wired_hash L p tag As) = length As.
Proof.
  revert p tag. induction As as [|A As IH]; intros p tag; simpl; [done|]. by rewrite IH.
Qed.

Lemma alter_at_length {A} (f : A → A) (l : list A) (x : A) n :
  length l = n → alter f n (l ++ [x]) = l ++ [f x].
Proof. intros <-. apply alter_app_last. Qed.

Lemma insert_at_length {A} (l : list A) (x y : A) n :
  length l = n → <[n := y]> (l ++ [x]) = l ++ [y].
Proof.
  intros <-. rewrite <- (Nat.add_0_r (length l)). by rewrite insert_app_r.
Qed.

Lemma lookup_at_length {A} (l : list A) (x : A) n :
  length l = n → (l ++ [x]) !! n = Some x.
Proof. intros <-. by apply list_lookup_middle. Qed.

Definition hash_program (hasher : item → key) :=
  intersect_program (fun gs => Generator_intersectByHash gs hasher).

Lemma start_hash hasher tin A As te tc td :
  let K := length (A :: As) in
  start (hash_program hasher tin (A :: As) te tc td)
  = mkWorld
      (wired_hash (LHashEmit K hasher K K) 0 tin (A :: As)
         ++ [mkGen [LUser te] [LUser tc] [LUser td]])
      []
      (replicate K (EnvCancel false) ++ [EnvHash empty_object])
      (replicate K (mkPromise None [RAllElem K] 0) ++ [mkPromise None [RDone K] K])
      []
      (arrays_timers 0 (A :: As))
      [].
Proof.
  cbv zeta. remember (A :: As) as Bs eqn:HBs.
  unfold start, hash_program, intersect_program, bind, empty_world.
  rewrite (construct_all_spec tin Bs [] [] []) by done.
  cbn beta iota. cbn [app].
  unfold Generator_intersectByHash, Generator_with, bind, new_gen, new_env.
  wcbn. cbn beta iota.
  rewrite length_seq, length_fresh_gens, length_replicate.
  rewrite subscribe_hash_start. cbn beta iota.
  unfold promise_all. wcbn. rewrite length_replicate, length_seq.
  rewrite promise_then_start.
  assert (length Bs = S (length As)) as HK by (by rewrite HBs).
  destruct (seq 0 (length Bs)) as [|? ?] eqn:Hseq; [by rewrite HK in Hseq|].
  cbn [length]. unfold exec.
  rewrite (promise_then_pending _ _ [] (length Bs))
    by (wcbn; apply lookup_at_length, length_replicate).
  wcbn. rewrite insert_at_length by apply length_replicate.
  cbn beta iota.
  unfold Generator_emit, Generator_catch, Generator_done, exec, register, ret.
  wcbn. cbn beta iota.
  rewrite !(alter_at_length _ _ _ (length Bs)) by apply length_wired_hash.
  reflexivity.
Qed.

(** The inputs of intersectByHash, as [inputs_run] wants them. *)
Fixpoint hash_inputs (g p tag : nat) (As : list (list item)) : list Input :=
  match As with
  | [] => []
  | A :: rest =>
      mkInput g tag A (HookCancel g) p None :: hash_inputs (S g) (S p) (S tag) rest
  end.

Lemma hash_inputs_timers g p tag As :
  flat_map input_timers (hash_inputs g p tag As) = arrays_timers g As.
Proof.
  revert g p tag. induction As as [|A As IH]; intros g p tag; [done|].
  cbn [hash_inputs flat_map arrays_timers]. by rewrite IH.
Qed.

Lemma hash_inputs_items g p tag As :
  flat_map in_items (hash_inputs g p tag As) = concat As.
Proof.
  revert g p tag. induction As as [|A As IH]; intros g p tag; [done|].
  cbn [hash_inputs flat_map concat in_items]. by rewrite IH.
Qed.

Lemma hash_inputs_tags g p tag As :
  map (fun i => Seen (in_tag i) EvDone) (hash_inputs g p tag As)
  = map (fun k => Seen k EvDone) (seq tag (length As)).
Proof.
  revert g p tag. induction As as [|A As IH]; intros g p tag; [done|].
  cbn [hash_inputs map length seq in_tag]. by rewrite IH.
Qed.

Lemma hash_inputs_proms g p tag As :
  flat_map input_proms (hash_inputs g p tag As) = seq p (length As).
Proof.
  revert g p tag. induction As as [|A As IH]; intros g p tag; [done|].
  cbn [hash_inputs flat_map length seq]. unfold input_proms at 1.
  cbn [in_prom in_then app]. by rewrite IH.
Qed.

Lemma length_hash_inputs g p tag As : length (hash_inputs g p tag As) = length As.
Proof.
  revert g p tag. induction As as [|A As IH]; intros g p tag; [done|].
  cbn [hash_inputs length]. by rewrite IH.
Qed.

Lemma hash_inputs_ready L all As : ∀ pre_g post_g pre_p post_p tag,
  Forall (ready L all
            (pre_p ++ replicate (length As) (mkPromise None [RAllElem all] 0) ++ post_p)
            (pre_g ++ wired_hash L (length pre_p) tag As ++ post_g))
    (hash_inputs (length pre_g) (length pre_p) tag As).
Proof.
  induction As as [|A As IH]; intros pre_g post_g pre_p post_p tag; [constructor|].
  cbn [hash_inputs wired_hash length replicate app]. constructor.
  - split; [|split; [|done]]; by apply list_lookup_middle.
  - specialize (IH (pre_g ++ [mkGen [L] [] [LUser tag; LResolve (length pre_p)]]) post_g
                  (pre_p ++ [mkPromise None [RAllElem all] 0]) post_p (S tag)).
    rewrite !length_app in IH. cbn [length] in IH. rewrite !Nat.add_1_r in IH.
    rewrite <- !app_assoc in IH. exact IH.
Qed.

Lemma LHashEmit_spec env hasher K out w st args :
  envs w !! env = Some (EnvHash st) →
  invoke (LHashEmit env hasher K out) args w
  = match (handleEmit_hash hasher K st (arg0 args)).2 with
    | Some y => emit out y HookNone
    | None => id
    end (with_envs (fun l => <[env := EnvHash (handleEmit_hash hasher K st (arg0 args)).1]> l) w).
Proof.
  intros H. cbn [invoke]. rewrite H.
  by destruct (handleEmit_hash hasher K st (arg0 args)) as [m' [y|]].
Qed.

(** The items intersectByHash hands to [emit] when its inputs deliver [xs]
    in that order. *)
Definition hash_emitted (hasher : item → key) (K : nat) (xs : list item) : list item :=
  (run_handler (handleEmit_hash hasher K) empty_object xs).2.

(** intersectByHash over the Generators of [As], from the caller's
    synchronous code to the rest of the event loop. *)
Lemma hash_run hasher tin As te tc td extra :
  let K := length As in
  let em := hash_emitted hasher K (concat As) in
  let w := run (length (concat As) + 2 * K + (length em + 2) + extra)
             (start (hash_program hasher tin As te tc td)) in
  log w = map (fun k => Seen k EvDone) (seq tin K)
          ++ map (fun y => Seen te (EvItem y)) em ++ [Seen td EvDone]
  ∧ quiescent w.
Proof.
  destruct As as [|A As].
  - cbv zeta. rewrite run_add, (run_quiescent extra) by reflexivity.
    split; reflexivity.
  - intros K em w. unfold w. rewrite start_hash. fold K.
    destruct (inputs_run EnvHash (handleEmit_hash hasher K) (LHashEmit K hasher K K)
                K K K te tc td (LHashEmit_spec K hasher K K) eq_refl
                (hash_inputs 0 0 tin (A :: As))
                (wired_hash (LHashEmit K hasher K K) 0 tin (A :: As)
                   ++ [mkGen [LUser te] [LUser tc] [LUser td]])
                [] (replicate K (EnvCancel false) ++ [EnvHash empty_object])
                (replicate K (mkPromise None [RAllElem K] 0) ++ [mkPromise None [RDone K] K])
                [] empty_object [] extra) as [Hlog Hq].
    + done.
    + exact (hash_inputs_ready (LHashEmit K hasher K K) K (A :: As) []
               [mkGen [LUser te] [LUser tc] [LUser td]] []
               [mkPromise None [RDone K] K] tin).
    + rewrite hash_inputs_proms. apply NoDup_seq.
    + rewrite hash_inputs_proms, elem_of_seq. unfold K. lia.
    + apply lookup_at_length, length_replicate.
    + rewrite length_hash_inputs. apply lookup_at_length, length_replicate.
    + apply lookup_at_length, length_wired_hash.
    + cbv zeta in Hlog, Hq.
      rewrite hash_inputs_timers, hash_inputs_items, length_hash_inputs, app_nil_r
        in Hlog, Hq.
      rewrite hash_inputs_tags in Hlog.
      split; [exact Hlog|exact Hq].
Qed.

(** ** intersectByComparison: what the subscription loop builds *)

Fixpoint wired_cmp (L : Listener) (p a tag : nat) (As : list (list item)) : list Gen :=
  match As with
  | [] => []
  | _ :: rest =>
      mkGen [L; LThenPush a] [] [LUser tag; LThenDone a (CbResolve p) (S p)]
        :: wired_cmp L (S (S p)) (S a) (S tag) rest
  end.

(** The promises pushed on [handlers]: every other one of those created. *)
Fixpoint evens (p n : nat) : list promRef :=
  match n with
  | 0 => []
  | S n => p :: evens (S (S p)) n
  end.

(** [n] pairs of pending promises, the first of each pair with reaction [r]. *)
Fixpoint pairs (rs : list Reaction) (n : nat) : list Promise :=
  match n with
  | 0 => []
  | S n => mkPromise None rs 0 :: mkPromise None [] 0 :: pairs rs n
  end.

Lemma length_pairs rs n : length (pairs rs n) = 2 * n.
Proof. induction n as [|n IH]; simpl; [done|]. rewrite IH. lia. Qed.

Lemma length_wired_cmp L p a tag As : length (wired_cmp L p a tag As) = length As.
Proof.
  revert p a tag. induction As as [|A As IH]; intros p a tag; simpl; [done|].
  by rewrite IH.
Qed.

Lemma subscribe_cmp_spec L As : ∀ pre post tag arrs es ps ts,
  subscribe_cmp L (seq (length pre) (length As))
    (mkWorld (pre ++ fresh_gens tag As ++ post) arrs es ps [] ts [])
  = (evens (length ps) (length As),
     mkWorld (pre ++ wired_cmp L (length ps) (length arrs) tag As ++ post)
       (arrs ++ replicate (length As) []) es
       (ps ++ pairs [] (length As)) [] ts []).
Proof.
  induction As as [|A As IH]; intros pre post tag arrs es ps ts.
  - cbn. by rewrite !app_nil_r.
  - cbn [length seq subscribe_cmp fresh_gens wired_cmp replicate evens pairs].
    unfold bind, Generator_then, bind, new_promise, new_array,
      Generator_emit, Generator_done, exec, register, ret.
    wred.
    rewrite <- (Nat.add_0_r (length pre)), !alter_app_r, Nat.add_0_r.
    cbn [app alter list_alter _registeredEmits _registeredCatches _registeredDones].
    rewrite !length_app. cbn [length]. rewrite !Nat.add_1_r.
    rewrite <- !app_assoc. cbn [app].
    specialize (IH (pre ++ [mkGen [L; LThenPush (length arrs)] []
                              [LUser tag;
                               LThenDone (length arrs) (CbResolve (length ps)) (S (length ps))]])
                  post (S tag) (arrs ++ [[]]) es
                  (ps ++ [mkPromise None [] 0; mkPromise None [] 0]) ts).
    rewrite !length_app in IH. cbn [length] in IH. rewrite !Nat.add_1_r in IH.
    replace (length ps + 2) with (S (S (length ps))) in IH by lia.
    rewrite <- !app_assoc in IH. cbn [app] in IH.
    rewrite IH. reflexivity.
Qed.

Lemma promise_then_pairs r n : ∀ pre post gs arrs es js ts lg,
  foldl (fun w p => promise_then p r w)
    (mkWorld gs arrs es (pre ++ pairs [] n ++ post) js ts lg)
    (evens (length pre) n)
  = mkWorld gs arrs es (pre ++ pairs [r] n ++ post) js ts lg.
Proof.
  induction n as [|n IH]; intros pre post gs arrs es js ts lg; [done|].
  cbn [evens foldl pairs].
  rewrite (promise_then_pending _ _ [] 0); cycle 1.
  { wcbn. cbn [app]. by apply list_lookup_middle. }
  wcbn. rewrite <- (Nat.add_0_r (length pre)), insert_app_r, Nat.add_0_r.
  cbn [app insert list_insert].
  specialize (IH (pre ++ [mkPromise None [r] 0; mkPromise None [] 0]) post
                gs arrs es js ts lg).
  rewrite length_app in IH. cbn [length] in IH.
  replace (length pre + 2) with (S (S (length pre))) in IH by lia.
  rewrite <- !app_assoc in IH. cbn [app] in IH.
  by rewrite IH.
Qed.

Lemma subscribe_cmp_start L As post tag es ts :
  subscribe_cmp L (seq 0 (length As))
    (mkWorld (fresh_gens tag As ++ post) [] es [] [] ts [])
  = (evens 0 (length As),
     mkWorld (wired_cmp L 0 0 tag As ++ post) (replicate (length As) []) es
       (pairs [] (length As)) [] ts []).
Proof. exact (subscribe_cmp_spec L As [] post tag [] es [] ts). Qed.

Lemma promise_then_pairs_start r n post gs arrs es js ts lg :
  foldl (fun w p => promise_then p r w)
    (mkWorld gs arrs es (pairs [] n ++ post) js ts lg)
    (evens 0 n)
  = mkWorld gs arrs es (pairs [r] n ++ post) js ts lg.
Proof. exact (promise_then_pairs r n [] post gs arrs es js ts lg). Qed.

Lemma length_evens p n : length (evens p n) = n.
Proof. revert p. induction n as [|n IH]; intros p; simpl; [done|]. by rewrite IH. Qed.

Definition cmp_program (comparator : item → item → bool) :=
  intersect_program (fun gs => Generator_intersectByComparison gs comparator).

Lemma start_cmp comparator tin A As te tc td :
  let K := length (A :: As) in
  start (cmp_program comparator tin (A :: As) te tc td)
  = mkWorld
      (wired_cmp (LCmpEmit K comparator K K) 0 0 tin (A :: As)
         ++ [mkGen [LUser te] [LUser tc] [LUser td]])
      (replicate K [])
      (replicate K (EnvCancel false) ++ [EnvCmp []])
      (pairs [RAllElem (2 * K)] K ++ [mkPromise None [RDone K] K])
      []
      (arrays_timers 0 (A :: As))
      [].
Proof.
  cbv zeta. remember (A :: As) as Bs eqn:HBs.
  unfold start, cmp_program, intersect_program, bind, empty_world.
  rewrite (construct_all_spec tin Bs [] [] []) by done.
  cbn beta iota. cbn [app].
  unfold Generator_intersectByComparison, Generator_with, bind, new_gen, new_env.
  wcbn. cbn beta iota.
  rewrite length_seq, length_fresh_gens, length_replicate.
  rewrite subscribe_cmp_start. cbn beta iota.
  unfold promise_all. wcbn. rewrite length_pairs, length_evens.
  rewrite promise_then_pairs_start.
  assert (length Bs = S (length As)) as HK by (by rewrite HBs).
  destruct (evens 0 (length Bs)) as [|? ?] eqn:Hev; [by rewrite HK in Hev|].
  cbn [length]. unfold exec.
  rewrite (promise_then_pending _ _ [] (length Bs))
    by (wcbn; apply lookup_at_length, length_pairs).
  wcbn. rewrite insert_at_length by apply length_pairs.
  cbn beta iota.
  unfold Generator_emit, Generator_catch, Generator_done, exec, register, ret.
  wcbn. cbn beta iota.
  rewrite !(alter_at_length _ _ _ (length Bs)) by apply length_wired_cmp.
  reflexivity.
Qed.

Fixpoint cmp_inputs (g p a tag : nat) (As : list (list item)) : list Input :=
  match As with
  | [] => []
  | A :: rest =>
      mkInput g tag A (HookCancel g) p (Some (a, S p))
        :: cmp_inputs (S g) (S (S p)) (S a) (S tag) rest
  end.

Lemma cmp_inputs_timers g p a tag As :
  flat_map input_timers (cmp_inputs g p a tag As) = arrays_timers g As.
Proof.
  revert g p a tag. induction As as [|A As IH]; intros g p a tag; [done|].
  cbn [cmp_inputs flat_map arrays_timers]. by rewrite IH.
Qed.

Lemma cmp_inputs_items g p a tag As :
  flat_map in_items (cmp_inputs g p a tag As) = concat As.
Proof.
  revert g p a tag. induction As as [|A As IH]; intros g p a tag; [done|].
  cbn [cmp_inputs flat_map concat in_items]. by rewrite IH.
Qed.

Lemma cmp_inputs_tags g p a tag As :
  map (fun i => Seen (in_tag i) EvDone) (cmp_inputs g p a tag As)
  = map (fun k => Seen k EvDone) (seq tag (length As)).
Proof.
  revert g p a tag. induction As as [|A As IH]; intros g p a tag; [done|].
  cbn [cmp_inputs map length seq in_tag]. by rewrite IH.
Qed.

Lemma cmp_inputs_proms g p a tag As :
  flat_map input_proms (cmp_inputs g p a tag As) = seq p (2 * length As).
Proof.
  revert g p a tag. induction As as [|A As IH]; intros g p a tag; [done|].
  cbn [cmp_inputs flat_map length]. unfold input_proms at 1.
  cbn [in_prom in_then app]. rewrite IH.
  replace (2 * S (length As)) with (S (S (2 * length As))) by lia. done.
Qed.

Lemma length_cmp_inputs g p a tag As : length (cmp_inputs g p a tag As) = length As.
Proof.
  revert g p a tag. induction As as [|A As IH]; intros g p a tag; [done|].
  cbn [cmp_inputs length]. by rewrite IH.
Qed.

Lemma cmp_inputs_ready L all As : ∀ pre_g post_g pre_p post_p a tag,
  Forall (ready L all
            (pre_p ++ pairs [RAllElem all] (length As) ++ post_p)
            (pre_g ++ wired_cmp L (length pre_p) a tag As ++ post_g))
    (cmp_inputs (length pre_g) (length pre_p) a tag As).
Proof.
  induction As as [|A As IH]; intros pre_g post_g pre_p post_p a tag; [constructor|].
  cbn [cmp_inputs wired_cmp length pairs app]. constructor.
  - split; [|split].
    + by apply list_lookup_middle.
    + by apply list_lookup_middle.
    + cbn [in_then]. rewrite lookup_app_r by lia.
      by replace (S (length pre_p) - length pre_p) with 1 by lia.
  - specialize (IH (pre_g ++ [mkGen [L; LThenPush a] []
                                [LUser tag;
                                 LThenDone a (CbResolve (length pre_p)) (S (length pre_p))]])
                  post_g
                  (pre_p ++ [mkPromise None [RAllElem all] 0; mkPromise None [] 0])
                  post_p (S a) (S tag)).
    rewrite !length_app in IH. cbn [length] in IH. rewrite !Nat.add_1_r in IH.
    replace (length pre_p + 2) with (S (S (length pre_p))) in IH by lia.
    rewrite <- !app_assoc in IH. exact IH.
Qed.

Lemma LCmpEmit_spec env comparator K out w st args :
  envs w !! env = Some (EnvCmp st) →
  invoke (LCmpEmit env comparator K out) args w
  = match (handleEmit_cmp comparator K st (arg0 args)).2 with
    | Some y => emit out y HookNone
    | None => id
    end (with_envs (fun l => <[env := EnvCmp (handleEmit_cmp comparator K st (arg0 args)).1]> l) w).
Proof.
  intros H. cbn [invoke]. rewrite H.
  by destruct (handleEmit_cmp comparator K st (arg0 args)) as [m' [y|]].
Qed.

(** The items intersectByComparison hands to [emit] when its inputs
    deliver [xs] in that order. *)
Definition cmp_emitted (comparator : item → item → bool) (K : nat)
    (xs : list item) : list item :=
  (run_handler (handleEmit_cmp comparator K) [] xs).2.

Lemma cmp_run comparator tin As te tc td extra :
  let K := length As in
  let em := cmp_emitted comparator K (concat As) in
  let w := run (length (concat As) + 2 * K + (length em + 2) + extra)
             (start (cmp_program comparator tin As te tc td)) in
  log w = map (fun k => Seen k EvDone) (seq tin K)
          ++ map (fun y => Seen te (EvItem y)) em ++ [Seen td EvDone]
  ∧ quiescent w.
Proof.
  destruct As as [|A As].
  - cbv zeta. rewrite run_add, (run_quiescent extra) by reflexivity.
    split; reflexivity.
  - intros K em w. unfold w. rewrite start_cmp. fold K.
    destruct (inputs_run EnvCmp (handleEmit_cmp comparator K) (LCmpEmit K comparator K K)
                K K (2 * K) te tc td (LCmpEmit_spec K comparator K K) eq_refl
                (cmp_inputs 0 0 0 tin (A :: As))
                (wired_cmp (LCmpEmit K comparator K K) 0 0 tin (A :: As)
                   ++ [mkGen [LUser te] [LUser tc] [LUser td]])
                (replicate K []) (replicate K (EnvCancel false) ++ [EnvCmp []])
                (pairs [RAllElem (2 * K)] K ++ [mkPromise None [RDone K] K])
                [] [] [] extra) as [Hlog Hq].
    + done.
    + exact (cmp_inputs_ready (LCmpEmit K comparator K K) (2 * K) (A :: As) []
               [mkGen [LUser te] [LUser tc] [LUser td]] []
               [mkPromise None [RDone K] K] 0 tin).
    + rewrite cmp_inputs_proms. apply NoDup_seq.
    + rewrite cmp_inputs_proms, elem_of_seq. unfold K. lia.
    + apply lookup_at_length, length_replicate.
    + rewrite length_cmp_inputs. apply lookup_at_length, length_pairs.
    + apply lookup_at_length, length_wired_cmp.
    + cbv zeta in Hlog, Hq.
      rewrite cmp_inputs_timers, cmp_inputs_items, length_cmp_inputs, app_nil_r
        in Hlog, Hq.
      rewrite cmp_inputs_tags in Hlog.
      split; [exact Hlog|exact Hq].
Qed.

(** ** The intersections over streams in general *)

(** The Generators of [K] producers of any kind combined, the result
    observed by recording listeners. *)
Definition streams_observed (combine : list genRef → M genRef)
    (tin K : nat) (te tc td : nat) : M genRef :=
  do gs <~ construct_streams tin K;
  do out <~ combine gs;
  Generator_emit out (LUser te) ;;
  Generator_catch out (LUser tc) ;;
  Generator_done out (LUser td) ;;
  ret out.

(** After that the producers call their handles, in the order [evs]. *)
Definition stream_program (combine : list genRef → M genRef)
    (tin K : nat) (evs : list Event) (te tc td : nat) : M genRef :=
  do out <~ streams_observed combine tin K te tc td;
  calls evs ;;
  ret out.

Definition hash_streams (hasher : item → key) :=
  stream_program (fun gs => Generator_intersectByHash gs hasher).

Definition cmp_streams (comparator : item → item → bool) :=
  stream_program (fun gs => Generator_intersectByComparison gs comparator).

Lemma start_stream_program combine tin K evs te tc td out w :
  streams_observed combine tin K te tc td empty_world = (out, w) →
  start (stream_program combine tin K evs te tc td)
  = with_timers (fun ts => ts ++ map task_of_event evs) w.
Proof.
  intros H. unfold start, stream_program, calls, bind, exec, ret. rewrite H.
  cbn beta iota. by rewrite calls_timers.
Qed.

Lemma construct_streams_spec tag As gs es ts :
  construct_streams tag (length As) (mkWorld gs [] es [] [] ts [])
  = (seq (length gs) (length As),
     mkWorld (gs ++ fresh_gens tag As) [] es [] [] ts []).
Proof.
  revert tag gs. induction As as [|A As IH]; intros tag gs.
  - cbn. by rewrite !app_nil_r.
  - cbn [construct_streams length]. unfold bind.
    change (Generator (PFunction []) (mkWorld gs [] es [] [] ts []))
      with (length gs, mkWorld (gs ++ [mkGen [] [] []]) [] es [] [] ts []).
    unfold Generator_done, exec, register. wcbn. cbn beta iota.
    rewrite alter_app_last.
    rewrite IH. unfold ret. cbn [length seq fresh_gens].
    rewrite !length_app. cbn [length]. rewrite Nat.add_1_r.
    by rewrite <- !app_assoc.
Qed.

Lemma hash_streams_observed hasher tin A As te tc td :
  let K := length (A :: As) in
  streams_observed (fun gs => Generator_intersectByHash gs hasher) tin K te tc td
    empty_world
  = (K,
     mkWorld
       (wired_hash (LHashEmit 0 hasher K K) 0 tin (A :: As)
          ++ [mkGen [LUser te] [LUser tc] [LUser td]])
       []
       [EnvHash empty_object]
       (replicate K (mkPromise None [RAllElem K] 0) ++ [mkPromise None [RDone K] K])
       [] [] []).
Proof.
  cbv zeta. remember (A :: As) as Bs eqn:HBs.
  unfold streams_observed, bind, empty_world.
  rewrite (construct_streams_spec tin Bs [] [] []).
  cbn beta iota. cbn [app].
  unfold Generator_intersectByHash, Generator_with, bind, new_gen, new_env.
  wcbn. cbn beta iota.
  rewrite length_seq, length_fresh_gens. cbn [length].
  rewrite subscribe_hash_start. cbn beta iota.
  unfold promise_all. wcbn. rewrite length_replicate, length_seq.
  rewrite promise_then_start.
  assert (length Bs = S (length As)) as HK by (by rewrite HBs).
  destruct (seq 0 (length Bs)) as [|? ?] eqn:Hseq; [by rewrite HK in Hseq|].
  cbn [length]. unfold exec.
  rewrite (promise_then_pending _ _ [] (length Bs))
    by (wcbn; apply lookup_at_length, length_replicate).
  wcbn. rewrite insert_at_length by apply length_replicate.
  cbn beta iota.
  unfold Generator_emit, Generator_catch, Generator_done, exec, register, ret.
  wcbn. cbn beta iota.
  rewrite !(alter_at_length _ _ _ (length Bs)) by apply length_wired_hash.
  reflexivity.
Qed.

Lemma cmp_streams_observed comparator tin A As te tc td :
  let K := length (A :: As) in
  streams_observed (fun gs => Generator_intersectByComparison gs comparator) tin K te tc td
    empty_world
  = (K,
     mkWorld
       (wired_cmp (LCmpEmit 0 comparator K K) 0 0 tin (A :: As)
          ++ [mkGen [LUser te] [LUser tc] [LUser td]])
       (replicate K [])
       [EnvCmp []]
       (pairs [RAllElem (2 * K)] K ++ [mkPromise None [RDone K] K])
       [] [] []).
Proof.
  cbv zeta. remember (A :: As) as Bs eqn:HBs.
  unfold streams_observed, bind, empty_world.
  rewrite (construct_streams_spec tin Bs [] [] []).
  cbn beta iota. cbn [app].
  unfold Generator_intersectByComparison, Generator_with, bind, new_gen, new_env.
  wcbn. cbn beta iota.
  rewrite length_seq, length_fresh_gens. cbn [length].
  rewrite subscribe_cmp_start. cbn beta iota.
  unfold promise_all. wcbn. rewrite length_pairs, length_evens.
  rewrite promise_then_pairs_start.
  assert (length Bs = S (length As)) as HK by (by rewrite HBs).
  destruct (evens 0 (length Bs)) as [|? ?] eqn:Hev; [by rewrite HK in Hev|].
  cbn [length]. unfold exec.
  rewrite (promise_then_pending _ _ [] (length Bs))
    by (wcbn; apply lookup_at_length, length_pairs).
  wcbn. rewrite insert_at_length by apply length_pairs.
  cbn beta iota.
  unfold Generator_emit, Generator_catch, Generator_done, exec, register, ret.
  wcbn. cbn beta iota.
  rewrite !(alter_at_length _ _ _ (length Bs)) by apply length_wired_cmp.
  reflexivity.
Qed.

Lemma hash_inputs_gens g p tag As :
  map in_gen (hash_inputs g p tag As) = seq g (length As).
Proof.
  revert g p tag. induction As as [|A As IH]; intros g p tag; [done|].
  cbn [hash_inputs map length seq in_gen]. by rewrite IH.
Qed.

Lemma hash_inputs_tagged g p tag As :
  Forall (fun i => in_tag i + g = tag + in_gen i) (hash_inputs g p tag As).
Proof.
  revert g p tag. induction As as [|A As IH]; intros g p tag; [constructor|].
  cbn [hash_inputs]. constructor; [cbn; lia|].
  eapply Forall_impl; [apply IH|]. cbn beta. intros i Hi. lia.
Qed.

Lemma cmp_inputs_gens g p a tag As :
  map in_gen (cmp_inputs g p a tag As) = seq g (length As).
Proof.
  revert g p a tag. induction As as [|A As IH]; intros g p a tag; [done|].
  cbn [cmp_inputs map length seq in_gen]. by rewrite IH.
Qed.

Lemma cmp_inputs_tagged g p a tag As :
  Forall (fun i => in_tag i + g = tag + in_gen i) (cmp_inputs g p a tag As).
Proof.
  revert g p a tag. induction As as [|A As IH]; intros g p a tag; [constructor|].
  cbn [cmp_inputs]. constructor; [cbn; lia|].
  eapply Forall_impl; [apply IH|]. cbn beta. intros i Hi. lia.
Qed.

(** intersectByHash over [K] Generators of any producers, from the
    caller's synchronous code to the rest of the event loop. *)
Lemma hash_streams_run hasher K tin evs te tc td extra :
  Forall (fun e : Event => e.1 < K) evs →
  let w := run (4 * length evs + 2 + extra)
             (start (hash_streams hasher tin K evs te tc td)) in
  log w = inputs_seen (fun g => tin + g) evs
          ++ out_record (handleEmit_hash hasher K) te td empty_object (seq 0 K) evs
  ∧ quiescent w.
Proof.
  intros Hin. destruct K as [|K'].
  - destruct evs as [|e evs]; [|apply Forall_cons in Hin as [He _]; lia].
    cbv zeta. cbn [length]. change (4 * 0 + 2 + extra) with (2 + extra).
    rewrite run_add, (run_quiescent extra) by reflexivity.
    split; reflexivity.
  - set (K := S K') in *. set (As := replicate K (@nil item)).
    assert (length As = K) as HK by apply length_replicate.
    cbv zeta. unfold hash_streams.
    pose proof (hash_streams_observed hasher tin [] (replicate K' []) te tc td) as Hstart.
    cbv zeta in Hstart. cbn [length] in Hstart. rewrite length_replicate in Hstart.
    change ([] :: replicate K' []) with As in Hstart. fold K in Hstart.
    rewrite (start_stream_program _ _ _ _ _ _ _ _ _ Hstart). wcbn. cbn [app].
    set (L := LHashEmit 0 hasher K K).
    destruct (events_run EnvHash (handleEmit_hash hasher K) L 0 K K te tc td
                (LHashEmit_spec 0 hasher K K) (fun g => tin + g)
                (hash_inputs 0 0 tin As)
                (wired_hash L 0 tin As ++ [mkGen [LUser te] [LUser tc] [LUser td]])
                evs [] [EnvHash empty_object]
                (replicate K (mkPromise None [RAllElem K] 0) ++ [mkPromise None [RDone K] K])
                [] empty_object [] (seq 0 K)) as (n & Hn & Hgo).
    + pose proof (hash_inputs_ready L K As [] [mkGen [LUser te] [LUser tc] [LUser td]] []
                    [mkPromise None [RDone K] K] tin) as Hready.
      rewrite HK in Hready. cbn [app length] in Hready.
      apply Forall_forall. intros i Hi. apply ready_wired.
      * by eapply Forall_forall in Hready.
      * rewrite <- HK, <- (hash_inputs_gens 0 0 tin As). by apply list_elem_of_fmap_2.
    + rewrite hash_inputs_gens. apply NoDup_seq.
    + rewrite hash_inputs_proms. apply NoDup_seq.
    + rewrite hash_inputs_proms, elem_of_seq. lia.
    + eapply Forall_impl; [apply hash_inputs_tagged|]. cbn beta. intros i Hi. lia.
    + apply NoDup_seq.
    + eapply Forall_impl; [exact Hin|]. cbn beta. intros e He.
      rewrite hash_inputs_gens, elem_of_seq. lia.
    + done.
    + rewrite lookup_at_length by apply length_replicate. unfold K at 1. cbn [seq].
      by rewrite length_seq.
    + apply lookup_at_length. by rewrite length_wired_hash.
    + pose proof (out_calls_length (handleEmit_hash hasher K) evs empty_object (seq 0 K))
        as Hlen.
      cbn [length map] in Hn, Hgo.
      replace (4 * length evs + 2 + extra)
        with (n + (4 * length evs + 2 - n + extra)) by (unfold Event, genRef in *; lia).
      destruct (Hgo (4 * length evs + 2 - n + extra)) as [Hlog Hq].
      rewrite app_nil_r in Hlog, Hq. split; [|exact Hq].
      rewrite Hlog. cbn [app]. f_equal.
      apply out_calls_record; [done|apply NoDup_seq].
Qed.

(** The same for intersectByComparison. *)
Lemma cmp_streams_run comparator K tin evs te tc td extra :
  Forall (fun e : Event => e.1 < K) evs →
  let w := run (4 * length evs + 2 + extra)
             (start (cmp_streams comparator tin K evs te tc td)) in
  log w = inputs_seen (fun g => tin + g) evs
          ++ out_record (handleEmit_cmp comparator K) te td [] (seq 0 K) evs
  ∧ quiescent w.
Proof.
  intros Hin. destruct K as [|K'].
  - destruct evs as [|e evs]; [|apply Forall_cons in Hin as [He _]; lia].
    cbv zeta. cbn [length]. change (4 * 0 + 2 + extra) with (2 + extra).
    rewrite run_add, (run_quiescent extra) by reflexivity.
    split; reflexivity.
  - set (K := S K') in *. set (As := replicate K (@nil item)).
    assert (length As = K) as HK by apply length_replicate.
    cbv zeta. unfold cmp_streams.
    pose proof (cmp_streams_observed comparator tin [] (replicate K' []) te tc td) as Hstart.
    cbv zeta in Hstart. cbn [length] in Hstart. rewrite length_replicate in Hstart.
    change ([] :: replicate K' []) with As in Hstart. fold K in Hstart.
    rewrite (start_stream_program _ _ _ _ _ _ _ _ _ Hstart). wcbn. cbn [app].
    set (L := LCmpEmit 0 comparator K K).
    destruct (events_run EnvCmp (handleEmit_cmp comparator K) L 0 K (2 * K) te tc td
                (LCmpEmit_spec 0 comparator K K) (fun g => tin + g)
                (cmp_inputs 0 0 0 tin As)
                (wired_cmp L 0 0 tin As ++ [mkGen [LUser te] [LUser tc] [LUser td]])
                evs (replicate K []) [EnvCmp []]
                (pairs [RAllElem (2 * K)] K ++ [mkPromise None [RDone K] K])
                [] [] [] (seq 0 K)) as (n & Hn & Hgo).
    + pose proof (cmp_inputs_ready L (2 * K) As [] [mkGen [LUser te] [LUser tc] [LUser td]] []
                    [mkPromise None [RDone K] K] 0 tin) as Hready.
      rewrite HK in Hready. cbn [app length] in Hready.
      apply Forall_forall. intros i Hi. apply ready_wired.
      * by eapply Forall_forall in Hready.
      * rewrite <- HK, <- (cmp_inputs_gens 0 0 0 tin As). by apply list_elem_of_fmap_2.
    + rewrite cmp_inputs_gens. apply NoDup_seq.
    + rewrite cmp_inputs_proms. apply NoDup_seq.
    + rewrite cmp_inputs_proms, elem_of_seq. lia.
    + eapply Forall_impl; [apply cmp_inputs_tagged|]. cbn beta. intros i Hi. lia.
    + apply NoDup_seq.
    + eapply Forall_impl; [exact Hin|]. cbn beta. intros e He.
      rewrite cmp_inputs_gens, elem_of_seq. lia.
    + done.
    + rewrite lookup_at_length by apply length_pairs. unfold K at 1. cbn [seq].
      by rewrite length_seq.
    + apply lookup_at_length. by rewrite length_wired_cmp.
    + pose proof (out_calls_length (handleEmit_cmp comparator K) evs [] (seq 0 K))
        as Hlen.
      cbn [length map] in Hn, Hgo.
      replace (4 * length evs + 2 + extra)
        with (n + (4 * length evs + 2 - n + extra)) by (unfold Event, genRef in *; lia).
      destruct (Hgo (4 * length evs + 2 - n + extra)) as [Hlog Hq].
      rewrite app_nil_r in Hlog, Hq. split; [|exact Hq].
      rewrite Hlog. cbn [app]. f_equal.
      apply out_calls_record; [done|apply NoDup_seq].
Qed.

(** ** intersectByHash of the legacy revision *)

(** Two Generators of arrays, a completion listener on each, and
    intersectByHash over them, observed by recording listeners. *)
Definition legacy_hash_program (hasher : item → key) (error : item)
    (A B : list item) (ta tb te tc td : nat) : M genRef :=
  do g1 <~ legacy_Generator (PArray A);
  Generator_done g1 (LUser ta) ;;
  do g2 <~ legacy_Generator (PArray B);
  Generator_done g2 (LUser tb) ;;
  do out <~ legacy_intersectByHash [g1; g2] hasher error;
  Generator_emit out (LUser te) ;;
  Generator_catch out (LUser tc) ;;
  Generator_done out (LUser td) ;;
  ret out.

(** An array in the legacy revision, with nobody listening for items. *)
Lemma legacy_array_unheard g G xs w :
  gens w !! g = Some G →
  _registeredEmits G = [] →
  legacy_start g (PArray xs) w = dispatch G KDone ArgsNone w.
Proof.
  intros HG HE. cbn [legacy_start].
  rewrite (legacy_emit_all_foldl g G) by done.
  assert (foldl (fun w x => dispatch G KEmit (ArgsItem x HookNone) w) w xs = w) as ->.
  { induction xs as [|x xs IH]; [done|]. cbn [foldl].
    unfold dispatch at 2. cbn [registered]. rewrite HE. exact IH. }
  unfold legacy_done. by apply callback_foldl.
Qed.

(** The inputs run first and nobody hears their items; then the function
    of intersectByHash runs: both promises it makes are rejected, so is
    the promise of [Promise.all], and the done handle of the output is
    never called. *)
Lemma legacy_hash_run hasher error A B ta tb te tc td extra :
  let w := run (6 + extra)
             (start (legacy_hash_program hasher error A B ta tb te tc td)) in
  log w = [Seen ta EvDone; Seen tb EvDone]
  ∧ promises w = [mkPromise (Some (Rejected error)) [] 0;
                  mkPromise (Some (Rejected error)) [] 0;
                  mkPromise (Some (Rejected error)) [] 2]
  ∧ quiescent w.
Proof.
  cbv zeta.
  change (start (legacy_hash_program hasher error A B ta tb te tc td))
    with (mkWorld [mkGen [] [] [LUser ta]; mkGen [] [] [LUser tb];
                   mkGen [LUser te] [LUser tc] [LUser td]] [] [] [] []
            [TStart 0 (PArray A); TStart 1 (PArray B);
             TStart 2 (PIntersectByHash [0; 1] error)] []).
  change (6 + extra) with (1 + (1 + (4 + extra))). rewrite run_add.
  rewrite (run_timer 0 _ (TStart 0 (PArray A))
             [TStart 1 (PArray B); TStart 2 (PIntersectByHash [0; 1] error)])
    by reflexivity.
  cbn [run run_task].
  rewrite (legacy_array_unheard 0 (mkGen [] [] [LUser ta])) by reflexivity.
  unfold dispatch. cbn [registered _registeredDones foldl invoke ev_of]. unfold record. wcbn.
  rewrite run_add.
  rewrite (run_timer 0 _ (TStart 1 (PArray B)) [TStart 2 (PIntersectByHash [0; 1] error)])
    by reflexivity.
  cbn [run run_task].
  rewrite (legacy_array_unheard 1 (mkGen [] [] [LUser tb])) by reflexivity.
  unfold dispatch. cbn [registered _registeredDones foldl invoke ev_of]. unfold record. wcbn.
  rewrite run_add. turns 4.
  rewrite run_quiescent by reflexivity. done.
Qed.

(** ** The counters of intersectByHash *)

(** How many of [xs] have the key [k]. *)
Fixpoint occ (hasher : item → key) (k : key) (xs : list item) : nat :=
  match xs with
  | [] => 0
  | x :: rest => (if decide (hasher x = k) then 1 else 0) + occ hasher k rest
  end.

(** The items whose arrival takes the number of arrivals with their key to
    [K], [seen] having arrived before [xs]. *)
Fixpoint kth_occurrences (hasher : item → key) (K : nat) (seen xs : list item)
    : list item :=
  match xs with
  | [] => []
  | x :: rest =>
      (if bool_decide (occ hasher (hasher x) seen + 1 = K) then [x] else [])
        ++ kth_occurrences hasher K (seen ++ [x]) rest
  end.

(** A counter per key, as a map of numbers; [cnt] is the counter of a key,
    0 if there is none. *)
Definition cnt (m : gmap key nat) (k : key) : nat := default 0 (m !! k).

Definition count_arrival (hasher : item → key) (K : nat)
    (m : gmap key nat) (x : item) : gmap key nat * option item :=
  (<[hasher x := cnt m (hasher x) + 1]> m,
   if bool_decide (cnt m (hasher x) + 1 = K) then Some x else None).

Lemma occ_app hasher k xs ys :
  occ hasher k (xs ++ ys) = occ hasher k xs + occ hasher k ys.
Proof. induction xs as [|x xs IH]; simpl; [done|]. rewrite IH. lia. Qed.

Lemma occ_snoc hasher k xs x :
  occ hasher k (xs ++ [x]) = occ hasher k xs + (if decide (hasher x = k) then 1 else 0).
Proof. rewrite occ_app. simpl. lia. Qed.

Lemma cnt_insert m k c k' :
  cnt (<[k := c]> m) k' = if decide (k = k') then c else cnt m k'.
Proof.
  unfold cnt. destruct (decide (k = k')) as [->|Hne].
  - by rewrite lookup_insert_eq.
  - by rewrite lookup_insert_ne.
Qed.

(** Such a map counts arrivals per key, and the arrivals that take a
    counter to [K] are [kth_occurrences]. *)
Lemma run_handler_count hasher K xs : ∀ m seen,
  (∀ k, cnt m k = occ hasher k seen) →
  (run_handler (count_arrival hasher K) m xs).2 = kth_occurrences hasher K seen xs
  ∧ ∀ k, cnt (run_handler (count_arrival hasher K) m xs).1 k
         = occ hasher k (seen ++ xs).
Proof.
  induction xs as [|x xs IH]; intros m seen Hm.
  - simpl. split; [done|]. intros k. by rewrite app_nil_r.
  - cbn [run_handler kth_occurrences]. unfold count_arrival at 1 3. rewrite Hm.
    destruct (IH (<[hasher x := occ hasher (hasher x) seen + 1]> m) (seen ++ [x]))
      as [IH1 IH2].
    { intros k. rewrite cnt_insert, occ_snoc, Hm.
      destruct (decide (hasher x = k)) as [->|]; lia. }
    destruct (run_handler _ _ xs) as [m2 em]. cbn [fst snd] in *.
    split.
    + rewrite <- IH1. by destruct (bool_decide _).
    + intros k. rewrite IH2, <- app_assoc. done.
Qed.

(** ** The object [map] of intersectByHash *)

(** A key that is no property of [Object.prototype]. *)
Definition plain (k : key) : Prop := Object_prototype !! k = None.

#[global] Instance plain_dec k : Decision (plain k).
Proof. unfold plain. apply _. Defined.

(** What [map[k]] is once [n] items with the key [k] have arrived:
    [undefined] or the number [n] for a plain key; for an inherited method
    the method, then a string; for [__proto__] the prototype object. *)
Definition stored (k : key) (n : nat) : option Value :=
  match Object_prototype !! k with
  | None => if decide (n = 0) then None else Some (VNumber n)
  | Some Method => Some (if decide (n = 0) then VMethod else VText)
  | Some Accessor => Some VProto
  end.

Lemma empty_object_stored k : empty_object !! k = stored k 0.
Proof.
  unfold empty_object, stored. rewrite lookup_fmap.
  by destruct (Object_prototype !! k) as [[]|].
Qed.

Lemma insert_stored hasher (m : gmap key Value) x seen v :
  (∀ k, m !! k = stored k (occ hasher k seen)) →
  stored (hasher x) (occ hasher (hasher x) seen + 1) = Some v →
  ∀ k, <[hasher x := v]> m !! k = stored k (occ hasher k (seen ++ [x])).
Proof.
  intros Hm Hv k. rewrite occ_snoc. destruct (decide (hasher x = k)) as [<-|Hk].
  - by rewrite lookup_insert_eq, Hv.
  - rewrite lookup_insert_ne, Nat.add_0_r by done. apply Hm.
Qed.

Lemma keep_stored hasher (m : gmap key Value) x seen :
  (∀ k, m !! k = stored k (occ hasher k seen)) →
  Object_prototype !! hasher x = Some Accessor →
  ∀ k, m !! k = stored k (occ hasher k (seen ++ [x])).
Proof.
  intros Hm Hv k. rewrite occ_snoc, Hm. destruct (decide (hasher x = k)) as [<-|Hk].
  - unfold stored. by rewrite Hv.
  - by rewrite Nat.add_0_r.
Qed.

(** One call of [handleEmit]: the counter of a plain key moves by one and
    the item is emitted when it gets to [K]; under an inherited key
    nothing is counted, and nothing emitted. *)
Lemma handleEmit_hash_stored hasher K m x seen :
  (∀ k, m !! k = stored k (occ hasher k seen)) →
  (∀ k, (handleEmit_hash hasher K m x).1 !! k = stored k (occ hasher k (seen ++ [x])))
  ∧ (handleEmit_hash hasher K m x).2
    = if decide (plain (hasher x) ∧ occ hasher (hasher x) seen + 1 = K)
      then Some x else None.
Proof.
  intros Hm. unfold handleEmit_hash, assign. cbn [fst snd].
  pose proof (Hm (hasher x)) as Hx.
  pose proof (insert_stored hasher m x seen) as Hins.
  pose proof (keep_stored hasher m x seen Hm) as Hkeep.
  unfold stored in Hx, Hins at 2.
  destruct (decide (plain (hasher x) ∧ occ hasher (hasher x) seen + 1 = K))
    as [[Hp HK]|Hno].
  - unfold plain in Hp. rewrite Hp in Hx, Hins.
    rewrite decide_False in Hins by lia.
    destruct (decide (occ hasher (hasher x) seen = 0)) as [H0|Hpos]; rewrite Hx.
    + cbn [plus_one loose_equals]. rewrite bool_decide_eq_true_2 by lia.
      split; [|done]. apply Hins; [done|]. by rewrite H0.
    + cbn [truthy]. rewrite bool_decide_eq_true_2 by done.
      cbn [plus_one loose_equals]. rewrite bool_decide_eq_true_2 by lia.
      split; [|done]. by apply Hins.
  - unfold plain in Hno.
    destruct (Object_prototype !! hasher x) as [[]|] eqn:Hproto.
    + (* an inherited method *)
      rewrite decide_False in Hins by lia.
      destruct (decide (occ hasher (hasher x) seen = 0)); rewrite Hx;
        cbn [truthy plus_one loose_equals]; (split; [by apply Hins|done]).
    + (* __proto__ *)
      rewrite Hx. cbn [truthy plus_one loose_equals]. split; [by apply Hkeep|done].
    + (* a plain key whose counter does not get to K *)
      rewrite decide_False in Hins by lia.
      destruct (decide (occ hasher (hasher x) seen = 0)) as [H0|Hpos]; rewrite Hx.
      * cbn [plus_one loose_equals]. rewrite bool_decide_eq_false_2 by (intros ?; apply Hno; split; [done|lia]).
        split; [|done]. apply Hins; [done|]. by rewrite H0.
      * cbn [truthy]. rewrite bool_decide_eq_true_2 by done.
        cbn [plus_one loose_equals].
        rewrite bool_decide_eq_false_2 by (intros ?; apply Hno; split; [done|lia]).
        split; [|done]. by apply Hins.
Qed.

(** [handleEmit] over a sequence of arrivals: the items emitted are the
    K-th arrivals of the plain keys. *)
Lemma run_handler_hash hasher K xs : ∀ m seen,
  (∀ k, m !! k = stored k (occ hasher k seen)) →
  (run_handler (handleEmit_hash hasher K) m xs).2
  = filter (fun y => plain (hasher y)) (kth_occurrences hasher K seen xs)
  ∧ ∀ k, (run_handler (handleEmit_hash hasher K) m xs).1 !! k
         = stored k (occ hasher k (seen ++ xs)).
Proof.
  induction xs as [|x xs IH]; intros m seen Hm.
  - simpl. split; [done|]. intros k. by rewrite app_nil_r.
  - cbn [run_handler kth_occurrences].
    destruct (handleEmit_hash_stored hasher K m x seen Hm) as [Hm' Ho].
    destruct (handleEmit_hash hasher K m x) as [m1 o]. cbn [fst snd] in *.
    destruct (IH m1 (seen ++ [x]) Hm') as [IH1 IH2].
    destruct (run_handler _ m1 xs) as [m2 em]. cbn [fst snd] in *.
    split.
    + rewrite filter_app, <- IH1, Ho.
      destruct (decide (plain (hasher x) ∧ _)) as [[Hp HK]|Hno].
      * rewrite bool_decide_eq_true_2 by done.
        by rewrite filter_cons_True.
      * case_bool_decide as HK; [|done].
        rewrite filter_cons_False; [done|]. intros Hp. by apply Hno.
    + intros k. rewrite IH2, <- app_assoc. done.
Qed.

Lemma hash_emitted_kth hasher K xs :
  hash_emitted hasher K xs
  = filter (fun y => plain (hasher y)) (kth_occurrences hasher K [] xs).
Proof.
  unfold hash_emitted. apply run_handler_hash. intros k. apply empty_object_stored.
Qed.

Lemma kth_occurrences_below hasher K xs : ∀ seen y,
  y ∈ kth_occurrences hasher K seen xs →
  y ∈ xs ∧ occ hasher (hasher y) seen < K.
Proof.
  induction xs as [|x xs IH]; intros seen y Hy; [by apply elem_of_nil in Hy|].
  cbn [kth_occurrences] in Hy. apply elem_of_app in Hy as [Hy|Hy].
  - case_bool_decide; [|by apply elem_of_nil in Hy].
    apply list_elem_of_singleton in Hy as ->. split; [left|lia].
  - apply IH in Hy as [Hin Hlt]. split; [by right|].
    rewrite occ_snoc in Hlt. lia.
Qed.

(** No key is emitted twice. *)
Lemma kth_occurrences_NoDup hasher K xs : ∀ seen,
  NoDup (map hasher (kth_occurrences hasher K seen xs)).
Proof.
  induction xs as [|x xs IH]; intros seen; [constructor|].
  cbn [kth_occurrences]. case_bool_decide as Hx; [|apply IH].
  cbn [app map]. constructor; [|apply IH].
  intros [y [Hxy Hy]]%list_elem_of_fmap.
  apply kth_occurrences_below in Hy as [_ Hlt].
  rewrite occ_snoc, <- Hxy in Hlt. rewrite decide_True in Hlt by done. lia.
Qed.

(** A key is emitted when, and only when, its counter gets from below [K]
    to [K]. *)
Lemma kth_occurrences_keys hasher K xs : ∀ seen k,
  k ∈ map hasher (kth_occurrences hasher K seen xs)
  ↔ occ hasher k seen < K ≤ occ hasher k (seen ++ xs).
Proof.
  induction xs as [|x xs IH]; intros seen k.
  - simpl. rewrite app_nil_r. split; [by intros ?%elem_of_nil|lia].
  - cbn [kth_occurrences]. rewrite map_app, elem_of_app, IH.
    rewrite <- app_assoc. cbn [app].
    rewrite occ_snoc. split.
    + intros [Hk|[Hlt Hle]].
      * case_bool_decide as Hx; [|by apply elem_of_nil in Hk].
        apply list_elem_of_singleton in Hk as ->.
        split; [lia|]. rewrite occ_app. simpl. rewrite decide_True by done. lia.
      * split; [lia|done].
    + intros [Hlt Hle].
      destruct (decide (hasher x = k)) as [<-|Hne].
      * case_bool_decide as Hx; [left; apply list_elem_of_singleton; done|].
        right. split; [lia|done].
      * right. split; [lia|done].
Qed.

Lemma kth_occurrences_app hasher K xs ys : ∀ seen,
  kth_occurrences hasher K seen (xs ++ ys)
  = kth_occurrences hasher K seen xs ++ kth_occurrences hasher K (seen ++ xs) ys.
Proof.
  induction xs as [|x xs IH]; intros seen.
  - cbn. by rewrite app_nil_r.
  - cbn [app kth_occurrences]. rewrite IH, <- !app_assoc. done.
Qed.

(** ** The records of intersectByComparison *)

(** The first of [xs] with the key [k]. *)
Fixpoint first_key (hasher : item → key) (k : key) (xs : list item) : option item :=
  match xs with
  | [] => None
  | x :: rest => if decide (hasher x = k) then Some x else first_key hasher k rest
  end.

(** The first of [xs] with the key of [y]; [y] itself if there is none. *)
Definition first_with (hasher : item → key) (xs : list item) (y : item) : item :=
  default y (first_key hasher (hasher y) xs).

Lemma first_key_app hasher k xs ys :
  first_key hasher k (xs ++ ys)
  = match first_key hasher k xs with
    | Some y => Some y
    | None => first_key hasher k ys
    end.
Proof.
  induction xs as [|x xs IH]; simpl; [done|]. by destruct (decide (hasher x = k)).
Qed.

Section SameEquality.

Context (hasher : item → key) (comparator : item → item → bool) (K : nat).
Hypothesis same_equality : ∀ a b, comparator a b = true ↔ hasher a = hasher b.

(** The count in the first record with key [k], 0 if there is none. *)
Fixpoint dcnt (ds : list Distinct) (k : key) : nat :=
  match ds with
  | [] => 0
  | d :: rest => if decide (hasher (d_item d) = k) then d_count d else dcnt rest k
  end.

(** A record is flagged only once its count has reached [K]. *)
Definition flagged_late (d : Distinct) : Prop := d_emitted d = true → K ≤ d_count d.

Lemma comparator_decide a b :
  comparator a b = bool_decide (hasher a = hasher b).
Proof.
  destruct (comparator a b) eqn:E.
  - symmetry. by apply bool_decide_eq_true, same_equality.
  - symmetry. apply bool_decide_eq_false. intros H%same_equality. congruence.
Qed.

Lemma scan_distinct_found ds x ds' o :
  Forall flagged_late ds →
  scan_distinct comparator K ds x = Some (ds', o) →
  (∀ k, dcnt ds' k = if decide (hasher x = k) then dcnt ds k + 1 else dcnt ds k)
  ∧ Forall flagged_late ds'
  ∧ hasher <$> o = if bool_decide (dcnt ds (hasher x) + 1 = K)
                   then Some (hasher x) else None.
Proof.
  revert ds' o. induction ds as [|d ds IH]; intros ds' o Hinv Hscan; [done|].
  apply Forall_cons in Hinv as [Hd Hds].
  cbn [scan_distinct] in Hscan. rewrite comparator_decide in Hscan.
  cbn [dcnt]. case_bool_decide as Hkey.
  - rewrite decide_True by done.
    destruct (d_emitted d) eqn:Hem; cbn [negb andb] in Hscan.
    + injection Hscan as <- <-. split; [|split].
      * intros k. cbn [dcnt d_item d_count]. rewrite Hkey.
        destruct (decide (hasher x = k)); done.
      * constructor; [|done]. unfold flagged_late in *. cbn. intros _.
        specialize (Hd Hem). lia.
      * rewrite bool_decide_eq_false_2; [done|]. specialize (Hd Hem). lia.
    + case_bool_decide as HK; injection Hscan as <- <-; (split; [|split]).
      * intros k. cbn [dcnt d_item d_count]. rewrite Hkey.
        destruct (decide (hasher x = k)); done.
      * constructor; [|done]. unfold flagged_late. cbn. lia.
      * cbn. by rewrite Hkey.
      * intros k. cbn [dcnt d_item d_count]. rewrite Hkey.
        destruct (decide (hasher x = k)); done.
      * constructor; [|done]. unfold flagged_late. by cbn.
      * done.
  - rewrite decide_False by done.
    destruct (scan_distinct comparator K ds x) as [[rest' o']|] eqn:Hrest; [|done].
    injection Hscan as <- <-.
    destruct (IH rest' o' Hds eq_refl) as (Hcnt & Hinv' & Ho).
    split; [|split; [by constructor|done]].
    intros k. cbn [dcnt]. rewrite Hcnt.
    destruct (decide (hasher (d_item d) = k)) as [Hdk|]; [|done].
    rewrite decide_False by congruence. done.
Qed.

Lemma scan_distinct_fresh ds x d :
  scan_distinct comparator K ds x = None →
  hasher (d_item d) = hasher x →
  dcnt ds (hasher x) = 0
  ∧ ∀ k, dcnt (ds ++ [d]) k
         = if decide (hasher x = k) then d_count d else dcnt ds k.
Proof.
  intros Hscan Hd. induction ds as [|e ds IH].
  - split; [done|]. intros k. cbn [app dcnt]. rewrite Hd.
    by destruct (decide (hasher x = k)).
  - cbn [scan_distinct] in Hscan. rewrite comparator_decide in Hscan.
    case_bool_decide as Hkey.
    { by destruct (negb (d_emitted e) && bool_decide (d_count e + 1 = K)). }
    destruct (scan_distinct comparator K ds x) as [[rest' o']|] eqn:Hrest; [done|].
    destruct (IH eq_refl) as [H0 Hk]. cbn [app dcnt].
    rewrite decide_False by done. split; [done|].
    intros k. rewrite Hk.
    destruct (decide (hasher (d_item e) = k)) as [Hek|]; [|done].
    rewrite decide_False by congruence. done.
Qed.

(** One call of the two [handleEmit]s from matching states: matching
    states again, and the same key emitted or none. *)
Lemma handleEmit_cmp_hash ds m x :
  Forall flagged_late ds →
  (∀ k, dcnt ds k = cnt m k) →
  let r := handleEmit_cmp comparator K ds x in
  let r' := count_arrival hasher K m x in
  Forall flagged_late r.1
  ∧ (∀ k, dcnt r.1 k = cnt r'.1 k)
  ∧ hasher <$> r.2 = hasher <$> r'.2.
Proof.
  intros Hinv Hm. cbv zeta. unfold count_arrival. cbn [fst snd].
  unfold handleEmit_cmp.
  destruct (scan_distinct comparator K ds x) as [[ds' o]|] eqn:Hscan.
  - destruct (scan_distinct_found ds x ds' o Hinv Hscan) as (Hcnt & Hinv' & Ho).
    cbn [fst snd]. split; [done|]. split.
    + intros k. rewrite Hcnt, cnt_insert, !Hm.
      by destruct (decide (hasher x = k)) as [<-|].
    + rewrite Ho, Hm.
      by destruct (bool_decide (cnt m (hasher x) + 1 = K)).
  - case_bool_decide as HK; cbn [fst snd].
    + destruct (scan_distinct_fresh ds x (mkDistinct x 1 true) Hscan eq_refl) as [H0 Hk].
      split; [|split].
      * apply Forall_app. split; [done|]. constructor; [|done].
        unfold flagged_late. cbn. lia.
      * intros k. rewrite Hk, cnt_insert, <- !Hm, H0.
        by destruct (decide (hasher x = k)) as [<-|].
      * rewrite <- Hm, H0. rewrite bool_decide_eq_true_2 by lia. done.
    + destruct (scan_distinct_fresh ds x (mkDistinct x 1 false) Hscan eq_refl) as [H0 Hk].
      split; [|split].
      * apply Forall_app. split; [done|]. constructor; [|done].
        unfold flagged_late. by cbn.
      * intros k. rewrite Hk, cnt_insert, <- !Hm, H0.
        by destruct (decide (hasher x = k)) as [<-|].
      * rewrite <- Hm, H0. rewrite bool_decide_eq_false_2 by lia. done.
Qed.

Lemma run_handler_cmp_hash xs : ∀ ds m,
  Forall flagged_late ds →
  (∀ k, dcnt ds k = cnt m k) →
  map hasher (run_handler (handleEmit_cmp comparator K) ds xs).2
  = map hasher (run_handler (count_arrival hasher K) m xs).2.
Proof.
  induction xs as [|x xs IH]; intros ds m Hinv Hm; [done|].
  cbn [run_handler].
  destruct (handleEmit_cmp_hash ds m x Hinv Hm) as (Hinv' & Hm' & Ho).
  destruct (handleEmit_cmp comparator K ds x) as [ds1 o].
  destruct (count_arrival hasher K m x) as [m1 o'].
  cbn [fst snd] in *.
  specialize (IH ds1 m1 Hinv' Hm').
  destruct (run_handler _ ds1 xs) as [ds2 em].
  destruct (run_handler _ m1 xs) as [m2 em'].
  cbn [fst snd] in *.
  destruct o, o'; cbn in Ho; try done; cbn [map]; congruence.
Qed.

(** The item in the first record with key [k]. *)
Fixpoint ditem (ds : list Distinct) (k : key) : option item :=
  match ds with
  | [] => None
  | d :: rest => if decide (hasher (d_item d) = k) then Some (d_item d) else ditem rest k
  end.

Lemma scan_distinct_found_item ds x ds' o :
  scan_distinct comparator K ds x = Some (ds', o) →
  (∀ k, ditem ds' k = ditem ds k)
  ∧ is_Some (ditem ds (hasher x))
  ∧ ∀ y, o = Some y → ditem ds (hasher x) = Some y.
Proof.
  revert ds' o. induction ds as [|d ds IH]; intros ds' o Hscan; [done|].
  cbn [scan_distinct] in Hscan. rewrite comparator_decide in Hscan.
  cbn [ditem]. case_bool_decide as Hkey.
  - rewrite decide_True by done.
    destruct (negb (d_emitted d) && bool_decide (d_count d + 1 = K));
      injection Hscan as <- <-; (split; [done|]); (split; [by eexists|]).
    + by intros y [= <-].
    + by intros y [=].
  - rewrite decide_False by done.
    destruct (scan_distinct comparator K ds x) as [[rest' o']|] eqn:Hrest; [|done].
    injection Hscan as <- <-.
    destruct (IH rest' o' eq_refl) as (Hitem & Hsome & Ho).
    split; [|done]. intros k. cbn [ditem]. by rewrite Hitem.
Qed.

Lemma scan_distinct_fresh_item ds x d :
  scan_distinct comparator K ds x = None →
  hasher (d_item d) = hasher x →
  ditem ds (hasher x) = None
  ∧ ∀ k, ditem (ds ++ [d]) k
         = if decide (hasher x = k) then Some (d_item d) else ditem ds k.
Proof.
  intros Hscan Hd. induction ds as [|e ds IH].
  - split; [done|]. intros k. cbn [app ditem]. rewrite Hd.
    by destruct (decide (hasher x = k)).
  - cbn [scan_distinct] in Hscan. rewrite comparator_decide in Hscan.
    case_bool_decide as Hkey.
    { by destruct (negb (d_emitted e) && bool_decide (d_count e + 1 = K)). }
    destruct (scan_distinct comparator K ds x) as [[rest' o']|] eqn:Hrest; [done|].
    destruct (IH eq_refl) as [H0 Hk]. cbn [app ditem].
    rewrite decide_False by done. split; [done|].
    intros k. rewrite Hk.
    destruct (decide (hasher (d_item e) = k)) as [Hek|]; [|done].
    rewrite decide_False by congruence. done.
Qed.

(** One call of [handleEmit] of intersectByComparison, its records
    holding the first arrival of every key seen: they still do, and the
    item it emits, if any, is the first arrival with the key of [x]. *)
Lemma handleEmit_cmp_first ds seen x :
  (∀ k, ditem ds k = first_key hasher k seen) →
  let r := handleEmit_cmp comparator K ds x in
  (∀ k, ditem r.1 k = first_key hasher k (seen ++ [x]))
  ∧ ∀ y, r.2 = Some y → first_key hasher (hasher x) (seen ++ [x]) = Some y.
Proof.
  intros Hseen. cbv zeta. unfold handleEmit_cmp.
  destruct (scan_distinct comparator K ds x) as [[ds' o]|] eqn:Hscan.
  - destruct (scan_distinct_found_item ds x ds' o Hscan) as (Hitem & [z Hz] & Ho).
    cbn [fst snd]. split.
    + intros k. rewrite Hitem, first_key_app, <- Hseen. cbn [first_key].
      destruct (ditem ds k) eqn:Hk; [done|].
      destruct (decide (hasher x = k)) as [<-|]; [congruence|done].
    + intros y Hy. rewrite first_key_app, <- Hseen, (Ho y Hy). done.
  - assert (∀ e, d_item e = x →
              (∀ k, ditem (ds ++ [e]) k = first_key hasher k (seen ++ [x]))
              ∧ first_key hasher (hasher x) (seen ++ [x]) = Some x) as Hnew.
    { intros e He.
      destruct (scan_distinct_fresh_item ds x e Hscan) as [H0 Hk]; [by rewrite He|].
      split.
      - intros k. rewrite Hk, first_key_app, <- Hseen, He. cbn [first_key].
        destruct (decide (hasher x = k)) as [<-|]; [by rewrite H0|].
        by destruct (ditem ds k).
      - rewrite first_key_app, <- Hseen, H0. cbn [first_key].
        by rewrite decide_True. }
    case_bool_decide; cbn [fst snd].
    + destruct (Hnew (mkDistinct x 1 true) eq_refl) as [H1 H2].
      split; [done|]. by intros y [= <-].
    + destruct (Hnew (mkDistinct x 1 false) eq_refl) as [H1 H2].
      split; [done|]. by intros y [=].
Qed.

Lemma first_key_extend k seen y rest :
  first_key hasher k seen = Some y →
  first_key hasher k (seen ++ rest) = Some y.
Proof. intros H. by rewrite first_key_app, H. Qed.

(** intersectByComparison emits the first arrival of the key whose K-th
    arrival intersectByHash emits. *)
Lemma run_handler_cmp_first xs : ∀ ds m seen,
  Forall flagged_late ds →
  (∀ k, dcnt ds k = cnt m k) →
  (∀ k, ditem ds k = first_key hasher k seen) →
  (run_handler (handleEmit_cmp comparator K) ds xs).2
  = map (first_with hasher (seen ++ xs))
      (run_handler (count_arrival hasher K) m xs).2.
Proof.
  induction xs as [|x xs IH]; intros ds m seen Hinv Hm Hseen; [done|].
  cbn [run_handler].
  destruct (handleEmit_cmp_hash ds m x Hinv Hm) as (Hinv' & Hm' & Ho).
  destruct (handleEmit_cmp_first ds seen x Hseen) as (Hseen' & Hfirst).
  unfold count_arrival in *.
  destruct (handleEmit_cmp comparator K ds x) as [ds1 o].
  cbn [fst snd] in *.
  specialize (IH ds1 _ (seen ++ [x]) Hinv' Hm' Hseen').
  rewrite <- app_assoc in IH. cbn [app] in IH.
  destruct (run_handler _ ds1 xs) as [ds2 em].
  destruct (run_handler _ _ xs) as [m2 em'].
  cbn [fst snd] in *. subst em.
  destruct (bool_decide (cnt m (hasher x) + 1 = K)); destruct o as [y|];
    cbn in Ho; try done.
  cbn [map]. f_equal. unfold first_with.
  specialize (Hfirst y eq_refl).
  apply (first_key_extend _ _ _ xs) in Hfirst.
  rewrite <- app_assoc in Hfirst. cbn [app] in Hfirst. by rewrite Hfirst.
Qed.

Lemma cnt_empty k : cnt ∅ k = occ hasher k [].
Proof. unfold cnt. by rewrite lookup_empty. Qed.

Lemma cmp_emitted_first xs :
  cmp_emitted comparator K xs
  = map (first_with hasher xs) (kth_occurrences hasher K [] xs).
Proof.
  destruct (run_handler_count hasher K xs ∅ [] cnt_empty) as [<- _].
  apply (run_handler_cmp_first xs [] ∅ []); [constructor|apply cnt_empty|done].
Qed.

(** With the same equality the two intersections emit at the same
    arrivals, and items with the same keys. *)
Lemma cmp_emitted_keys xs :
  map hasher (cmp_emitted comparator K xs)
  = map hasher (kth_occurrences hasher K [] xs).
Proof.
  destruct (run_handler_count hasher K xs ∅ [] cnt_empty) as [<- _].
  apply run_handler_cmp_hash; [constructor|apply cnt_empty].
Qed.

Lemma cmp_emitted_equal xs :
  Forall2 (fun a b => comparator a b = true)
    (cmp_emitted comparator K xs) (kth_occurrences hasher K [] xs).
Proof.
  pose proof (cmp_emitted_keys xs) as H.
  revert H. generalize (kth_occurrences hasher K [] xs).
  induction (cmp_emitted comparator K xs) as [|a l IH]; intros [|b l'] H; try done.
  injection H as Hab Hl. constructor; [by apply same_equality|by apply IH].
Qed.

End SameEquality.

(** ** The intersections, end to end *)

Lemma occ_pos hasher x xs : x ∈ xs → 1 ≤ occ hasher (hasher x) xs.
Proof.
  induction 1 as [x xs|x y xs _ IH]; simpl.
  - rewrite decide_True by done. lia.
  - lia.
Qed.

Lemma occ_items_of hasher k g evs :
  occ hasher k (items_of g evs) ≤ occ hasher k (arrivals evs).
Proof.
  induction evs as [|[h a] evs IH]; [done|].
  rewrite items_of_cons, occ_app. cbn [fst snd].
  destruct a as [x c|e|]; rewrite ?arrivals_item, ?arrivals_fault, ?arrivals_done;
    destruct (decide (h = g)); cbn [occ]; lia.
Qed.

(** The items intersectByHash emits for the arrivals [xs], [seen] having
    arrived before: those whose arrival takes the number stored under
    their key to [K]. *)
Definition counted (hasher : item → key) (K : nat) (seen xs : list item) : list item :=
  filter (fun y => plain (hasher y)) (kth_occurrences hasher K seen xs).

Lemma counted_app hasher K seen xs ys :
  counted hasher K seen (xs ++ ys)
  = counted hasher K seen xs ++ counted hasher K (seen ++ xs) ys.
Proof. unfold counted. by rewrite kth_occurrences_app, filter_app. Qed.

(** An item is among them when, and only when, its arrival makes the
    value stored under its key the number [K]. *)
Lemma counted_one hasher K seen x :
  counted hasher K seen [x]
  = if decide (stored (hasher x) (occ hasher (hasher x) seen + 1) = Some (VNumber K))
    then [x] else [].
Proof.
  unfold counted. cbn [kth_occurrences]. rewrite app_nil_r.
  destruct (decide (plain (hasher x))) as [Hp|Hp].
  - assert (stored (hasher x) (occ hasher (hasher x) seen + 1)
            = Some (VNumber (occ hasher (hasher x) seen + 1))) as ->.
    { unfold stored. unfold plain in Hp. rewrite Hp. by rewrite decide_False by lia. }
    case_bool_decide as HK.
    + rewrite filter_cons_True by done. by rewrite decide_True by (by rewrite HK).
    + rewrite filter_nil. rewrite decide_False; [done|]. by intros [= ?].
  - assert (stored (hasher x) (occ hasher (hasher x) seen + 1) ≠ Some (VNumber K))
      as Hne.
    { unfold stored, plain in *.
      destruct (Object_prototype !! hasher x) as [[]|]; [by case_decide|done|done]. }
    rewrite decide_False by done.
    case_bool_decide; [by rewrite filter_cons_False|done].
Qed.

Lemma filter_Forall_id (P : item → Prop) `{!∀ x, Decision (P x)} (l : list item) :
  Forall P l → filter P l = l.
Proof.
  induction 1 as [|x l Hx _ IH]; [done|]. by rewrite filter_cons_True, IH.
Qed.

Lemma hash_out_record hasher K te td P evs :
  out_record (handleEmit_hash hasher K) te td empty_object P evs
  = match completes P evs with
    | Some (pre, post) =>
        map (fun y => Seen te (EvItem y)) (counted hasher K [] (arrivals pre))
          ++ [Seen td EvDone]
          ++ map (fun y => Seen te (EvItem y))
               (counted hasher K (arrivals pre) (arrivals post))
    | None => map (fun y => Seen te (EvItem y)) (counted hasher K [] (arrivals evs))
    end.
Proof.
  unfold out_record, counted.
  destruct (run_handler_hash hasher K (arrivals evs) empty_object []
              empty_object_stored) as [Hall _].
  destruct (completes P evs) as [[pre post]|]; [|by rewrite Hall].
  destruct (run_handler_hash hasher K (arrivals pre) empty_object []
              empty_object_stored) as [Hpre Hst].
  destruct (run_handler_hash hasher K (arrivals post) _ (arrivals pre) Hst)
    as [Hpost _].
  by rewrite Hpre, Hpost.
Qed.

(** C7. intersectByHash, in the two revisions.

    In the later revision an item is emitted at the arrival that makes the
    value stored under its key the number K, and at no other: over K
    arrays, and over K Generators of any producers, whatever their handles
    are called with and in whatever order.  No key is emitted twice.  The
    output completes once, when the last of the K inputs has completed for
    the first time, among the items and not after them when arrivals
    follow.  What is stored under a key is the number of arrivals with it
    only when the key is no property of [Object.prototype]: under an
    inherited key nothing is counted and nothing is ever emitted.

    In the legacy revision the function of intersectByHash calls
    [handlers.emit], which an array does not have: each promise it makes
    is rejected, nothing is emitted and the output never completes. *)
Theorem C7_intersectByHash_emits_when_the_stored_number_reaches_K
    (hasher : item → key) (K : nat) (As : list (list item)) (evs : list Event)
    (error : item) (A B : list item) (tin ta tb te tc td extra : nat) :
  Forall (fun e : Event => e.1 < K) evs →
  let emitted := map (fun y => Seen te (EvItem y)) in
  let wa := run (length (concat As) + 2 * length As
                 + (length (counted hasher (length As) [] (concat As)) + 2) + extra)
              (start (hash_program hasher tin As te tc td)) in
  let w := run (4 * length evs + 2 + extra)
             (start (hash_streams hasher tin K evs te tc td)) in
  let legacy := run (6 + extra)
                  (start (legacy_hash_program hasher error A B ta tb te tc td)) in
  (log wa = map (fun k => Seen k EvDone) (seq tin (length As))
            ++ emitted (counted hasher (length As) [] (concat As)) ++ [Seen td EvDone]
   ∧ quiescent wa)
  ∧ (log w = inputs_seen (fun g => tin + g) evs
             ++ match completes (seq 0 K) evs with
                | Some (pre, post) =>
                    emitted (counted hasher K [] (arrivals pre))
                      ++ [Seen td EvDone]
                      ++ emitted (counted hasher K (arrivals pre) (arrivals post))
                | None => emitted (counted hasher K [] (arrivals evs))
                end
     ∧ quiescent w)
  ∧ (∀ seen xs,
       NoDup (map hasher (counted hasher K seen xs))
       ∧ (∀ y, y ∈ counted hasher K seen xs → y ∈ xs ∧ plain (hasher y))
       ∧ (∀ k, k ∈ map hasher (counted hasher K seen xs)
               ↔ plain k ∧ occ hasher k seen < K ≤ occ hasher k (seen ++ xs))
       ∧ (∀ x, counted hasher K seen [x]
               = if decide (stored (hasher x) (occ hasher (hasher x) seen + 1)
                            = Some (VNumber K))
                 then [x] else [])
       ∧ (∀ ys, counted hasher K seen (xs ++ ys)
                = counted hasher K seen xs ++ counted hasher K (seen ++ xs) ys))
  ∧ (log legacy = [Seen ta EvDone; Seen tb EvDone]
     ∧ Forall (fun p => pstate p = Some (Rejected error)) (promises legacy)
     ∧ quiescent legacy).
Proof.
  intros Hin emitted wa w legacy. split; [|split; [|split]].
  - unfold wa, counted. rewrite <- hash_emitted_kth.
    exact (hash_run hasher tin As te tc td extra).
  - destruct (hash_streams_run hasher K tin evs te tc td extra Hin) as [Hlog Hq].
    split; [|exact Hq]. fold w in Hlog. rewrite Hlog, hash_out_record. done.
  - intros seen xs. split; [|split; [|split; [|split]]].
    + apply (sublist_NoDup _ (map hasher (kth_occurrences hasher K seen xs)));
        [apply kth_occurrences_NoDup|].
      apply fmap_sublist, sublist_filter.
    + intros y [Hp Hy]%list_elem_of_filter. split; [|done].
      by apply kth_occurrences_below in Hy as [? _].
    + intros k. rewrite <- kth_occurrences_keys. unfold counted.
      rewrite !list_elem_of_fmap. split.
      * intros (y & -> & [Hp Hy]%list_elem_of_filter). split; [done|]. by exists y.
      * intros [Hp (y & -> & Hy)]. exists y. split; [done|].
        by apply list_elem_of_filter.
    + intros x. apply counted_one.
    + intros ys. apply counted_app.
  - destruct (legacy_hash_run hasher error A B ta tb te tc td extra)
      as (Hlog & Hps & Hq).
    fold legacy in Hlog, Hps, Hq. split; [exact Hlog|]. split; [|exact Hq].
    rewrite Hps. by repeat constructor.
Qed.

(** C10. The number stored under a key counts the arrivals from all
    inputs alike.  When the items with the key [k] all come from one input
    [g], and K of them or more do, then: if [k] is no property of
    [Object.prototype], one of the items of [g] with that key is emitted;
    if it is one, no item with that key is ever emitted. *)
Theorem C10_occurrences_within_one_input_suffice
    (hasher : item → key) (K : nat) (evs : list Event) (g : genRef) (k : key)
    (tin te tc td extra : nat) :
  Forall (fun e : Event => e.1 < K) evs →
  0 < K ≤ occ hasher k (items_of g evs) →
  (∀ h x c, (h, ArgsItem x c) ∈ evs → hasher x = k → h = g) →
  let w := run (4 * length evs + 2 + extra)
             (start (hash_streams hasher tin K evs te tc td)) in
  (plain k → ∃ x, x ∈ items_of g evs ∧ hasher x = k ∧ Seen te (EvItem x) ∈ log w)
  ∧ (¬ plain k → ∀ x, hasher x = k → Seen te (EvItem x) ∉ log w).
Proof.
  intros Hin [HK Hocc] Honly w.
  destruct (hash_streams_run hasher K tin evs te tc td extra Hin) as [Hlog _].
  fold w in Hlog.
  assert (∀ x, Seen te (EvItem x) ∈ log w
               ↔ x ∈ counted hasher K [] (arrivals evs)) as Hmem.
  { intros x. rewrite Hlog, elem_of_app, out_record_items.
    unfold counted. rewrite <- hash_emitted_kth. unfold hash_emitted.
    split; [|by right]. intros [Hx|Hx]; [|done].
    by apply inputs_seen_no_item in Hx. }
  split.
  - intros Hp.
    assert (k ∈ map hasher (kth_occurrences hasher K [] (arrivals evs))) as Hk.
    { apply kth_occurrences_keys. cbn [app occ]. split; [lia|].
      pose proof (occ_items_of hasher k g evs). lia. }
    apply list_elem_of_fmap in Hk as (x & Hxk & Hx).
    exists x. split; [|split; [done|]].
    + apply kth_occurrences_below in Hx as [Hx _].
      apply arrivals_elem_of in Hx as (h & c & He).
      rewrite (Honly h x c He) in He by done.
      apply items_of_elem_of. by exists c.
    + apply Hmem. apply list_elem_of_filter. split; [by rewrite <- Hxk|done].
  - intros Hnp x Hx Hlogx. apply Hmem in Hlogx.
    apply list_elem_of_filter in Hlogx as [Hp _]. apply Hnp. by rewrite <- Hx.
Qed.

(** C8. The two intersections over the same inputs, Generators of any
    producers, the comparator expressing the equality of the hasher.
    intersectByComparison emits at the arrival that takes the number of
    arrivals with a key to K, whatever the key, and emits the first
    arrival with that key; intersectByHash emits at the same arrivals,
    the arriving item, but only under keys that are no properties of
    [Object.prototype].  So the items of intersectByHash are, in order
    and under that equality, those of intersectByComparison whose key is
    not inherited: the two outputs are equal item by item when no key
    emitted is inherited, and differ by the items under inherited keys
    otherwise.  No key is emitted twice, and both outputs complete with
    the same event of the inputs. *)
Theorem C8_intersections_emit_equal_items_under_plain_keys
    (hasher : item → key) (comparator : item → item → bool) (K : nat)
    (evs : list Event) (tin te tc td extra : nat) :
  (∀ a b, comparator a b = true ↔ hasher a = hasher b) →
  Forall (fun e : Event => e.1 < K) evs →
  let xs := arrivals evs in
  let kth := kth_occurrences hasher K [] xs in
  let eh := filter (fun y => plain (hasher y)) kth in
  let ec := map (first_with hasher xs) kth in
  let wh := run (4 * length evs + 2 + extra)
              (start (hash_streams hasher tin K evs te tc td)) in
  let wc := run (4 * length evs + 2 + extra)
              (start (cmp_streams comparator tin K evs te tc td)) in
  (log wh = inputs_seen (fun g => tin + g) evs
            ++ match completes (seq 0 K) evs with
               | Some (pre, _) =>
                   completed_after te td eh
                     (length (filter (fun y => plain (hasher y))
                                (kth_occurrences hasher K [] (arrivals pre))))
               | None => map (fun y => Seen te (EvItem y)) eh
               end
   ∧ quiescent wh)
  ∧ (log wc = inputs_seen (fun g => tin + g) evs
              ++ match completes (seq 0 K) evs with
                 | Some (pre, _) =>
                     completed_after te td ec
                       (length (kth_occurrences hasher K [] (arrivals pre)))
                 | None => map (fun y => Seen te (EvItem y)) ec
                 end
     ∧ quiescent wc)
  ∧ Forall2 (fun a b => comparator a b = true) ec kth
  ∧ NoDup (map hasher ec)
  ∧ (∀ k, k ∈ map hasher ec ↔ K ≠ 0 ∧ K ≤ occ hasher k xs)
  ∧ (∀ k, k ∈ map hasher eh ↔ k ∈ map hasher ec ∧ plain k)
  ∧ (Forall (fun y => plain (hasher y)) ec →
       eh = kth ∧ Forall2 (fun a b => comparator a b = true) ec eh).
Proof.
  intros Hsame Hin xs kth eh ec wh wc.
  assert (map hasher ec = map hasher kth) as Hkeys.
  { unfold ec. rewrite <- (cmp_emitted_first hasher comparator K Hsame).
    apply (cmp_emitted_keys hasher comparator K Hsame). }
  assert (∀ pre, length (cmp_emitted comparator K pre)
                 = length (kth_occurrences hasher K [] pre)) as Hlen.
  { intros pre. rewrite (cmp_emitted_first hasher comparator K Hsame).
    apply length_map. }
  split; [|split; [|split; [|split; [|split; [|split]]]]].
  - destruct (hash_streams_run hasher K tin evs te tc td extra Hin) as [Hlog Hq].
    split; [|exact Hq]. fold wh in Hlog. rewrite Hlog, out_record_completed_after.
    fold (hash_emitted hasher K (arrivals evs)). rewrite hash_emitted_kth.
    destruct (completes (seq 0 K) evs) as [[pre post]|]; [|done].
    fold (hash_emitted hasher K (arrivals pre)). by rewrite hash_emitted_kth.
  - destruct (cmp_streams_run comparator K tin evs te tc td extra Hin) as [Hlog Hq].
    split; [|exact Hq]. fold wc in Hlog. rewrite Hlog, out_record_completed_after.
    fold (cmp_emitted comparator K (arrivals evs)).
    rewrite (cmp_emitted_first hasher comparator K Hsame).
    destruct (completes (seq 0 K) evs) as [[pre post]|]; [|done].
    fold (cmp_emitted comparator K (arrivals pre)). by rewrite Hlen.
  - unfold ec. rewrite <- (cmp_emitted_first hasher comparator K Hsame).
    apply (cmp_emitted_equal hasher comparator K Hsame).
  - rewrite Hkeys. apply kth_occurrences_NoDup.
  - intros k. rewrite Hkeys. unfold kth. rewrite kth_occurrences_keys.
    cbn [app occ]. lia.
  - intros k. rewrite Hkeys. unfold eh. rewrite !list_elem_of_fmap. split.
    + intros (y & -> & [Hp Hy]%list_elem_of_filter). split; [by exists y|done].
    + intros [(y & -> & Hy) Hp]. exists y. split; [done|].
      by apply list_elem_of_filter.
  - intros Hplain.
    assert (eh = kth) as Heq.
    { unfold eh. apply filter_Forall_id.
      apply Forall_forall. intros y Hy.
      assert (hasher y ∈ map hasher ec) as Hk.
      { rewrite Hkeys. apply list_elem_of_fmap. by exists y. }
      apply list_elem_of_fmap in Hk as (z & Hz & Hzin).
      rewrite Forall_forall in Hplain. rewrite Hz. by apply Hplain. }
    split; [done|]. rewrite Heq. unfold ec.
    rewrite <- (cmp_emitted_first hasher comparator K Hsame).
    apply (cmp_emitted_equal hasher comparator K Hsame).
Qed.

(** * Further properties

    What the rest of the file shows about the code: dispatch to several
    listeners, registration after the fact, the promise forms of [done] and
    [then] on arbitrary producers, [Generator.resolve], [deregister], and
    more about [exclude] and the intersections. *)

(** ** Several listeners on one list *)

(** [g.emit(l1).emit(l2)...]: one recording listener per tag, in order. *)
Fixpoint emit_each (g : genRef) (tags : list nat) : M unit :=
  match tags with
  | [] => ret tt
  | t :: rest => Generator_emit g (LUser t) ;; emit_each g rest
  end.

(** [g = new Generator(cb); g.emit(l1)...emit(ln); g.done(ld)] *)
Definition observed_by (cb : Producer) (tags : list nat) (td : nat) : M genRef :=
  do g <~ Generator cb;
  emit_each g tags ;;
  Generator_done g (LUser td) ;;
  ret g.

Lemma emit_each_spec g tags w :
  emit_each g tags w
  = (tt, with_gens (alter (fun G => mkGen (_registeredEmits G ++ map LUser tags)
                                      (_registeredCatches G) (_registeredDones G)) g) w).
Proof.
  revert w. induction tags as [|t tags IH]; intros w.
  - cbn [emit_each ret map]. f_equal. destruct w. unfold with_gens. cbn. f_equal.
    symmetry. apply list_alter_id. intros [e c d]. cbn. by rewrite app_nil_r.
  - cbn [emit_each]. unfold bind, Generator_emit, exec. rewrite IH. f_equal.
    destruct w. unfold with_gens, register. cbn. f_equal.
    rewrite list_alter_alter_eq. apply list_alter_ext; [|done].
    intros [e c d] _. cbn. by rewrite <- app_assoc.
Qed.

Lemma start_observed_by xs tags td :
  start (observed_by (PArray xs) tags td)
  = mkWorld [mkGen (map LUser tags) [] [LUser td]] [] [EnvCancel false] [] []
      (map (fun x => TEmit 0 x (HookCancel 0)) xs ++ [TDone 0]) [].
Proof.
  unfold start, observed_by, bind. rewrite Generator_array. cbn beta iota.
  rewrite emit_each_spec. reflexivity.
Qed.

(** What recording listeners [tags] record of the items [xs]. *)
Definition deliveries (tags : list nat) (xs : list item) : list Obs :=
  flat_map (fun x => map (fun t => Seen t (EvItem x)) tags) xs.

Lemma foldl_invoke_users tags args w :
  foldl (fun w l => invoke l args w) w (map LUser tags)
  = with_log (fun l => l ++ map (fun t => Seen t (ev_of args)) tags) w.
Proof.
  revert w. induction tags as [|t tags IH]; intros w.
  - destruct w. unfold with_log. cbn. by rewrite app_nil_r.
  - cbn [map foldl invoke]. rewrite IH. destruct w. unfold with_log, record. cbn.
    by rewrite <- app_assoc.
Qed.

Lemma foldl_dispatch_users G tags c xs w :
  _registeredEmits G = map LUser tags →
  foldl (fun w x => dispatch G KEmit (ArgsItem x c) w) w xs
  = with_log (fun l => l ++ deliveries tags xs) w.
Proof.
  intros HE. revert w. induction xs as [|x xs IH]; intros w.
  - destruct w. unfold with_log. cbn. by rewrite app_nil_r.
  - cbn [foldl]. rewrite IH. unfold dispatch. cbn [registered]. rewrite HE.
    rewrite foldl_invoke_users. destruct w. unfold with_log, deliveries. cbn.
    by rewrite <- app_assoc.
Qed.

Lemma forallb_quiet_users tags : forallb quiet (map LUser tags) = true.
Proof. induction tags as [|t tags IH]; [done|]. cbn. exact IH. Qed.

(** X1. Item listeners are called in the order of their registration, all
    of them for one item before any of them for the next; a listener that
    is registered twice is called twice for every item. *)
Theorem X1_listeners_are_called_in_registration_order
    (xs : list item) (tags : list nat) (td extra : nat) :
  let w := run (length xs + 1 + extra) (start (observed_by (PArray xs) tags td)) in
  log w = flat_map (fun x => map (fun t => Seen t (EvItem x)) tags) xs ++ [Seen td EvDone]
  ∧ quiescent w.
Proof.
  cbv zeta. rewrite start_observed_by, <- Nat.add_assoc, run_add.
  rewrite (run_items 0 (mkGen (map LUser tags) [] [LUser td]) (HookCancel 0) xs [TDone 0]);
    [|done|done|apply forallb_quiet_users|done].
  rewrite (foldl_dispatch_users _ tags) by done.
  rewrite run_add. cbn. by rewrite run_quiescent.
Qed.

(** ** Registration in a later turn *)

(** X2. Nothing is kept for listeners to come: a listener that the caller
    registers after [length pre] items have been delivered receives the
    remaining items and none of the earlier ones; if every item has been
    delivered it receives nothing at all. *)
Theorem X2_late_listener_receives_only_what_follows
    (pre post : list item) (t1 t2 td extra : nat) :
  let w0 := start (observed_by (PArray (pre ++ post)) [t1] td) in
  let w1 := register KEmit 0 (LUser t2) (run (length pre) w0) in
  let w := run (length post + 1 + extra) w1 in
  log w = map (fun x => Seen t1 (EvItem x)) pre
          ++ flat_map (fun x => [Seen t1 (EvItem x); Seen t2 (EvItem x)]) post
          ++ [Seen td EvDone]
  ∧ quiescent w.
Proof.
  cbv zeta. rewrite start_observed_by, map_app, <- app_assoc.
  rewrite (run_items 0 (mkGen [LUser t1] [] [LUser td]) (HookCancel 0) pre
             (map (fun x => TEmit 0 x (HookCancel 0)) post ++ [TDone 0])) by done.
  rewrite (foldl_dispatch_user _ t1) by done.
  rewrite <- Nat.add_assoc, run_add.
  rewrite (run_items 0 (mkGen [LUser t1; LUser t2] [] [LUser td]) (HookCancel 0) post
             [TDone 0]) by done.
  rewrite (foldl_dispatch_users _ [t1; t2]) by done.
  rewrite run_add. cbn. rewrite run_quiescent by done.
  split; [|done]. cbn. by rewrite <- app_assoc.
Qed.

(** ** The future of [done()] *)

(** The first call of a terminal handle in a producer function, as the
    settlement it stands for: [done()] fulfils with [undefined],
    [reject(e)] rejects with [e]. *)
Fixpoint first_terminal (body : list Action) : option Settled :=
  match body with
  | [] => None
  | ActEmit _ :: rest => first_terminal rest
  | ActDone :: _ => Some (Fulfilled undefined)
  | ActReject e :: _ => Some (Rejected e)
  end.

Lemma start_done_promise body tp :
  start (done_promise_program (PFunction body) tp)
  = mkWorld [mkGen [] [LReject 0] [LResolve 0]] [] [] [mkPromise None [RUser tp] 0] []
      (map (task_of 0) body) [].
Proof.
  unfold start, done_promise_program, Generator, Generator_with, bind. cbn.
  rewrite run_body_timers. reflexivity.
Qed.

(** Once the future is settled the timers that are left change nothing. *)
Lemma done_promise_settled_run body : ∀ s l,
  run (length body)
    (mkWorld [mkGen [] [LReject 0] [LResolve 0]] [] [] [mkPromise (Some s) [] 0] []
       (map (task_of 0) body) l)
  = mkWorld [mkGen [] [LReject 0] [LResolve 0]] [] [] [mkPromise (Some s) [] 0] [] [] l.
Proof.
  induction body as [|a body IH]; intros s l; [done|].
  cbn [length map]. rewrite (run_timer _ _ (task_of 0 a) (map (task_of 0) body)) by done.
  destruct a; exact (IH s l).
Qed.

Lemma done_promise_run body tp : ∀ extra,
  run (length body + 1 + extra)
    (mkWorld [mkGen [] [LReject 0] [LResolve 0]] [] [] [mkPromise None [RUser tp] 0] []
       (map (task_of 0) body) [])
  = match first_terminal body with
    | Some s =>
        mkWorld [mkGen [] [LReject 0] [LResolve 0]] [] [] [mkPromise (Some s) [] 0] [] []
          [Seen tp (ev_of_settled s)]
    | None =>
        mkWorld [mkGen [] [LReject 0] [LResolve 0]] [] [] [mkPromise None [RUser tp] 0] []
          [] []
    end.
Proof.
  induction body as [|a body IH]; intros extra.
  - by rewrite run_quiescent.
  - cbn [length map plus].
    rewrite (run_timer _ _ (task_of 0 a) (map (task_of 0) body)) by done.
    destruct a as [x| |e]; cbn [first_terminal].
    + exact (IH extra).
    + replace (length body + 1 + extra) with (1 + (length body + extra)) by lia.
      rewrite run_add.
      rewrite (run_add (length body) extra).
      etrans; [|apply (run_quiescent extra); reflexivity].
      f_equal. exact (done_promise_settled_run body (Fulfilled undefined) _).
    + replace (length body + 1 + extra) with (1 + (length body + extra)) by lia.
      rewrite run_add.
      rewrite (run_add (length body) extra).
      etrans; [|apply (run_quiescent extra); reflexivity].
      f_equal. exact (done_promise_settled_run body (Rejected e) _).
Qed.

(** X3. The future returned by [done()] is settled by the first call of a
    terminal handle and by nothing after it: fulfilled with [undefined] if
    that call is [done()], rejected with [e] if it is [reject(e)], pending
    for good if the producer calls neither; its observer is called once. *)
Theorem X3_done_future_is_settled_by_the_first_terminal_call
    (body : list Action) (tp extra : nat) :
  let w := run (length body + 1 + extra)
             (start (done_promise_program (PFunction body) tp)) in
  pstate <$> promises w !! 0 = Some (first_terminal body)
  ∧ log w = match first_terminal body with
            | Some s => [Seen tp (ev_of_settled s)]
            | None => []
            end
  ∧ quiescent w.
Proof.
  cbv zeta. rewrite start_done_promise, done_promise_run.
  by destruct (first_terminal body).
Qed.

(** ** The future of [then] on any producer function *)

(** The items a producer function emits. *)
Fixpoint emitted (body : list Action) : list item :=
  match body with
  | [] => []
  | ActEmit x :: rest => x :: emitted rest
  | _ :: rest => emitted rest
  end.

(** What a recording fault listener records of a producer function. *)
Fixpoint faults (tc : nat) (body : list Action) : list Obs :=
  match body with
  | [] => []
  | ActReject e :: rest => Seen tc (EvFault e) :: faults tc rest
  | _ :: rest => faults tc rest
  end.

(** The calls before the first [done()], and those after it if there is one. *)
Fixpoint until_done (body : list Action) : list Action :=
  match body with
  | [] => []
  | ActDone :: _ => []
  | a :: rest => a :: until_done rest
  end.

Fixpoint after_done (body : list Action) : option (list Action) :=
  match body with
  | [] => None
  | ActDone :: rest => Some rest
  | _ :: rest => after_done rest
  end.

Lemma start_then_function body f tc tp :
  start (then_program Generator (PFunction body) f tc tp)
  = mkWorld [mkGen [LThenPush 0] [LUser tc] [LThenDone 0 (CbUser f) 0]]
      [[]] [] [mkPromise None [RUser tp] 0] [] (map (task_of 0) body) [].
Proof.
  unfold start, then_program, Generator, Generator_with, bind. cbn.
  rewrite run_body_timers. reflexivity.
Qed.

(** After the future is settled: items are still collected and faults still
    delivered, further completions call the callback and change nothing. *)
Lemma then_settled_run f tc body : ∀ s arr l,
  run (length body)
    (mkWorld [mkGen [LThenPush 0] [LUser tc] [LThenDone 0 (CbUser f) 0]]
       [arr] [] [mkPromise (Some s) [] 0] [] (map (task_of 0) body) l)
  = mkWorld [mkGen [LThenPush 0] [LUser tc] [LThenDone 0 (CbUser f) 0]]
      [arr ++ emitted body] [] [mkPromise (Some s) [] 0] [] [] (l ++ faults tc body).
Proof.
  induction body as [|a body IH]; intros s arr l.
  - cbn. by rewrite !app_nil_r.
  - cbn [length map]. rewrite (run_timer _ _ (task_of 0 a) (map (task_of 0) body)) by done.
    destruct a as [x| |e]; cbn [emitted faults].
    + etrans; [exact (IH s (arr ++ [x]) l)|]. by rewrite <- app_assoc.
    + etrans; [|exact (IH s arr l)]. f_equal.
      cbn. unfold read_array. cbn. by destruct (f arr).
    + etrans; [exact (IH s arr (l ++ [Seen tc (EvFault e)]))|]. by rewrite <- app_assoc.
Qed.

Lemma then_function_run f tc tp body : ∀ arr l extra,
  run (length body + 1 + extra)
    (mkWorld [mkGen [LThenPush 0] [LUser tc] [LThenDone 0 (CbUser f) 0]]
       [arr] [] [mkPromise None [RUser tp] 0] [] (map (task_of 0) body) l)
  = match after_done body with
    | Some post =>
        let s := settled_of (f (arr ++ emitted (until_done body))) in
        mkWorld [mkGen [LThenPush 0] [LUser tc] [LThenDone 0 (CbUser f) 0]]
          [arr ++ emitted body] [] [mkPromise (Some s) [] 0] [] []
          (l ++ faults tc (until_done body) ++ [Seen tp (ev_of_settled s)] ++ faults tc post)
    | None =>
        mkWorld [mkGen [LThenPush 0] [LUser tc] [LThenDone 0 (CbUser f) 0]]
          [arr ++ emitted body] [] [mkPromise None [RUser tp] 0] [] []
          (l ++ faults tc body)
    end.
Proof.
  induction body as [|a body IH]; intros arr l extra.
  - rewrite run_quiescent by done. cbn. by rewrite !app_nil_r.
  - cbn [length map plus].
    rewrite (run_timer _ _ (task_of 0 a) (map (task_of 0) body)) by done.
    destruct a as [x| |e]; cbn [after_done until_done emitted faults].
    + etrans; [exact (IH (arr ++ [x]) l extra)|].
      destruct (after_done body); cbv zeta; by rewrite <- !app_assoc.
    + replace (length body + 1 + extra) with (1 + (length body + extra)) by lia.
      rewrite run_add, (run_add (length body) extra).
      etrans; [|apply (run_quiescent extra); reflexivity].
      f_equal. cbv zeta. cbn [emitted faults app]. rewrite app_nil_r.
      match goal with
      | |- _ = mkWorld _ _ _ _ _ _ (l ++ ?o :: ?F) =>
          change (l ++ o :: F) with (l ++ [o] ++ F); rewrite (app_assoc l [o] F)
      end.
      etrans; [|exact (then_settled_run f tc body _ arr _)].
      f_equal. cbn. unfold read_array. cbn. by destruct (f arr).
    + etrans; [exact (IH arr (l ++ [Seen tc (EvFault e)]) extra)|].
      destruct (after_done body); cbv zeta; by rewrite <- !app_assoc.
Qed.

(** X4. The future returned by [then(cb)] is settled at the first call of
    [done()], by what [cb] makes of the items emitted up to that call:
    fulfilled with its value, rejected with what it throws.  Faults, before
    or after, go to the fault listeners and leave the future alone; items
    and completions that follow the first completion do not change it
    (the items are still collected); without a call of [done()] the future
    is pending for good. *)
Theorem X4_then_future_is_settled_at_the_first_completion
    (body : list Action) (f : list item → Res) (tc tp extra : nat) :
  let w := run (length body + 1 + extra)
             (start (then_program Generator (PFunction body) f tc tp)) in
  let s := settled_of (f (emitted (until_done body))) in
  match after_done body with
  | Some post =>
      promises w !! 0 = Some (mkPromise (Some s) [] 0)
      ∧ log w = faults tc (until_done body) ++ [Seen tp (ev_of_settled s)] ++ faults tc post
  | None =>
      promises w !! 0 = Some (mkPromise None [RUser tp] 0)
      ∧ log w = faults tc body
  end
  ∧ read_array 0 w = emitted body
  ∧ quiescent w.
Proof.
  cbv zeta. rewrite start_then_function, then_function_run.
  by destruct (after_done body).
Qed.

(** ** [Generator.resolve] *)

(** [new Generator(function(done, reject, emit) { emit(value); done(); })] *)
Definition Generator_resolve (value : item) : M genRef :=
  Generator (PFunction [ActEmit value; ActDone]).

(** [Generator.resolve(v).emit(le).catch(lc).done(ld)] *)
Definition resolve_observed (v : item) (te tc td : nat) : M genRef :=
  do g <~ Generator_resolve v;
  Generator_emit g (LUser te) ;;
  Generator_catch g (LUser tc) ;;
  Generator_done g (LUser td) ;;
  ret g.

(** [Generator.resolve(v).then(f).then(record, record)] *)
Definition resolve_then (v : item) (f : list item → Res) (tp : nat) : M promRef :=
  do g <~ Generator_resolve v;
  do p <~ Generator_then g (CbUser f);
  exec (promise_then p (RUser tp)) ;;
  ret p.

(** X5. [Generator.resolve(v)] emits [v], once, and then completes; its
    [then] hands the one-element array of [v] to the callback. *)
Theorem X5_resolve_emits_its_value_then_completes
    (v : item) (f : list item → Res) (te tc td tp extra : nat) :
  let w := run (2 + extra) (start (resolve_observed v te tc td)) in
  let w' := run (3 + extra) (start (resolve_then v f tp)) in
  log w = [Seen te (EvItem v); Seen td EvDone] ∧ quiescent w
  ∧ log w' = [Seen tp (ev_of_settled (settled_of (f [v])))] ∧ quiescent w'.
Proof.
  cbv zeta. split; [|split].
  - change (start (resolve_observed v te tc td))
      with (start (observed Generator (PFunction [ActEmit v; ActDone])
                     (LUser te) (LUser tc) (LUser td))).
    by rewrite (function_run [ActEmit v; ActDone]).
  - change (start (resolve_observed v te tc td))
      with (start (observed Generator (PFunction [ActEmit v; ActDone])
                     (LUser te) (LUser tc) (LUser td))).
    by rewrite (function_run [ActEmit v; ActDone]).
  - change (start (resolve_then v f tp))
      with (mkWorld [mkGen [LThenPush 0] [] [LThenDone 0 (CbUser f) 0]]
              [[]] [] [mkPromise None [RUser tp] 0] []
              [TEmit 0 v HookNone; TDone 0] []).
    rewrite run_add. cbn. unfold read_array. cbn.
    destruct (f [v]); cbn; by rewrite run_quiescent.
Qed.

(** ** [deregister] *)

(** [===] on functions, for the functions a caller can hold: a recording
    listener is identified by its tag.  The closures the library registers
    itself are not reachable by a caller, and are identical to none of its
    functions. *)
Definition same_function (a b : Listener) : bool :=
  match a, b with
  | LUser s, LUser t => bool_decide (s = t)
  | LUserCancel s, LUserCancel t => bool_decide (s = t)
  | _, _ => false
  end.

(** [fns.indexOf(cb)]; [None] is -1. *)
Fixpoint indexOf (fns : list Listener) (cb : Listener) : option nat :=
  match fns with
  | [] => None
  | fn :: rest => if same_function fn cb then Some 0 else S <$> indexOf rest cb
  end.

(** [map[event]]: the own properties of [map] are the three event names. *)
Definition event_list (event : string) : option Kind :=
  if decide (event = "emit"%string) then Some KEmit
  else if decide (event = "catch"%string) then Some KCatch
  else if decide (event = "done"%string) then Some KDone
  else None.

Definition set_registered (k : Kind) (fns : list Listener) (G : Gen) : Gen :=
  match k with
  | KEmit => mkGen fns (_registeredCatches G) (_registeredDones G)
  | KCatch => mkGen (_registeredEmits G) fns (_registeredDones G)
  | KDone => mkGen (_registeredEmits G) (_registeredCatches G) fns
  end.

(** [deregister(event, cb)].  With another event name [map[event]] is
    [undefined] or a property inherited from [Object.prototype], none of
    which has an [indexOf]: a TypeError is thrown, [None] here. *)
Definition Generator_deregister (g : genRef) (event : string) (cb : Listener)
    : M (option unit) :=
  fun w =>
    match event_list event with
    | None => (None, w)
    | Some k =>
        (Some tt,
         with_gens (alter (fun G =>
           match indexOf (registered k G) cb with
           | Some i => set_registered k (delete i (registered k G)) G
           | None => G
           end) g) w)
    end.

(** [g = new Generator(xs); g.emit(l1)...emit(ln); g.done(ld);
    g.deregister('emit', l)] *)
Definition deregister_program (xs : list item) (tags : list nat) (td t : nat)
    : M (option unit) :=
  do g <~ observed_by (PArray xs) tags td;
  Generator_deregister g "emit" (LUser t).

Lemma indexOf_users_None tags t :
  t ∉ tags → indexOf (map LUser tags) (LUser t) = None.
Proof.
  induction tags as [|s tags IH]; intros Hin; [done|].
  apply not_elem_of_cons in Hin as [Hne Hin]. cbn.
  rewrite bool_decide_eq_false_2 by congruence. by rewrite IH.
Qed.

Lemma indexOf_users_first pre t post :
  t ∉ pre →
  indexOf (map LUser (pre ++ t :: post)) (LUser t) = Some (length pre).
Proof.
  induction pre as [|s pre IH]; intros Hin.
  - cbn. by rewrite bool_decide_eq_true_2.
  - apply not_elem_of_cons in Hin as [Hne Hin]. cbn.
    rewrite bool_decide_eq_false_2 by congruence. by rewrite IH.
Qed.

Lemma delete_middle_users pre t post :
  delete (length pre) (map LUser (pre ++ t :: post)) = map LUser (pre ++ post).
Proof.
  induction pre as [|s pre IH]; [done|]. cbn. f_equal. exact IH.
Qed.

(** X6. [deregister('emit', l)] takes the oldest registration of [l] off
    the list and leaves every other registration, of [l] or of another
    listener, in place and in order: from then on the items go to the
    listeners that are left. *)
Theorem X6_deregister_removes_the_oldest_registration
    (xs : list item) (pre post : list nat) (t td extra : nat) :
  t ∉ pre →
  let w0 := start (deregister_program xs (pre ++ t :: post) td t) in
  let w := run (length xs + 1 + extra) w0 in
  gens w0 !! 0 = Some (mkGen (map LUser (pre ++ post)) [] [LUser td])
  ∧ log w = flat_map (fun x => map (fun s => Seen s (EvItem x)) (pre ++ post)) xs
            ++ [Seen td EvDone]
  ∧ quiescent w.
Proof.
  intros Hpre. cbv zeta.
  assert (start (deregister_program xs (pre ++ t :: post) td t)
          = mkWorld [mkGen (map LUser (pre ++ post)) [] [LUser td]] [] [EnvCancel false]
              [] [] (map (fun x => TEmit 0 x (HookCancel 0)) xs ++ [TDone 0]) []) as ->.
  { unfold start, deregister_program, bind.
    pose proof (start_observed_by xs (pre ++ t :: post) td) as Hs.
    unfold start in Hs. destruct (observed_by _ _ _ empty_world) as [g w1] eqn:Eg.
    assert (g = 0) as ->.
    { revert Eg. unfold observed_by, bind. rewrite Generator_array. cbn beta iota.
      rewrite emit_each_spec. by intros [= <- _]. }
    cbn [snd] in Hs. subst w1.
    unfold Generator_deregister. change (event_list "emit") with (Some KEmit).
    cbn -[indexOf delete map app]. unfold with_gens.
    cbn [gens arrays envs promises jobs timers log]. f_equal.
    match goal with |- alter ?f 0 [?G] = _ => change (alter f 0 [G]) with [f G] end.
    cbn beta. cbn [_registeredEmits _registeredCatches _registeredDones].
    by rewrite indexOf_users_first, delete_middle_users. }
  split; [done|].
  rewrite <- Nat.add_assoc, run_add.
  rewrite (run_items 0 (mkGen (map LUser (pre ++ post)) [] [LUser td]) (HookCancel 0)
             xs [TDone 0]); [|done|done|apply forallb_quiet_users|done].
  rewrite (foldl_dispatch_users _ (pre ++ post)) by done.
  rewrite run_add. cbn. by rewrite run_quiescent.
Qed.

(** X7. Registering a function that is not on the list and deregistering
    it again leaves the Generator as it was; deregistering a function that
    is not on the named list changes nothing; and with a name other than
    the three event names a TypeError is thrown before anything changes. *)
Theorem X7_deregister_undoes_a_fresh_registration
    (g : genRef) (G : Gen) (t : nat) (event : string) (cb : Listener) (w : World) :
  gens w !! g = Some G →
  indexOf (_registeredEmits G) (LUser t) = None →
  (Generator_emit g (LUser t) ;; Generator_deregister g "emit" (LUser t)) w = (Some tt, w)
  ∧ Generator_deregister g "emit" (LUser t) w = (Some tt, w)
  ∧ (event ≠ "emit"%string → event ≠ "catch"%string → event ≠ "done"%string →
     Generator_deregister g event cb w = (None, w)).
Proof.
  intros HG Hidx.
  assert (∀ fns, indexOf fns (LUser t) = None →
            indexOf (fns ++ [LUser t]) (LUser t) = Some (length fns)
            ∧ delete (length fns) (fns ++ [LUser t]) = fns) as Hlast.
  { induction fns as [|fn fns IH]; cbn.
    - intros _. by rewrite bool_decide_eq_true_2.
    - destruct (same_function fn (LUser t)); [done|].
      destruct (indexOf fns (LUser t)) eqn:E; [done|]. intros _.
      destruct (IH eq_refl) as [Hi Hd]. rewrite Hi. split; [done|].
      f_equal. exact Hd. }
  destruct (Hlast _ Hidx) as [Hi Hd].
  split; [|split].
  - unfold bind, Generator_emit, exec, Generator_deregister, register.
    change (event_list "emit") with (Some KEmit). cbn beta iota.
    f_equal. destruct w as [gs ar es ps js ts l]. unfold with_gens.
    cbn [gens arrays envs promises jobs timers log] in *.
    f_equal. rewrite list_alter_alter_eq.
    rewrite <- (list_alter_id id gs g) at 2 by done.
    apply list_alter_ext; [|done]. intros G' HG'.
    pose proof (eq_trans (eq_sym HG) HG') as [= <-].
    cbn [compose registered set_registered _registeredEmits _registeredCatches
         _registeredDones].
    rewrite Hi, Hd. by destruct G.
  - unfold Generator_deregister.
    change (event_list "emit") with (Some KEmit). cbn beta iota. f_equal.
    destruct w as [gs ar es ps js ts l]. unfold with_gens.
    cbn [gens arrays envs promises jobs timers log] in *. f_equal.
    rewrite <- (list_alter_id id gs g) at 2 by done.
    apply list_alter_ext; [|done]. intros G' HG'.
    pose proof (eq_trans (eq_sym HG) HG') as [= <-].
    cbn [registered]. by rewrite Hidx.
  - intros He Hc Hd'. unfold Generator_deregister, event_list.
    by rewrite !decide_False.
Qed.

(** ** Intersections of inputs without repeated keys *)

Lemma occ_zero hasher k xs : k ∉ map hasher xs → occ hasher k xs = 0.
Proof.
  induction xs as [|x xs IH]; [done|]. cbn [map occ].
  intros [Hne Hin]%not_elem_of_cons. rewrite decide_False by done. by rewrite IH.
Qed.

Lemma occ_NoDup hasher k xs :
  NoDup (map hasher xs) →
  occ hasher k xs = if decide (k ∈ map hasher xs) then 1 else 0.
Proof.
  induction xs as [|x xs IH]; [done|]. cbn [map occ].
  intros [Hx Hxs]%NoDup_cons. rewrite IH by done.
  destruct (decide (hasher x = k)) as [<-|Hne].
  - rewrite decide_False by done. rewrite decide_True by left. done.
  - destruct (decide (k ∈ map hasher xs)) as [Hin|Hout].
    + rewrite decide_True by (by right). done.
    + rewrite decide_False; [done|]. by intros [?|?]%elem_of_cons.
Qed.

(** In arrays without repeated keys a key occurs as often as there are
    arrays that hold it. *)
Lemma occ_concat_NoDup hasher k As :
  Forall (fun A => NoDup (map hasher A)) As →
  occ hasher k (concat As) ≤ length As
  ∧ (occ hasher k (concat As) = length As ↔ Forall (fun A => k ∈ map hasher A) As).
Proof.
  induction 1 as [|A As HA _ [IH1 IH2]]; [by split|].
  cbn [concat length]. rewrite occ_app, (occ_NoDup _ _ _ HA).
  destruct (decide (k ∈ map hasher A)) as [Hin|Hout].
  - split; [lia|]. rewrite Forall_cons. split.
    + intros Heq. split; [done|]. apply IH2. lia.
    + intros [_ Hall]. apply IH2 in Hall. lia.
  - split; [lia|]. rewrite Forall_cons. split; [lia|]. by intros [? _].
Qed.

Lemma kth_occurrences_none hasher K seen xs :
  (∀ k, occ hasher k (seen ++ xs) < K) → kth_occurrences hasher K seen xs = [].
Proof.
  intros Hlt. destruct (kth_occurrences hasher K seen xs) as [|y ys] eqn:E; [done|].
  assert (hasher y ∈ map hasher (kth_occurrences hasher K seen xs)) as Hy.
  { rewrite E. left. }
  apply kth_occurrences_keys in Hy. specialize (Hlt (hasher y)). lia.
Qed.

Lemma filter_ext_elem_of (P Q : item → Prop)
    `{!∀ x, Decision (P x), !∀ x, Decision (Q x)} (l : list item) :
  (∀ x, x ∈ l → P x ↔ Q x) → filter P l = filter Q l.
Proof.
  induction l as [|a l IH]; intros Hiff; [done|].
  rewrite !filter_cons, IH by (intros x Hx; apply Hiff; by right).
  apply decide_ext, Hiff. left.
Qed.

(** Over an array without repeated keys the counters of the other keys do
    not move: the items emitted are those whose counter stood at K - 1. *)
Lemma kth_occurrences_NoDup_filter hasher K xs : ∀ seen,
  NoDup (map hasher xs) →
  kth_occurrences hasher K seen xs
  = filter (fun x => occ hasher (hasher x) seen + 1 = K) xs.
Proof.
  induction xs as [|x xs IH]; intros seen Hnd; [done|].
  cbn [map] in Hnd. apply NoDup_cons in Hnd as [Hx Hxs].
  cbn [kth_occurrences]. rewrite filter_cons, IH by done.
  assert (filter (fun y => occ hasher (hasher y) (seen ++ [x]) + 1 = K) xs
          = filter (fun y => occ hasher (hasher y) seen + 1 = K) xs) as ->.
  { apply filter_ext_elem_of. intros y Hy.
    rewrite occ_snoc. rewrite decide_False; [lia|].
    intros Heq. apply Hx. rewrite Heq. apply list_elem_of_fmap. by exists y. }
  case_bool_decide; by rewrite ?decide_True, ?decide_False by done.
Qed.

Lemma kth_occurrences_NoDup_inputs hasher init L :
  Forall (fun A => NoDup (map hasher A)) (init ++ [L]) →
  kth_occurrences hasher (length (init ++ [L])) [] (concat (init ++ [L]))
  = filter (fun x => Forall (fun A => hasher x ∈ map hasher A) init) L.
Proof.
  rewrite Forall_app, Forall_singleton. intros [Hinit HL].
  rewrite concat_app, length_app. cbn [concat length].
  rewrite app_nil_r, kth_occurrences_app. cbn [app].
  rewrite kth_occurrences_none.
  - cbn [app]. rewrite kth_occurrences_NoDup_filter by done.
    apply list_filter_iff. intros x.
    destruct (occ_concat_NoDup hasher (hasher x) init Hinit) as [_ <-]. lia.
  - intros k. cbn [app].
    destruct (occ_concat_NoDup hasher k init Hinit) as [Hle _]. lia.
Qed.

(** X8. When no input repeats a key, intersectByHash emits the items of
    the last input whose key occurs in every other input and is no
    property of [Object.prototype], in the order of the last input, and
    nothing from the other inputs. *)
Theorem X8_intersectByHash_emits_the_common_items_of_the_last_input
    (hasher : item → key) (init : list (list item)) (L : list item)
    (tin te tc td extra : nat) :
  Forall (fun A => NoDup (map hasher A)) (init ++ [L]) →
  let As := init ++ [L] in
  let K := length As in
  let em := filter (fun x => plain (hasher x)
                             ∧ Forall (fun A => hasher x ∈ map hasher A) init) L in
  let w := run (length (concat As) + 2 * K + (length em + 2) + extra)
             (start (hash_program hasher tin As te tc td)) in
  log w = map (fun k => Seen k EvDone) (seq tin K)
          ++ map (fun y => Seen te (EvItem y)) em ++ [Seen td EvDone]
  ∧ quiescent w.
Proof.
  intros Hnd As K em w. unfold w, em, K, As.
  rewrite <- list_filter_filter, <- (kth_occurrences_NoDup_inputs hasher init L Hnd).
  rewrite <- hash_emitted_kth.
  exact (hash_run hasher tin (init ++ [L]) te tc td extra).
Qed.

Lemma first_key_Some hasher k xs :
  k ∈ map hasher xs →
  ∃ z, first_key hasher k xs = Some z ∧ z ∈ xs ∧ hasher z = k.
Proof.
  induction xs as [|x xs IH]; [by intros ?%elem_of_nil|].
  cbn [map first_key]. intros Hin.
  destruct (decide (hasher x = k)) as [Hx|Hx].
  - exists x. split; [done|]. split; [left|done].
  - apply elem_of_cons in Hin as [Hin|Hin]; [done|].
    destruct (IH Hin) as (z & Hz & Hzin & Hzk). exists z. split; [done|].
    split; [by right|done].
Qed.

(** X9. intersectByComparison, on the same inputs and with a comparator
    that expresses the equality of keys, emits for the same keys, in the
    order of the last input, the items of the first input. *)
Theorem X9_intersectByComparison_emits_the_items_of_the_first_input
    (hasher : item → key) (comparator : item → item → bool)
    (F : list item) (rest : list (list item)) (L : list item)
    (tin te tc td extra : nat) :
  (∀ a b, comparator a b = true ↔ hasher a = hasher b) →
  Forall (fun A => NoDup (map hasher A)) ((F :: rest) ++ [L]) →
  let As := (F :: rest) ++ [L] in
  let K := length As in
  let common := filter (fun x => Forall (fun A => hasher x ∈ map hasher A) (F :: rest)) L in
  let em := map (first_with hasher F) common in
  let w := run (length (concat As) + 2 * K + (length em + 2) + extra)
             (start (cmp_program comparator tin As te tc td)) in
  log w = map (fun k => Seen k EvDone) (seq tin K)
          ++ map (fun y => Seen te (EvItem y)) em ++ [Seen td EvDone]
  ∧ Forall (fun y => y ∈ F) em
  ∧ map hasher em = map hasher common
  ∧ quiescent w.
Proof.
  intros Hsame Hnd As K common em w.
  assert (cmp_emitted comparator K (concat As) = em) as Hem.
  { rewrite (cmp_emitted_first hasher comparator K Hsame).
    unfold K, As. rewrite (kth_occurrences_NoDup_inputs hasher (F :: rest) L Hnd).
    fold common. unfold em. apply map_ext_in. intros x Hx.
    apply list_elem_of_In, list_elem_of_filter in Hx as [Hall _].
    apply Forall_cons in Hall as [HF _].
    destruct (first_key_Some hasher _ F HF) as (z & Hz & _ & _).
    unfold first_with. cbn [app concat].
    by rewrite first_key_app, Hz. }
  assert (∀ x, x ∈ common →
            first_with hasher F x ∈ F ∧ hasher (first_with hasher F x) = hasher x) as Hfirst.
  { intros x [Hall _]%list_elem_of_filter.
    apply Forall_cons in Hall as [HF _].
    destruct (first_key_Some hasher _ F HF) as (z & Hz & Hzin & Hzk).
    unfold first_with. by rewrite Hz. }
  pose proof (cmp_run comparator tin As te tc td extra) as Hrun.
  cbv zeta in Hrun. fold K in Hrun. rewrite Hem in Hrun.
  destruct Hrun as [Hlog Hq].
  split; [exact Hlog|]. split; [|split; [|exact Hq]].
  - apply Forall_forall. intros y [x [-> Hx]]%list_elem_of_fmap.
    by apply Hfirst.
  - unfold em. rewrite map_map. apply map_ext_in. intros x Hx%list_elem_of_In.
    by apply Hfirst.
Qed.

(** ** The intersection of a single input *)

Lemma kth_occurrences_sublist hasher K xs : ∀ seen,
  sublist (kth_occurrences hasher K seen xs) xs.
Proof.
  induction xs as [|x xs IH]; intros seen; [constructor|].
  cbn [kth_occurrences]. case_bool_decide; cbn [app].
  - apply sublist_skip, IH.
  - apply sublist_cons, IH.
Qed.

Lemma first_occurrences_first hasher xs : ∀ seen,
  Forall (fun y => first_key hasher (hasher y) (seen ++ xs) = Some y)
    (kth_occurrences hasher 1 seen xs).
Proof.
  induction xs as [|x xs IH]; intros seen; [constructor|].
  cbn [kth_occurrences]. apply Forall_app. split.
  - case_bool_decide as Hx; [|constructor]. apply Forall_singleton.
    rewrite first_key_app.
    assert (first_key hasher (hasher x) seen = None) as ->.
    { assert (occ hasher (hasher x) seen = 0) as H0 by lia.
      clear Hx. induction seen as [|s seen IHs]; [done|].
      cbn [occ first_key] in *. destruct (decide (hasher s = hasher x)); [lia|].
      apply IHs. lia. }
    cbn [first_key]. by rewrite decide_True.
  - specialize (IH (seen ++ [x])). by rewrite <- app_assoc in IH.
Qed.

(** X10. Intersecting a single Generator removes repetitions.  By
    comparison the output holds the first arrival of every key of the
    input, in the order of arrival, and no later arrival with a key already
    seen; by hash it holds the same items but those whose key is a
    property of [Object.prototype]. *)
Theorem X10_intersection_of_one_input_keeps_first_arrivals
    (hasher : item → key) (comparator : item → item → bool) (A : list item)
    (tin te tc td extra : nat) :
  (∀ a b, comparator a b = true ↔ hasher a = hasher b) →
  let firsts := kth_occurrences hasher 1 [] A in
  let em := filter (fun y => plain (hasher y)) firsts in
  let wh := run (length A + 2 + (length em + 2) + extra)
              (start (hash_program hasher tin [A] te tc td)) in
  let wc := run (length A + 2 + (length firsts + 2) + extra)
              (start (cmp_program comparator tin [A] te tc td)) in
  log wh = Seen tin EvDone :: map (fun y => Seen te (EvItem y)) em ++ [Seen td EvDone]
  ∧ log wc = Seen tin EvDone :: map (fun y => Seen te (EvItem y)) firsts
                                ++ [Seen td EvDone]
  ∧ sublist firsts A
  ∧ NoDup (map hasher firsts)
  ∧ (∀ k, k ∈ map hasher firsts ↔ k ∈ map hasher A)
  ∧ Forall (fun y => first_key hasher (hasher y) A = Some y) firsts
  ∧ quiescent wh ∧ quiescent wc.
Proof.
  intros Hsame firsts em wh wc.
  assert (cmp_emitted comparator 1 A = firsts) as Hem.
  { rewrite (cmp_emitted_first hasher comparator 1 Hsame). fold firsts.
    pose proof (first_occurrences_first hasher A []) as Hfirst. cbn [app] in Hfirst.
    fold firsts in Hfirst.
    induction Hfirst as [|y ys Hy _ IH]; [done|].
    cbn [map]. rewrite IH. f_equal. unfold first_with. by rewrite Hy. }
  pose proof (hash_run hasher tin [A] te tc td extra) as [Hh Hqh].
  pose proof (cmp_run comparator tin [A] te tc td extra) as [Hc Hqc].
  cbn [length concat app seq map] in Hh, Hqh, Hc, Hqc.
  change (2 * 1) with 2 in Hh, Hqh, Hc, Hqc.
  rewrite app_nil_r in Hh, Hqh, Hc, Hqc.
  rewrite Hem in Hc, Hqc. rewrite hash_emitted_kth in Hh, Hqh. fold firsts em in Hh, Hqh.
  split; [exact Hh|]. split; [exact Hc|].
  split; [apply kth_occurrences_sublist|].
  split; [apply kth_occurrences_NoDup|].
  split.
  { intros k. unfold firsts. rewrite kth_occurrences_keys. cbn [app occ]. split.
    - intros [_ Hle]. destruct (decide (k ∈ map hasher A)) as [|Hout]; [done|].
      rewrite (occ_zero _ _ _ Hout) in Hle. lia.
    - intros [x [-> Hx]]%list_elem_of_fmap. split; [lia|]. by apply occ_pos. }
  split; [exact (first_occurrences_first hasher A [])|].
  split; [exact Hqh|exact Hqc].
Qed.

(** ** [exclude] with the comparator left out *)

(** X11. Without a comparator [exclude] compares with [===]: over two
    arrays it emits every item of [A] that is no element of [B], as often
    as it occurs in [A] and in the order of [A], and it emits every [NaN]
    of [A] whatever [B] holds, since [NaN === NaN] is false; with nothing
    to exclude it emits all of [A]. *)
Theorem X11_exclude_without_comparator_is_list_difference
    (A B : list item) (ta tb te tc td extra : nat) :
  let em := unmatched A B in
  let w := run (length A + length B + length em + 6 + extra)
             (start (exclude_program A B None ta tb te tc td)) in
  log w = [Seen ta EvDone; Seen tb EvDone]
          ++ map (fun x => Seen te (EvItem x)) em ++ [Seen td EvDone]
  ∧ (∀ x, x ∈ em ↔ x ∈ A ∧ (x = NaN ∨ x ∉ B))
  ∧ (NaN ∉ A → em = list_difference A B)
  ∧ (B = [] → em = A)
  ∧ quiescent w.
Proof.
  intros em w. unfold w, em. rewrite <- excluded_strict_equals.
  replace (length A + length B + length (excluded strict_equals A B) + 6 + extra)
    with (length A + (2 + (length B + (3 + (length (excluded strict_equals A B) + 1
                                               + extra))))) by lia.
  rewrite (exclude_run A B None). cbn [log].
  split; [done|]. rewrite excluded_strict_equals. unfold unmatched.
  split; [intros x; rewrite list_elem_of_filter; tauto|]. split; [|split; [|done]].
  - intros Hnan. induction A as [|a A IH]; [done|].
    apply not_elem_of_cons in Hnan as [Hne Hnan].
    rewrite filter_cons. cbn [list_difference]. rewrite <- IH by done.
    destruct (decide_rel elem_of a B) as [Hin|Hout].
    + rewrite decide_False; [done|]. by intros [?|?].
    + rewrite decide_True; [done|]. by right.
  - intros ->. clear. induction A as [|a A IH]; [done|].
    rewrite filter_cons, IH. rewrite decide_True; [done|]. right. apply not_elem_of_nil.
Qed.

(** ** [exclude] when an input faults, and [then] on its result *)

(** The constructor on a producer function, from any world. *)
Lemma Generator_function body w :
  Generator (PFunction body) w
  = (length (gens w),
     mkWorld (gens w ++ [mkGen [] [] []]) (arrays w) (envs w) (promises w) (jobs w)
       (timers w ++ map (task_of (length (gens w))) body) (log w)).
Proof.
  unfold Generator, Generator_with, bind. cbn.
  rewrite run_body_timers. reflexivity.
Qed.

(** [big = new Generator(A); big.done(la); small = new Generator(function
    that emits ys and then faults with e); small.catch(lb)], then
    [exclude(big, small)] observed by recording listeners. *)
Definition exclude_faulting_program (A ys : list item) (e : item)
    (ta tb te tc td : nat) : M genRef :=
  do big <~ Generator (PArray A);
  Generator_done big (LUser ta) ;;
  do small <~ Generator (faulting ys e);
  Generator_catch small (LUser tb) ;;
  do out <~ Generator_exclude big small None;
  Generator_emit out (LUser te) ;;
  Generator_catch out (LUser tc) ;;
  Generator_done out (LUser td) ;;
  ret out.

Lemma start_exclude_faulting A ys e ta tb te tc td :
  start (exclude_faulting_program A ys e ta tb te tc td)
  = mkWorld
      [mkGen [LThenPush 2] [] [LUser ta; LThenDone 2 (CbSetItemsA 1) 0];
       mkGen [LThenPush 3] [LUser tb] [LThenDone 3 (CbSetItemsB 1) 1];
       mkGen [LUser te] [LUser tc] [LUser td]]
      [[]; []; []; []]
      [EnvCancel false; EnvExclude 0 1]
      [mkPromise None [RAllElem 2] 0; mkPromise None [RAllElem 2] 0;
       mkPromise None [RExcludeJoin 1 strict_equals 2] 2]
      []
      ((map (fun x => TEmit 0 x (HookCancel 0)) A ++ [TDone 0])
         ++ map (fun x => TEmit 1 x HookNone) ys ++ [TCatch 1 e])
      [].
Proof.
  unfold start, exclude_faulting_program, faulting, bind.
  unfold Generator_done, Generator_emit, Generator_catch, exec, ret.
  rewrite Generator_array. cbn beta iota.
  rewrite Generator_function. cbn beta iota.
  rewrite map_app, map_map. reflexivity.
Qed.

(** X12. [exclude] passes no fault on: when the second input faults instead
    of completing, [exclude] neither emits, nor completes, nor faults; the
    loop comes to rest with the joint promise still waiting for one input. *)
Theorem X12_exclude_is_silent_when_an_input_faults
    (A ys : list item) (e : item) (ta tb te tc td extra : nat) :
  let w := run (length A + (2 + (length ys + (1 + extra))))
             (start (exclude_faulting_program A ys e ta tb te tc td)) in
  log w = [Seen ta EvDone; Seen tb (EvFault e)]
  ∧ promises w !! 2 = Some (mkPromise None [RExcludeJoin 1 strict_equals 2] 1)
  ∧ quiescent w.
Proof.
  cbv zeta. rewrite start_exclude_faulting, <- app_assoc.
  rewrite run_add.
  rewrite (run_items 0 (mkGen [LThenPush 2] [] [LUser ta; LThenDone 2 (CbSetItemsA 1) 0])
             (HookCancel 0) A
             (TDone 0 :: map (fun x => TEmit 1 x HookNone) ys ++ [TCatch 1 e]))
    by reflexivity.
  rewrite (foldl_dispatch_push _ 2) by reflexivity.
  rewrite run_add. turns 2.
  rewrite run_add.
  rewrite (run_items 1 (mkGen [LThenPush 3] [LUser tb] [LThenDone 3 (CbSetItemsB 1) 1])
             HookNone ys [TCatch 1 e])
    by reflexivity.
  rewrite (foldl_dispatch_push _ 3) by reflexivity.
  rewrite run_add. turns 1.
  by rewrite run_quiescent.
Qed.

(** [exclude(new Generator(A), new Generator(B), comparator).then(f)], the
    future observed. *)
Definition exclude_then_program (A B : list item)
    (comparator : option (item → item → bool)) (f : list item → Res) (tp : nat)
    : M promRef :=
  do big <~ Generator (PArray A);
  do small <~ Generator (PArray B);
  do out <~ Generator_exclude big small comparator;
  do p <~ Generator_then out (CbUser f);
  exec (promise_then p (RUser tp)) ;;
  ret p.

Lemma start_exclude_then A B comparator f tp :
  start (exclude_then_program A B comparator f tp)
  = mkWorld
      [mkGen [LThenPush 2] [] [LThenDone 2 (CbSetItemsA 2) 0];
       mkGen [LThenPush 3] [] [LThenDone 3 (CbSetItemsB 2) 1];
       mkGen [LThenPush 4] [] [LThenDone 4 (CbUser f) 3]]
      [[]; []; []; []; []]
      [EnvCancel false; EnvCancel false; EnvExclude 0 1]
      [mkPromise None [RAllElem 2] 0; mkPromise None [RAllElem 2] 0;
       mkPromise None [RExcludeJoin 2 (match comparator with
                                       | Some c => c
                                       | None => strict_equals
                                       end) 2] 2;
       mkPromise None [RUser tp] 0]
      []
      ((map (fun x => TEmit 0 x (HookCancel 0)) A ++ [TDone 0])
         ++ map (fun x => TEmit 1 x (HookCancel 1)) B ++ [TDone 1])
      [].
Proof.
  unfold start, exclude_then_program, bind.
  rewrite Generator_array. cbn beta iota.
  rewrite Generator_array. reflexivity.
Qed.

(** X13. The result of [exclude] is a Generator like any other: its [then]
    hands the callback the array of the items of [A] that no item of [B]
    matches, and the future is settled by what the callback makes of it. *)
Theorem X13_then_of_exclude_collects_the_difference
    (A B : list item) (comparator : option (item → item → bool))
    (f : list item → Res) (tp extra : nat) :
  let cmp := match comparator with Some c => c | None => strict_equals end in
  let s := settled_of (f (excluded cmp A B)) in
  let w := run (length A + (2 + (length B + (3 + (length (excluded cmp A B)
                                                   + (2 + extra))))))
             (start (exclude_then_program A B comparator f tp)) in
  log w = [Seen tp (ev_of_settled s)]
  ∧ promises w !! 3 = Some (mkPromise (Some s) [] 0)
  ∧ quiescent w.
Proof.
  intros cmp. cbv zeta. rewrite start_exclude_then, <- app_assoc. fold cmp.
  rewrite run_add.
  rewrite (run_items 0 (mkGen [LThenPush 2] [] [LThenDone 2 (CbSetItemsA 2) 0])
             (HookCancel 0) A
             (TDone 0 :: map (fun x => TEmit 1 x (HookCancel 1)) B ++ [TDone 1]))
    by reflexivity.
  rewrite (foldl_dispatch_push _ 2) by reflexivity.
  rewrite run_add. turns 2.
  rewrite run_add.
  rewrite (run_items 1 (mkGen [LThenPush 3] [] [LThenDone 3 (CbSetItemsB 2) 1])
             (HookCancel 1) B [TDone 1])
    by reflexivity.
  rewrite (foldl_dispatch_push _ 3) by reflexivity.
  rewrite run_add. turns 3.
  rewrite exclude_loop_timers.
  rewrite run_add.
  rewrite (run_items 2 (mkGen [LThenPush 4] [] [LThenDone 4 (CbUser f) 3])
             HookNone (excluded cmp A B) [TDone 2])
    by reflexivity.
  rewrite (foldl_dispatch_push _ 4) by reflexivity.
  rewrite run_add. cbn. unfold read_array. cbn.
  destruct (f (excluded cmp A B)); cbn; by rewrite run_quiescent.
Qed.

(** ** The closure variable of an intersection when the loop is at rest *)

Section IntersectionState.

Context {St : Type} (inj : St → Env) (stepf : St → item → St * option item).
Context (handleEmit : Listener) (env : envRef) (out : genRef) (all : promRef).
Context (te tc td : nat).

Hypothesis handleEmit_spec : ∀ w st args,
  envs w !! env = Some (inj st) →
  invoke handleEmit args w
  = match (stepf st (arg0 args)).2 with
    | Some y => emit out y HookNone
    | None => id
    end (with_envs (fun l => <[env := inj (stepf st (arg0 args)).1]> l) w).
Hypothesis handleEmit_quiet : quiet handleEmit = true.

(** After the run of [inputs_run] the closure variable holds the state
    [handleEmit] has reached over all the items. *)
Lemma inputs_envs ins : ∀ gs arrs es ps lg st outq extra,
  ins ≠ [] →
  Forall (ready handleEmit all ps gs) ins →
  NoDup (flat_map input_proms ins) →
  all ∉ flat_map input_proms ins →
  es !! env = Some (inj st) →
  ps !! all = Some (mkPromise None [RDone out] (length ins)) →
  gs !! out = Some (mkGen [LUser te] [LUser tc] [LUser td]) →
  let em := (run_handler stepf st (flat_map in_items ins)).2 in
  let w := run (length (flat_map in_items ins) + 2 * length ins
                + (length outq + length em + 2) + extra)
             (mkWorld gs arrs es ps []
                (flat_map input_timers ins ++ map (fun y => TEmit out y HookNone) outq)
                lg) in
  envs w !! env = Some (inj (run_handler stepf st (flat_map in_items ins)).1).
Proof.
  induction ins as [|i ins IH]; intros gs arrs es ps lg st outq extra
    Hne Hready Hnd Hnotin Henv Hall Hout; [done|].
  apply Forall_cons in Hready as [Hi Hrest].
  cbn [flat_map] in Hnd, Hnotin.
  apply NoDup_app in Hnd as (Hnd_i & Hdisj & Hnd_rest).
  apply not_elem_of_app in Hnotin as [Hnotin_i Hnotin_rest].
  cbn [flat_map length]. cbv zeta.
  rewrite run_handler_app. cbn [fst snd].
  set (st1 := (run_handler stepf st (in_items i)).1).
  set (em_i := (run_handler stepf st (in_items i)).2).
  set (em_rest := (run_handler stepf st1 (flat_map in_items ins)).2).
  assert (env < length es) as Hlt by (by eapply lookup_lt_Some).
  destruct ins as [|j ins'].
  - edestruct (input_phase inj stepf handleEmit env out all handleEmit_spec
                 handleEmit_quiet i (map (fun y => TEmit out y HookNone) outq)
                 gs arrs es ps lg st [RDone out] 0)
      as (arrs' & ps' & Hrun & _ & _ & _); [done..|].
    fold st1 em_i in Hrun.
    cbn [flat_map length] in *. unfold em_rest. cbn [run_handler snd fst].
    rewrite !app_nil_r.
    replace (length (in_items i) + 2 * 1 + (length outq + length em_i + 2) + extra)
      with ((length (in_items i) + 2) + (1 + (length (outq ++ em_i) + 1 + extra)))
      by (rewrite length_app; lia).
    rewrite run_add, Hrun. cbn [map].
    rewrite run_add, (run_job_first 0 _ (JReact (RDone out) (Fulfilled undefined)) [])
      by reflexivity.
    cbn [run run_job react]. unfold done, setTimeout. wcbn.
    rewrite <- map_app, run_add.
    rewrite (run_user_stream out te tc td HookNone (outq ++ em_i)) by done.
    rewrite run_quiescent by reflexivity. wcbn.
    by apply list_lookup_insert_eq.
  - edestruct (input_phase inj stepf handleEmit env out all handleEmit_spec
                 handleEmit_quiet i
                 (flat_map input_timers (j :: ins') ++ map (fun y => TEmit out y HookNone) outq)
                 gs arrs es ps lg st [RDone out] (S (length ins')))
      as (arrs' & ps' & Hrun & Hlen & Hframe & Hall'); [done..|].
    fold st1 em_i in Hrun.
    rewrite <- app_assoc.
    replace (length (in_items i ++ flat_map in_items (j :: ins')) + 2 * S (length (j :: ins'))
             + (length outq + length (em_i ++ em_rest) + 2) + extra)
      with ((length (in_items i) + 2)
            + (length (flat_map in_items (j :: ins')) + 2 * length (j :: ins')
               + (length (outq ++ em_i) + length em_rest + 2) + extra))
      by (rewrite !length_app; lia).
    rewrite run_add, Hrun. rewrite <- app_assoc, <- map_app.
    assert (Forall (ready handleEmit all ps' gs) (j :: ins')) as Hready'.
    { apply Forall_forall. intros k Hk.
      apply (ready_frame inj stepf handleEmit env out all handleEmit_spec handleEmit_quiet
               ps ps' gs k);
        [|by eapply Forall_forall in Hrest].
      intros q Hqk.
      assert (q ∈ flat_map input_proms (j :: ins')) as Hqin.
      { apply list_elem_of_In, in_flat_map. exists k. split; by apply list_elem_of_In. }
      apply Hframe; [intros Hc; by eapply Hdisj | by intros ->]. }
    assert (<[env := inj st1]> es !! env = Some (inj st1)) as Henv'
      by (by apply list_lookup_insert_eq).
    exact (IH gs arrs' (<[env := inj st1]> es) ps' (lg ++ [Seen (in_tag i) EvDone])
             st1 (outq ++ em_i) extra ltac:(done) Hready' Hnd_rest Hnotin_rest Henv'
             Hall' Hout).
Qed.

End IntersectionState.

(** The [map] of intersectByHash when the loop is at rest. *)
Lemma hash_envs hasher tin As te tc td extra :
  let K := length As in
  let em := hash_emitted hasher K (concat As) in
  let w := run (length (concat As) + 2 * K + (length em + 2) + extra)
             (start (hash_program hasher tin As te tc td)) in
  envs w !! K
  = Some (EnvHash (run_handler (handleEmit_hash hasher K) empty_object (concat As)).1).
Proof.
  destruct As as [|A As].
  - cbv zeta. rewrite run_add, (run_quiescent extra) by reflexivity. reflexivity.
  - intros K em w. unfold w. rewrite start_hash. fold K.
    pose proof (inputs_envs EnvHash (handleEmit_hash hasher K) (LHashEmit K hasher K K)
                  K K K te tc td (LHashEmit_spec K hasher K K) eq_refl
                  (hash_inputs 0 0 tin (A :: As))
                  (wired_hash (LHashEmit K hasher K K) 0 tin (A :: As)
                     ++ [mkGen [LUser te] [LUser tc] [LUser td]])
                  [] (replicate K (EnvCancel false) ++ [EnvHash empty_object])
                  (replicate K (mkPromise None [RAllElem K] 0)
                     ++ [mkPromise None [RDone K] K])
                  [] empty_object [] extra) as Henv.
    cbv zeta in Henv.
    rewrite hash_inputs_timers, hash_inputs_items, length_hash_inputs, app_nil_r in Henv.
    apply Henv.
    + done.
    + exact (hash_inputs_ready (LHashEmit K hasher K K) K (A :: As) []
               [mkGen [LUser te] [LUser tc] [LUser td]] []
               [mkPromise None [RDone K] K] tin).
    + rewrite hash_inputs_proms. apply NoDup_seq.
    + rewrite hash_inputs_proms, elem_of_seq. unfold K. lia.
    + apply lookup_at_length, length_replicate.
    + apply lookup_at_length, length_replicate.
    + apply lookup_at_length, length_wired_hash.
Qed.

(** [distinctItems] of intersectByComparison when the loop is at rest. *)
Lemma cmp_envs comparator tin As te tc td extra :
  let K := length As in
  let em := cmp_emitted comparator K (concat As) in
  let w := run (length (concat As) + 2 * K + (length em + 2) + extra)
             (start (cmp_program comparator tin As te tc td)) in
  envs w !! K
  = Some (EnvCmp (run_handler (handleEmit_cmp comparator K) [] (concat As)).1).
Proof.
  destruct As as [|A As].
  - cbv zeta. rewrite run_add, (run_quiescent extra) by reflexivity. reflexivity.
  - intros K em w. unfold w. rewrite start_cmp. fold K.
    pose proof (inputs_envs EnvCmp (handleEmit_cmp comparator K) (LCmpEmit K comparator K K)
                  K K (2 * K) te tc td (LCmpEmit_spec K comparator K K) eq_refl
                  (cmp_inputs 0 0 0 tin (A :: As))
                  (wired_cmp (LCmpEmit K comparator K K) 0 0 tin (A :: As)
                     ++ [mkGen [LUser te] [LUser tc] [LUser td]])
                  (replicate K []) (replicate K (EnvCancel false) ++ [EnvCmp []])
                  (pairs [RAllElem (2 * K)] K ++ [mkPromise None [RDone K] K])
                  [] [] [] extra) as Henv.
    cbv zeta in Henv.
    rewrite cmp_inputs_timers, cmp_inputs_items, length_cmp_inputs, app_nil_r in Henv.
    apply Henv.
    + done.
    + exact (cmp_inputs_ready (LCmpEmit K comparator K K) (2 * K) (A :: As) []
               [mkGen [LUser te] [LUser tc] [LUser td]] []
               [mkPromise None [RDone K] K] 0 tin).
    + rewrite cmp_inputs_proms. apply NoDup_seq.
    + rewrite cmp_inputs_proms, elem_of_seq. unfold K. lia.
    + apply lookup_at_length, length_replicate.
    + apply lookup_at_length, length_pairs.
    + apply lookup_at_length, length_wired_cmp.
Qed.

(** ** The object [map] of intersectByHash, as an invariant *)

(** X14. When intersectByHash over the Generators of any arrays has come to
    rest, [map] holds under every plain key the number of items with that
    key in all the inputs together, and no property for a plain key that
    has not arrived: every stored counter is positive, so that for these
    keys the test [if (map[id])] is a test for presence.  Under the name
    of an inherited method that has arrived it holds a string, and
    [__proto__] still answers with the prototype. *)
Theorem X14_intersectByHash_map_counts_arrivals
    (hasher : item → key) (As : list (list item)) (tin te tc td extra : nat) :
  let K := length As in
  let em := filter (fun y => plain (hasher y)) (kth_occurrences hasher K [] (concat As)) in
  let w := run (length (concat As) + 2 * K + (length em + 2) + extra)
             (start (hash_program hasher tin As te tc td)) in
  ∃ map, envs w !! K = Some (EnvHash map)
         ∧ (∀ k, map !! k = stored k (occ hasher k (concat As)))
         ∧ (∀ k, plain k →
              map !! k = if decide (occ hasher k (concat As) = 0) then None
                         else Some (VNumber (occ hasher k (concat As))))
         ∧ (∀ k n, map !! k = Some (VNumber n) → plain k ∧ n ≠ 0).
Proof.
  cbv zeta. rewrite <- hash_emitted_kth.
  eexists. split; [apply hash_envs|].
  destruct (run_handler_hash hasher (length As) (concat As) empty_object [])
    as [_ Hmap]; [apply empty_object_stored|].
  cbn [app] in Hmap. split; [exact Hmap|]. split.
  - intros k Hk. rewrite Hmap. unfold stored. by rewrite Hk.
  - intros k n. rewrite Hmap. unfold stored, plain.
    destruct (Object_prototype !! k) as [[]|].
    + by destruct (decide _).
    + done.
    + destruct (decide _); [done|]. intros [= <-]. done.
Qed.

(** ** [exclude] and items that follow a completion *)

(** [big] is a producer function that emits [A1], calls [done()] and goes
    on to emit [A2]; [small = new Generator(B)]. *)
Definition exclude_late_program (A1 A2 B : list item)
    (comparator : option (item → item → bool)) (te tc td : nat) : M genRef :=
  do big <~ Generator (PFunction (map ActEmit A1 ++ [ActDone] ++ map ActEmit A2));
  do small <~ Generator (PArray B);
  do out <~ Generator_exclude big small comparator;
  Generator_emit out (LUser te) ;;
  Generator_catch out (LUser tc) ;;
  Generator_done out (LUser td) ;;
  ret out.

Lemma start_exclude_late A1 A2 B comparator te tc td :
  start (exclude_late_program A1 A2 B comparator te tc td)
  = mkWorld
      [mkGen [LThenPush 2] [] [LThenDone 2 (CbSetItemsA 1) 0];
       mkGen [LThenPush 3] [] [LThenDone 3 (CbSetItemsB 1) 1];
       mkGen [LUser te] [LUser tc] [LUser td]]
      [[]; []; []; []]
      [EnvCancel false; EnvExclude 0 1]
      [mkPromise None [RAllElem 2] 0; mkPromise None [RAllElem 2] 0;
       mkPromise None [RExcludeJoin 1 (match comparator with
                                       | Some c => c
                                       | None => strict_equals
                                       end) 2] 2]
      []
      ((map (fun x => TEmit 0 x HookNone) A1
          ++ TDone 0 :: map (fun x => TEmit 0 x HookNone) A2)
         ++ map (fun x => TEmit 1 x (HookCancel 0)) B ++ [TDone 1])
      [].
Proof.
  unfold start, exclude_late_program, bind.
  unfold Generator_done, Generator_emit, Generator_catch, exec, ret.
  rewrite Generator_function. cbn beta iota.
  rewrite Generator_array. cbn beta iota.
  rewrite !map_app, !map_map. reflexivity.
Qed.

(** X15. [exclude] keeps the very array that [then] fills, so it also
    counts what its first input emits after having completed, as long as
    that arrives before the second input completes: with a first input
    that emits [A1], completes, and emits [A2], the items compared against
    [B] are those of [A1 ++ A2]. *)
Theorem X15_exclude_counts_items_emitted_after_completion
    (A1 A2 B : list item) (comparator : option (item → item → bool))
    (te tc td extra : nat) :
  let cmp := match comparator with Some c => c | None => strict_equals end in
  let em := excluded cmp (A1 ++ A2) B in
  let w := run (length A1 + (2 + (length A2 + (length B + (3 + (length em + 1 + extra))))))
             (start (exclude_late_program A1 A2 B comparator te tc td)) in
  log w = map (fun x => Seen te (EvItem x)) em ++ [Seen td EvDone]
  ∧ quiescent w.
Proof.
  intros cmp. cbv zeta. rewrite start_exclude_late. fold cmp.
  rewrite <- app_assoc. cbn [app].
  rewrite run_add.
  rewrite (run_items 0 (mkGen [LThenPush 2] [] [LThenDone 2 (CbSetItemsA 1) 0])
             HookNone A1
             (TDone 0 :: map (fun x => TEmit 0 x HookNone) A2
                ++ map (fun x => TEmit 1 x (HookCancel 0)) B ++ [TDone 1]))
    by reflexivity.
  rewrite (foldl_dispatch_push _ 2) by reflexivity.
  rewrite run_add. turns 2.
  rewrite run_add.
  rewrite (run_items 0 (mkGen [LThenPush 2] [] [LThenDone 2 (CbSetItemsA 1) 0])
             HookNone A2
             (map (fun x => TEmit 1 x (HookCancel 0)) B ++ [TDone 1]))
    by reflexivity.
  rewrite (foldl_dispatch_push _ 2) by reflexivity.
  rewrite run_add.
  rewrite (run_items 1 (mkGen [LThenPush 3] [] [LThenDone 3 (CbSetItemsB 1) 1])
             (HookCancel 0) B [TDone 1])
    by reflexivity.
  rewrite (foldl_dispatch_push _ 3) by reflexivity.
  rewrite run_add. turns 3.
  rewrite exclude_loop_timers.
  rewrite run_add.
  rewrite (run_user_stream 2 te tc td HookNone (excluded cmp (A1 ++ A2) B)) by reflexivity.
  by rewrite run_quiescent.
Qed.

(** ** [then] in the legacy revision *)

Lemma legacy_then_settled_fold f tc body : ∀ s arr js l,
  foldl (fun w t => run_task t w)
    (mkWorld [mkGen [LThenPush 0] [LUser tc] [LThenDone 0 (CbUser f) 0]]
       [arr] [] [mkPromise (Some s) [] 0] js [] l)
    (map (task_of 0) body)
  = mkWorld [mkGen [LThenPush 0] [LUser tc] [LThenDone 0 (CbUser f) 0]]
      [arr ++ emitted body] [] [mkPromise (Some s) [] 0] js [] (l ++ faults tc body).
Proof.
  induction body as [|a body IH]; intros s arr js l.
  - cbn. by rewrite !app_nil_r.
  - cbn [map foldl]. destruct a as [x| |e]; cbn [emitted faults].
    + etrans; [exact (IH s (arr ++ [x]) js l)|]. by rewrite <- app_assoc.
    + etrans; [|exact (IH s arr js l)]. f_equal.
      cbn. unfold read_array. cbn. by destruct (f arr).
    + etrans; [exact (IH s arr js (l ++ [Seen tc (EvFault e)]))|].
      by rewrite <- app_assoc.
Qed.

Lemma legacy_then_fold f tc tp body : ∀ arr l,
  foldl (fun w t => run_task t w)
    (mkWorld [mkGen [LThenPush 0] [LUser tc] [LThenDone 0 (CbUser f) 0]]
       [arr] [] [mkPromise None [RUser tp] 0] [] [] l)
    (map (task_of 0) body)
  = match after_done body with
    | Some _ =>
        let s := settled_of (f (arr ++ emitted (until_done body))) in
        mkWorld [mkGen [LThenPush 0] [LUser tc] [LThenDone 0 (CbUser f) 0]]
          [arr ++ emitted body] [] [mkPromise (Some s) [] 0] [JReact (RUser tp) s] []
          (l ++ faults tc body)
    | None =>
        mkWorld [mkGen [LThenPush 0] [LUser tc] [LThenDone 0 (CbUser f) 0]]
          [arr ++ emitted body] [] [mkPromise None [RUser tp] 0] [] []
          (l ++ faults tc body)
    end.
Proof.
  induction body as [|a body IH]; intros arr l.
  - cbn. by rewrite !app_nil_r.
  - cbn [map foldl]. destruct a as [x| |e]; cbn [after_done until_done emitted faults].
    + etrans; [exact (IH (arr ++ [x]) l)|].
      destruct (after_done body); cbv zeta; by rewrite <- !app_assoc.
    + cbv zeta. rewrite app_nil_r.
      etrans; [|exact (legacy_then_settled_fold f tc body _ arr _ l)].
      f_equal. cbn. unfold read_array. cbn. by destruct (f arr).
    + etrans; [exact (IH arr (l ++ [Seen tc (EvFault e)]))|].
      destruct (after_done body); cbv zeta; by rewrite <- !app_assoc.
Qed.

(** X16. In the legacy revision the future of [then] is settled as in the
    later one, by what the callback makes of the items emitted before the
    first call of [done()]; but the producer function runs to its end in
    one turn, so the observer of the future is called after every fault of
    the producer has been delivered, those that follow the completion
    included. *)
Theorem X16_legacy_then_future_is_settled_at_the_first_completion
    (body : list Action) (f : list item → Res) (tc tp extra : nat) :
  let w := run (2 + extra)
             (start (then_program legacy_Generator (PFunction body) f tc tp)) in
  let s := settled_of (f (emitted (until_done body))) in
  match after_done body with
  | Some _ =>
      promises w !! 0 = Some (mkPromise (Some s) [] 0)
      ∧ log w = faults tc body ++ [Seen tp (ev_of_settled s)]
  | None =>
      promises w !! 0 = Some (mkPromise None [RUser tp] 0)
      ∧ log w = faults tc body
  end
  ∧ read_array 0 w = emitted body
  ∧ quiescent w.
Proof.
  cbv zeta.
  change (start (then_program legacy_Generator (PFunction body) f tc tp))
    with (mkWorld [mkGen [LThenPush 0] [LUser tc] [LThenDone 0 (CbUser f) 0]]
            [[]] [] [mkPromise None [RUser tp] 0] [] [TStart 0 (PFunction body)] []).
  change (2 + extra) with (S (1 + extra)).
  rewrite (run_timer _ _ (TStart 0 (PFunction body)) []) by done.
  cbn [run_task legacy_start]. rewrite legacy_run_body_foldl.
  change (with_timers _ _)
    with (mkWorld [mkGen [LThenPush 0] [LUser tc] [LThenDone 0 (CbUser f) 0]]
            [[]] [] [mkPromise None [RUser tp] 0] [] [] []).
  rewrite legacy_then_fold. destruct (after_done body); cbv zeta.
  - cbn [app]. destruct (f (emitted (until_done body)));
      cbn [settled_of ev_of_settled]; rewrite run_add; turns 1;
      by rewrite run_quiescent.
  - by rewrite run_quiescent.
Qed.

(** ** Deregistration and [then] in a later turn *)

(** X17. A listener that the caller deregisters after [length pre] items
    have been delivered has received exactly those, and receives none of
    the items that follow; the other listeners are not affected. *)
Theorem X17_deregistered_listener_receives_nothing_more
    (pre post : list item) (t1 t2 td extra : nat) :
  t1 ≠ t2 →
  let w0 := start (observed_by (PArray (pre ++ post)) [t1; t2] td) in
  let w1 := (Generator_deregister 0 "emit" (LUser t2) (run (length pre) w0)).2 in
  let w := run (length post + 1 + extra) w1 in
  log w = flat_map (fun x => [Seen t1 (EvItem x); Seen t2 (EvItem x)]) pre
          ++ map (fun x => Seen t1 (EvItem x)) post
          ++ [Seen td EvDone]
  ∧ quiescent w.
Proof.
  intros Hne. cbv zeta. rewrite start_observed_by, map_app, <- app_assoc.
  rewrite (run_items 0 (mkGen [LUser t1; LUser t2] [] [LUser td]) (HookCancel 0) pre
             (map (fun x => TEmit 0 x (HookCancel 0)) post ++ [TDone 0])) by done.
  rewrite (foldl_dispatch_users _ [t1; t2]) by done.
  unfold Generator_deregister. change (event_list "emit") with (Some KEmit).
  cbn [snd]. unfold with_gens, with_log, with_timers.
  cbn [gens arrays envs promises jobs timers log].
  match goal with |- context [alter ?f 0 [?G]] => change (alter f 0 [G]) with [f G] end.
  assert (indexOf [LUser t1; LUser t2] (LUser t2) = Some 1) as Hidx.
  { apply (indexOf_users_first [t1] t2 []). by intros ->%list_elem_of_singleton. }
  cbn [registered _registeredEmits map]. rewrite Hidx.
  cbn [set_registered delete list_delete registered
         _registeredEmits _registeredCatches _registeredDones].
  rewrite <- Nat.add_assoc, run_add.
  rewrite (run_items 0 (mkGen [LUser t1] [] [LUser td]) (HookCancel 0) post [TDone 0])
    by done.
  rewrite (foldl_dispatch_user _ t1) by done.
  rewrite run_add. cbn. rewrite run_quiescent by done.
  split; [|done]. cbn. by rewrite <- app_assoc.
Qed.

(** X18. [then] collects from the moment it is called: called after
    [length pre] items have been delivered, it hands its callback the
    items that follow, and none of the earlier ones. *)
Theorem X18_late_then_collects_only_what_follows
    (pre post : list item) (f : list item → Res) (td tp extra : nat) :
  let w0 := start (observed_by (PArray (pre ++ post)) [] td) in
  let w1 := ((do p <~ Generator_then 0 (CbUser f);
              exec (promise_then p (RUser tp))) (run (length pre) w0)).2 in
  let w := run (length post + 2 + extra) w1 in
  log w = [Seen td EvDone; Seen tp (ev_of_settled (settled_of (f post)))]
  ∧ quiescent w.
Proof.
  cbv zeta. rewrite start_observed_by, map_app, <- app_assoc.
  rewrite (run_items 0 (mkGen [] [] [LUser td]) (HookCancel 0) pre
             (map (fun x => TEmit 0 x (HookCancel 0)) post ++ [TDone 0])) by done.
  rewrite (foldl_dispatch_users _ []) by done.
  assert (deliveries [] pre = []) as -> by (by induction pre).
  change ((do p <~ Generator_then 0 (CbUser f); exec (promise_then p (RUser tp))) ?w).2
    with (mkWorld [mkGen [LThenPush 0] [] [LUser td; LThenDone 0 (CbUser f) 0]]
            [[]] [EnvCancel false] [mkPromise None [RUser tp] 0] []
            (map (fun x => TEmit 0 x (HookCancel 0)) post ++ [TDone 0]) []).
  rewrite <- Nat.add_assoc, run_add.
  rewrite (run_items 0 (mkGen [LThenPush 0] [] [LUser td; LThenDone 0 (CbUser f) 0])
             (HookCancel 0) post [TDone 0]) by done.
  rewrite (foldl_dispatch_push _ 0) by done.
  rewrite run_add. cbn. unfold read_array. cbn.
  destruct (f post); cbn; by rewrite run_quiescent.
Qed.

(** ** The records of intersectByComparison, as an invariant *)

Section Records.

Context (hasher : item → key) (comparator : item → item → bool) (K : nat).
Hypothesis same_equality : ∀ a b, comparator a b = true ↔ hasher a = hasher b.

Definition dkey (d : Distinct) : key := hasher (d_item d).

(** What a record says after the arrivals [seen]: it holds the first
    arrival with its key and the number of arrivals with that key, and its
    flag is set if and only if that number has reached [K]. *)
Definition record_of (seen : list item) (d : Distinct) : Prop :=
  first_key hasher (dkey d) seen = Some (d_item d)
  ∧ d_count d = occ hasher (dkey d) seen
  ∧ (d_emitted d = true ↔ 1 ≤ K ≤ d_count d).

Definition records_of (seen : list item) (ds : list Distinct) : Prop :=
  NoDup (map dkey ds)
  ∧ (∀ k, k ∈ map dkey ds ↔ k ∈ map hasher seen)
  ∧ Forall (record_of seen) ds.

Lemma scan_distinct_None ds x :
  scan_distinct comparator K ds x = None ↔ hasher x ∉ map dkey ds.
Proof.
  induction ds as [|d ds IH]; [split; [intros _; apply not_elem_of_nil|done]|].
  cbn [scan_distinct map]. rewrite (comparator_decide hasher comparator same_equality).
  rewrite not_elem_of_cons. fold (dkey d). case_bool_decide as Hkey.
  - split.
    + by destruct (negb (d_emitted d) && bool_decide (d_count d + 1 = K)).
    + intros [Hne _]. by destruct Hne.
  - destruct (scan_distinct comparator K ds x) as [[rest o]|].
    + split; [done|]. intros [_ Hout]. by apply IH in Hout.
    + split; [|done]. intros _. split; [|by apply IH].
      intros Heq. apply Hkey. symmetry. exact Heq.
Qed.

Lemma scan_distinct_Some ds x ds' o :
  scan_distinct comparator K ds x = Some (ds', o) →
  ∃ pre d post,
    ds = pre ++ d :: post
    ∧ dkey d = hasher x
    ∧ (hasher x ∉ map dkey pre)
    ∧ ds' = pre ++ mkDistinct (d_item d) (d_count d + 1)
                     (d_emitted d || bool_decide (d_count d + 1 = K)) :: post.
Proof.
  revert ds' o. induction ds as [|d ds IH]; intros ds' o Hscan; [done|].
  cbn [scan_distinct] in Hscan.
  rewrite (comparator_decide hasher comparator same_equality) in Hscan.
  case_bool_decide as Hkey.
  - exists [], d, ds. split; [done|]. split; [done|]. split; [apply not_elem_of_nil|].
    destruct (d_emitted d); cbn [negb andb orb] in *.
    + by injection Hscan as <- <-.
    + by destruct (bool_decide (d_count d + 1 = K)); injection Hscan as <- <-.
  - destruct (scan_distinct comparator K ds x) as [[rest o']|] eqn:E; [|done].
    injection Hscan as <- <-.
    destruct (IH rest o' eq_refl) as (pre & e & post & -> & Hek & Hpre & ->).
    exists (d :: pre), e, post. split; [done|]. split; [done|]. split; [|done].
    cbn [map]. apply not_elem_of_cons. split; [|done]. intros Heq. by apply Hkey.
Qed.

Lemma first_key_None k seen : k ∉ map hasher seen → first_key hasher k seen = None.
Proof.
  induction seen as [|s seen IH]; [done|]. cbn [map first_key].
  intros [Hne Hout]%not_elem_of_cons. rewrite decide_False by done. by apply IH.
Qed.

Lemma first_key_occ k seen z : first_key hasher k seen = Some z → 1 ≤ occ hasher k seen.
Proof.
  induction seen as [|s seen IH]; [done|]. cbn [first_key occ].
  destruct (decide (hasher s = k)); [lia|]. intros H. apply IH in H. lia.
Qed.

Lemma record_of_other seen x d :
  dkey d ≠ hasher x → record_of seen d → record_of (seen ++ [x]) d.
Proof.
  intros Hne (Hfirst & Hcount & Hflag). split; [|split; [|done]].
  - by rewrite first_key_app, Hfirst.
  - rewrite occ_snoc, decide_False by done. lia.
Qed.

Lemma records_of_step seen ds x :
  records_of seen ds →
  records_of (seen ++ [x]) (handleEmit_cmp comparator K ds x).1.
Proof.
  intros (Hnd & Hkeys & Hrec). unfold handleEmit_cmp.
  destruct (scan_distinct comparator K ds x) as [[ds' o]|] eqn:Hscan.
  - destruct (scan_distinct_Some ds x ds' o Hscan)
      as (pre & d & post & -> & Hd & Hpre & ->).
    cbn [fst]. rewrite map_app in Hnd, Hkeys. cbn [map] in Hnd, Hkeys.
    pose proof Hnd as Hnd0.
    apply NoDup_app in Hnd as (Hnd1 & Hdisj & Hnd2).
    apply NoDup_cons in Hnd2 as [Hdpost Hnd2].
    apply Forall_app in Hrec as [Hrpre Hrpost].
    apply Forall_cons in Hrpost as [(Hfirst & Hcount & Hflag) Hrpost].
    split; [|split].
    + rewrite map_app. exact Hnd0.
    + intros k. rewrite map_app. cbn [map]. change (dkey (mkDistinct _ _ _)) with (dkey d).
      rewrite Hkeys, map_app, elem_of_app. cbn [map].
      rewrite list_elem_of_singleton. split; [by left|].
      intros [Hk| ->]; [done|]. apply Hkeys. rewrite elem_of_app. right.
      rewrite <- Hd. left.
    + apply Forall_app. split; [|apply Forall_cons; split].
      * apply Forall_forall. intros e He. apply record_of_other.
        -- intros Heq. apply Hpre. rewrite <- Heq. apply list_elem_of_fmap. by exists e.
        -- rewrite Forall_forall in Hrpre. by apply Hrpre.
      * unfold record_of. change (dkey (mkDistinct _ _ _)) with (dkey d).
        cbn [d_item d_count d_emitted].
        pose proof (first_key_occ _ _ _ Hfirst) as Hpos.
        split; [by rewrite first_key_app, Hfirst|].
        split; [rewrite occ_snoc, decide_True by done; lia|].
        rewrite orb_true_iff, bool_decide_eq_true.
        destruct Hflag as [Hf1 Hf2]. split.
        -- intros [He|Heq]; [apply Hf1 in He; lia|lia].
        -- intros HK. destruct (decide (d_count d + 1 = K)) as [|Hne]; [by right|].
           left. apply Hf2. lia.
      * apply Forall_forall. intros e He. apply record_of_other.
        -- intros Heq. apply Hdpost. rewrite Hd, <- Heq.
           apply list_elem_of_fmap. by exists e.
        -- rewrite Forall_forall in Hrpost. by apply Hrpost.
  - apply scan_distinct_None in Hscan.
    assert (hasher x ∉ map hasher seen) as Hseen by (by rewrite <- Hkeys).
    assert (∀ b, (b = true ↔ 1 ≤ K ≤ 1) →
              records_of (seen ++ [x]) (ds ++ [mkDistinct x 1 b])) as Hnew.
    { intros b Hb. split; [|split].
      - rewrite map_app. apply NoDup_app. split; [done|]. split; [|apply NoDup_singleton].
        intros k Hk ->%list_elem_of_singleton. done.
      - intros k. rewrite !map_app, !elem_of_app, Hkeys. done.
      - apply Forall_app. split.
        + apply Forall_forall. intros e He. apply record_of_other.
          * intros Heq. apply Hscan. rewrite <- Heq. apply list_elem_of_fmap. by exists e.
          * rewrite Forall_forall in Hrec. by apply Hrec.
        + apply Forall_singleton. unfold record_of, dkey. cbn [d_item d_count d_emitted].
          split; [|split; [|done]].
          * rewrite first_key_app, first_key_None by done. cbn. by rewrite decide_True.
          * rewrite occ_snoc, occ_zero, decide_True by done. done. }
    case_bool_decide; cbn [fst]; apply Hnew; lia.
Qed.

Lemma records_of_run xs : ∀ ds seen,
  records_of seen ds →
  records_of (seen ++ xs) (run_handler (handleEmit_cmp comparator K) ds xs).1.
Proof.
  induction xs as [|x xs IH]; intros ds seen Hinv.
  - by rewrite app_nil_r.
  - cbn [run_handler]. pose proof (records_of_step seen ds x Hinv) as Hstep.
    destruct (handleEmit_cmp comparator K ds x) as [ds1 o]. cbn [fst] in Hstep.
    specialize (IH ds1 (seen ++ [x]) Hstep). rewrite <- app_assoc in IH. cbn [app] in IH.
    by destruct (run_handler _ ds1 xs).
Qed.

(** With a comparator that expresses the equality of keys,
    [distinctItems] holds, after any arrivals, exactly one record for every
    key that has arrived. *)
Lemma distinctItems_records (xs : list item) :
  let ds := (run_handler (handleEmit_cmp comparator K) [] xs).1 in
  NoDup (map (fun d => hasher (d_item d)) ds)
  ∧ (∀ k, k ∈ map (fun d => hasher (d_item d)) ds ↔ k ∈ map hasher xs)
  ∧ Forall (fun d =>
              first_key hasher (hasher (d_item d)) xs = Some (d_item d)
              ∧ d_count d = occ hasher (hasher (d_item d)) xs
              ∧ (d_emitted d = true ↔ 1 ≤ K ≤ d_count d)) ds.
Proof.
  apply (records_of_run xs [] []). split; [constructor|]. split; [done|constructor].
Qed.

End Records.

(** X19. When intersectByComparison over the Generators of any arrays,
    with a comparator that expresses the equality of keys, has come to
    rest, [distinctItems] holds exactly one record for every key that
    occurs in the inputs; the record holds the first item with that key
    and the number of items with it, and its [emitted] flag is set if and
    only if that number has reached the number of inputs. *)
Theorem X19_intersectByComparison_keeps_one_record_per_key
    (hasher : item → key) (comparator : item → item → bool)
    (As : list (list item)) (tin te tc td extra : nat) :
  (∀ a b, comparator a b = true ↔ hasher a = hasher b) →
  let K := length As in
  let xs := concat As in
  let em := cmp_emitted comparator K xs in
  let w := run (length xs + 2 * K + (length em + 2) + extra)
             (start (cmp_program comparator tin As te tc td)) in
  ∃ ds, envs w !! K = Some (EnvCmp ds)
        ∧ NoDup (map (fun d => hasher (d_item d)) ds)
        ∧ (∀ k, k ∈ map (fun d => hasher (d_item d)) ds ↔ k ∈ map hasher xs)
        ∧ Forall (fun d =>
                    first_key hasher (hasher (d_item d)) xs = Some (d_item d)
                    ∧ d_count d = occ hasher (hasher (d_item d)) xs
                    ∧ (d_emitted d = true ↔ 1 ≤ K ≤ d_count d)) ds.
Proof.
  intros Hsame K xs em w.
  eexists. split; [apply cmp_envs|].
  apply (distinctItems_records hasher comparator K Hsame).
Qed.

(** ** An intersection when an input faults *)

(** [g1 = new Generator(A); g1.done(l1); g2 = new Generator(function that
    emits ys and then faults with e); g2.catch(l2)], then
    [intersectByHash([g1, g2], hasher)] observed by recording listeners. *)
Definition hash_faulting_program (hasher : item → key) (A ys : list item) (e : item)
    (tin tb te tc td : nat) : M genRef :=
  do g1 <~ Generator (PArray A);
  Generator_done g1 (LUser tin) ;;
  do g2 <~ Generator (faulting ys e);
  Generator_catch g2 (LUser tb) ;;
  do out <~ Generator_intersectByHash [g1; g2] hasher;
  Generator_emit out (LUser te) ;;
  Generator_catch out (LUser tc) ;;
  Generator_done out (LUser td) ;;
  ret out.

Lemma start_hash_faulting hasher A ys e tin tb te tc td :
  start (hash_faulting_program hasher A ys e tin tb te tc td)
  = mkWorld
      [mkGen [LHashEmit 1 hasher 2 2] [] [LUser tin; LResolve 0];
       mkGen [LHashEmit 1 hasher 2 2] [LUser tb] [LResolve 1];
       mkGen [LUser te] [LUser tc] [LUser td]]
      []
      [EnvCancel false; EnvHash empty_object]
      [mkPromise None [RAllElem 2] 0; mkPromise None [RAllElem 2] 0;
       mkPromise None [RDone 2] 2]
      []
      ((map (fun x => TEmit 0 x (HookCancel 0)) A ++ [TDone 0])
         ++ map (fun x => TEmit 1 x HookNone) ys ++ [TCatch 1 e])
      [].
Proof.
  unfold start, hash_faulting_program, faulting, bind.
  unfold Generator_done, Generator_emit, Generator_catch, exec, ret.
  rewrite Generator_array. cbn beta iota.
  rewrite Generator_function. cbn beta iota.
  rewrite map_app, map_map. reflexivity.
Qed.

(** X20. intersectByHash passes no fault on either: when an input faults
    instead of completing, the items of all inputs are still counted and
    those that take the counter of a plain key to the number of inputs are
    emitted, but the output never completes and never faults. *)
Theorem X20_intersectByHash_never_completes_when_an_input_faults
    (hasher : item → key) (A ys : list item) (e : item)
    (tin tb te tc td extra : nat) :
  let em := filter (fun y => plain (hasher y)) (kth_occurrences hasher 2 [] (A ++ ys)) in
  let w := run (length A + 2 + (length ys + (1 + (length em + extra))))
             (start (hash_faulting_program hasher A ys e tin tb te tc td)) in
  log w = [Seen tin EvDone; Seen tb (EvFault e)] ++ map (fun y => Seen te (EvItem y)) em
  ∧ promises w !! 2 = Some (mkPromise None [RDone 2] 1)
  ∧ quiescent w.
Proof.
  cbv zeta. rewrite start_hash_faulting, <- hash_emitted_kth.
  set (L := LHashEmit 1 hasher 2 2).
  set (gs := [mkGen [L] [] [LUser tin; LResolve 0]; mkGen [L] [LUser tb] [LResolve 1];
              mkGen [LUser te] [LUser tc] [LUser td]]).
  destruct (input_phase EnvHash (handleEmit_hash hasher 2) L 1 2 2
              (LHashEmit_spec 1 hasher 2 2) eq_refl
              (mkInput 0 tin A (HookCancel 0) 0 None)
              (map (fun x => TEmit 1 x HookNone) ys ++ [TCatch 1 e])
              gs [] [EnvCancel false; EnvHash empty_object]
              [mkPromise None [RAllElem 2] 0; mkPromise None [RAllElem 2] 0;
               mkPromise None [RDone 2] 2]
              [] empty_object [RDone 2] 1)
    as (arrs' & ps' & Hrun & Hlen & Hframe & Hall).
  { by split. }
  { done. }
  { done. }
  { cbn. by intros ?%list_elem_of_singleton. }
  { cbn. apply NoDup_singleton. }
  rewrite run_add.
  change (length A) with (length (in_items (mkInput 0 tin A (HookCancel 0) 0 None))).
  unfold input_timers in Hrun. cbn [in_items in_gen in_hook in_tag] in Hrun |- *.
  rewrite Hrun. clear Hrun.
  set (st1 := (run_handler (handleEmit_hash hasher 2) empty_object A).1).
  set (em0 := (run_handler (handleEmit_hash hasher 2) empty_object A).2).
  rewrite <- app_assoc, run_add.
  rewrite (run_items 1 (mkGen [L] [LUser tb] [LResolve 1]) HookNone ys
             (TCatch 1 e :: map (fun y => TEmit 2 y HookNone) em0)) by done.
  rewrite (foldl_dispatch_input EnvHash (handleEmit_hash hasher 2) L 1 2
             (LHashEmit_spec 1 hasher 2 2) _ (mkInput 1 0 ys HookNone 1 None) _ _ _ st1)
    by done.
  set (em1 := (run_handler (handleEmit_hash hasher 2) st1 ys).2).
  unfold pushes. cbn [in_then]. wcbn.
  rewrite run_add.
  rewrite (run_timer 0 _ (TCatch 1 e) (map (fun y => TEmit 2 y HookNone) em0
                                         ++ map (fun y => TEmit 2 y HookNone) em1))
    by done.
  cbn [run run_task]. rewrite (callback_foldl _ _ _ _ (mkGen [L] [LUser tb] [LResolve 1]))
    by done.
  cbn [registered _registeredCatches foldl invoke ev_of]. unfold record. wcbn.
  assert (hash_emitted hasher 2 (A ++ ys) = em0 ++ em1) as Hem.
  { unfold hash_emitted. rewrite run_handler_app. done. }
  rewrite Hem, <- map_app, run_add.
  rewrite (run_items 2 (mkGen [LUser te] [LUser tc] [LUser td]) HookNone (em0 ++ em1) [])
    by (try done; by rewrite app_nil_r).
  rewrite (foldl_dispatch_user _ te) by done. wcbn.
  rewrite run_quiescent by done. cbn [log promises].
  split; [reflexivity|]. split; [exact Hall|done].
Qed.

(** ** Iterators and the cancellation hook *)

(** X21. The loop over an ES6 generator instance tests [cancelled] before
    every value, but it has drained the iterator before any listener runs:
    a listener that invokes the hook on the first value (and on every later
    one) still receives all the values, and completion after them. *)
Theorem X21_iterator_ignores_cancellation
    (x : item) (rest : list item) (te tc td extra : nat) :
  let w := run (length (x :: rest) + 1 + extra)
      (start (observed Generator (PIterator (x :: rest))
                (LUserCancel te) (LUser tc) (LUser td))) in
  log w = map (fun y => Seen te (EvItem y)) (x :: rest) ++ [Seen td EvDone]
  ∧ cancelled 0 w = true
  ∧ quiescent w.
Proof.
  cbv zeta. rewrite iterator_cancel_run. done.
Qed.

(** ** Registration after the legacy producer has run *)

(** X22. In the legacy revision the producer runs to its end in the first
    turn, and nothing is kept: a listener that the caller registers in any
    later turn is never called. *)
Theorem X22_legacy_late_listener_receives_nothing
    (xs : list item) (t1 t2 tc td extra : nat) :
  let w0 := start (observed legacy_Generator (PArray xs) (LUser t1) (LUser tc) (LUser td)) in
  let w1 := register KEmit 0 (LUser t2) (run 1 w0) in
  let w := run extra w1 in
  log w = map (fun x => Seen t1 (EvItem x)) xs ++ [Seen td EvDone]
  ∧ gens w !! 0 = Some (mkGen [LUser t1; LUser t2] [LUser tc] [LUser td])
  ∧ quiescent w.
Proof.
  cbv zeta. change (run 1) with (run (1 + 0)). rewrite legacy_array_run.
  by rewrite run_quiescent.
Qed.

(** ** Intersections of no inputs *)

(** X23. With an empty array of Generators [Promise.all([])] is fulfilled
    at once: both intersections complete, after one promise job and one
    timer, without having emitted anything. *)
Theorem X23_intersections_of_no_inputs_complete_at_once
    (hasher : item → key) (comparator : item → item → bool) (tin te tc td extra : nat) :
  let wh := start (hash_program hasher tin [] te tc td) in
  let wc := start (cmp_program comparator tin [] te tc td) in
  (jobs wh = [JReact (RDone 0) (Fulfilled undefined)] ∧ timers wh = []
   ∧ log (run (2 + extra) wh) = [Seen td EvDone] ∧ quiescent (run (2 + extra) wh))
  ∧ (jobs wc = [JReact (RDone 0) (Fulfilled undefined)] ∧ timers wc = []
     ∧ log (run (2 + extra) wc) = [Seen td EvDone] ∧ quiescent (run (2 + extra) wc)).
Proof.
  cbv zeta. rewrite !run_add.
  rewrite !(run_quiescent extra) by reflexivity. repeat split; reflexivity.
Qed.

End Es5Generators.

(** * Concrete runs

    JavaScript values for the examples: [undefined], [NaN], integers,
    strings, and objects with an [id] property that holds an integer;
    [ref] is the identity of the object, so that [===] on objects compares
    references.  Property keys are strings. *)

Inductive jsval :=
  | JUndefined
  | JNaN
  | JNum (n : Z)
  | JStr (s : string)
  | JObj (ref : nat) (id : Z).

#[global] Instance jsval_eq_dec : EqDecision jsval.
Proof. solve_decision. Defined.

(** The properties of [Object.prototype], which [var map = {}] inherits. *)
Definition Object_prototype : gmap string Builtin :=
  list_to_map
    [("constructor", Method); ("hasOwnProperty", Method);
     ("isPrototypeOf", Method); ("propertyIsEnumerable", Method);
     ("toLocaleString", Method); ("toString", Method); ("valueOf", Method);
     ("__defineGetter__", Method); ("__defineSetter__", Method);
     ("__lookupGetter__", Method); ("__lookupSetter__", Method);
     ("__proto__", Accessor)].

(** The property key a value is converted to in [map[v]]. *)
Definition property_key (v : jsval) : string :=
  match v with
  | JUndefined => "undefined"
  | JNaN => "NaN"
  | JNum n => pretty n
  | JStr s => s
  | JObj _ _ => "[object Object]"
  end.

(** [item.id]: the integer of an object; [undefined], here [None], for a
    number or a string.  On [undefined] itself [item.id] throws; the runs
    below hand the two functions that follow objects only. *)
Definition id_of (v : jsval) : option Z :=
  match v with
  | JObj _ id => Some id
  | _ => None
  end.

(** [function(item) { return item.id }], as a hasher: the key of
    [item.id]. *)
Definition by_id (v : jsval) : string :=
  match id_of v with
  | Some id => pretty id
  | None => "undefined"
  end.

(** [function(a, b) { return a.id == b.id; }] *)
Definition same_id (a b : jsval) : bool := bool_decide (id_of a = id_of b).

(** [function(a, b) { return String(a) === String(b); }]: the equality of
    the hasher [function(item) { return item; }]. *)
Definition same_key (a b : jsval) : bool :=
  bool_decide (property_key a = property_key b).

(** A call of the emit handle and of the done handle of Generator [g]. *)
Definition emits (g : genRef) (v : jsval) : @Event jsval := (g, ArgsItem v HookNone).
Definition completion (g : genRef) : @Event jsval := (g, ArgsNone).

(** C2.  In the later revision [new Generator([1, 2])] has run the loop
    over the array when it returns: three timers are set, one per element
    and one for completion, instead of one timer for the producer. *)
Lemma C2_array_sets_one_timer_per_element :
  timers (start (key := Z) (Generator JUndefined (PArray [JNum 1; JNum 2])))
  = [TEmit 0 (JNum 1) (HookCancel 0); TEmit 0 (JNum 2) (HookCancel 0); TDone 0]
  ∧ ¬ single_deferral (key := Z) JUndefined (Generator JUndefined)
        (PArray [JNum 1; JNum 2]).
Proof. split; [reflexivity|]. intros [H _]. vm_compute in H. discriminate. Qed.

(** C4.  [function(done, reject, emit) { done(); reject(7); }]: the
    completion listener and the fault listener are both called. *)
Lemma C4_done_then_reject_fires_both :
  let w := run (key := Z) JUndefined 2
      (start (observed (Generator JUndefined)
                (PFunction [ActDone; ActReject (JNum 7)])
                (LUser 0) (LUser 1) (LUser 2))) in
  log w = [Seen 2 EvDone; Seen 1 (EvFault (JNum 7))]
  ∧ ¬ at_most_one_terminal (log w).
Proof.
  split; [reflexivity|]. unfold at_most_one_terminal. vm_compute. lia.
Qed.

(** ** exclude *)

(** The test of the repository: [exclude] over [1, 2, 3] and [1, 3]. *)
Example exclude_123_13 :
  log (run (key := Z) JUndefined 12
         (start (exclude_program JUndefined JNaN [JNum 1; JNum 2; JNum 3]
                   [JNum 1; JNum 3] None
                   10 11 0 1 2)))
  = [Seen 10 EvDone; Seen 11 EvDone; Seen 0 (EvItem (JNum 2)); Seen 2 EvDone].
Proof. reflexivity. Qed.

(** [exclude] over [NaN, 1] and [NaN, 1], the comparator left out: [NaN]
    is emitted, [NaN === NaN] being false. *)
Example exclude_NaN :
  log (run (key := Z) JUndefined 11
         (start (exclude_program JUndefined JNaN [JNaN; JNum 1] [JNaN; JNum 1] None
                   10 11 0 1 2)))
  = [Seen 10 EvDone; Seen 11 EvDone; Seen 0 (EvItem JNaN); Seen 2 EvDone].
Proof. reflexivity. Qed.

(** C6.  [exclude] over [1, 2, 3] and [1, 3], as arrays and as two
    Generators whose handles are called in turn: nothing is emitted before
    the second of the two completions, then 2 is. *)
Lemma C6_witness :
  let A := [JNum 1; JNum 2; JNum 3] in
  let B := [JNum 1; JNum 3] in
  let evs := [emits 0 (JNum 1); emits 1 (JNum 1); emits 0 (JNum 2); emits 1 (JNum 3);
              completion 1; emits 0 (JNum 3); completion 0] in
  log (run (key := Z) JUndefined
         (length A + length B + length (unmatched JNaN A B) + 6 + 0)
         (start (exclude_program JUndefined JNaN A B None 10 11 0 1 2)))
  = [Seen 10 EvDone; Seen 11 EvDone; Seen 0 (EvItem (JNum 2)); Seen 2 EvDone]
  ∧ log (run (key := Z) JUndefined (4 * length evs + 0)
           (start (exclude_streams JUndefined JNaN evs None 10 11 0 1 2)))
    = [Seen 11 EvDone; Seen 10 EvDone; Seen 0 (EvItem (JNum 2)); Seen 2 EvDone].
Proof.
  intros A B evs.
  assert (Forall (fun e : @Event jsval => e.1 < 2) evs) as H
    by (apply (bool_decide_unpack _); vm_compute; exact I).
  destruct (C6_exclude_emits_unmatched_items_after_both_complete (key := Z)
              JUndefined JNaN A B evs None 10 11 0 1 2 0 H)
    as (_ & _ & [Hd _] & [Hs _]).
  split; [exact Hd|exact Hs].
Defined.

(** ** The intersections *)

(** The tests of the repository for the two intersections: the inputs hold
    objects with ids 6, 1, 2, 3 and 2, 3, 5, 6. *)
Definition test_A : list jsval := [JObj 0 6; JObj 1 1; JObj 2 2; JObj 3 3].
Definition test_B : list jsval := [JObj 4 2; JObj 5 3; JObj 6 5; JObj 7 6].

Example intersectByHash_test :
  log (run JUndefined 17
         (start (hash_program JUndefined Object_prototype by_id 10
                   [test_A; test_B] 0 1 2)))
  = [Seen 10 EvDone; Seen 11 EvDone;
     Seen 0 (EvItem (JObj 4 2)); Seen 0 (EvItem (JObj 5 3)); Seen 0 (EvItem (JObj 7 6));
     Seen 2 EvDone].
Proof. vm_compute. reflexivity. Qed.

Example intersectByComparison_test :
  log (run (key := string) JUndefined 17
         (start (cmp_program JUndefined same_id 10 [test_A; test_B] 0 1 2)))
  = [Seen 10 EvDone; Seen 11 EvDone;
     Seen 0 (EvItem (JObj 2 2)); Seen 0 (EvItem (JObj 3 3)); Seen 0 (EvItem (JObj 0 6));
     Seen 2 EvDone].
Proof. vm_compute. reflexivity. Qed.

(** No numeral is [undefined]. *)
Lemma pretty_N_go_ne_u x s s' : s ≠ "u" +:+ s' → pretty_N_go x s ≠ "u" +:+ s'.
Proof.
  revert s. induction (N.lt_wf_0 x) as [x _ IH]; intros s ?.
  assert (x = 0 ∨ 0 < x)%N as [->|?] by lia.
  - by rewrite pretty_N_go_0.
  - rewrite pretty_N_go_step by done. apply IH.
    { by apply N.div_lt. }
    unfold pretty_N_char. by repeat case_match.
Qed.

Lemma pretty_Z_ne_undefined (z : Z) : pretty z ≠ "undefined".
Proof.
  destruct z as [|p|p]; [done| |done].
  unfold pretty, pretty_Z, pretty, pretty_positive, pretty, pretty_N.
  rewrite decide_False by done. by apply (pretty_N_go_ne_u _ _ "ndefined").
Qed.

Lemma same_id_by_id a b : same_id a b = true ↔ by_id a = by_id b.
Proof.
  unfold same_id, by_id. rewrite bool_decide_eq_true.
  destruct (id_of a) as [x|], (id_of b) as [y|]; split; try done.
  - by intros [= ->].
  - by intros ->%(inj pretty).
  - intros H. by destruct (pretty_Z_ne_undefined x).
  - intros H. by destruct (pretty_Z_ne_undefined y).
Qed.

Lemma same_key_property_key a b : same_key a b = true ↔ property_key a = property_key b.
Proof. apply bool_decide_eq_true. Qed.

(** Two inputs that both emit the strings [constructor] and [a]. *)
Definition constructor_and_a : list (@Event jsval) :=
  [emits 0 (JStr "constructor"); emits 0 (JStr "a"); completion 0;
   emits 1 (JStr "a"); emits 1 (JStr "constructor"); completion 1].

(** C7.  intersectByHash with the hasher [function(item) { return item; }]
    over two inputs that both emit [constructor] and [a]: the later
    revision emits [a] and not [constructor]; the legacy revision emits
    nothing and does not complete. *)
Lemma C7_witness :
  let As := [[JStr "constructor"; JStr "a"]; [JStr "a"; JStr "constructor"]] in
  log (run JUndefined 11
         (start (hash_program JUndefined Object_prototype property_key 10 As 0 1 2)))
  = [Seen 10 EvDone; Seen 11 EvDone; Seen 0 (EvItem (JStr "a")); Seen 2 EvDone]
  ∧ log (run JUndefined (4 * length constructor_and_a + 2 + 0)
           (start (hash_streams JUndefined Object_prototype property_key 10 2
                     constructor_and_a 0 1 2)))
    = [Seen 10 EvDone; Seen 11 EvDone; Seen 0 (EvItem (JStr "a")); Seen 2 EvDone]
  ∧ log (run JUndefined (6 + 0)
           (start (legacy_hash_program property_key (JStr "TypeError")
                     [JStr "constructor"; JStr "a"] [JStr "a"; JStr "constructor"]
                     10 11 0 1 2)))
    = [Seen 10 EvDone; Seen 11 EvDone].
Proof.
  intros As.
  assert (Forall (fun e : @Event jsval => e.1 < 2) constructor_and_a) as H
    by (apply (bool_decide_unpack _); vm_compute; exact I).
  destruct (C7_intersectByHash_emits_when_the_stored_number_reaches_K
              JUndefined Object_prototype property_key 2 As constructor_and_a
              (JStr "TypeError") [JStr "constructor"; JStr "a"]
              [JStr "a"; JStr "constructor"] 10 10 11 0 1 2 0 H)
    as ([Ha _] & [Hs _] & _ & [Hl _]).
  split; [exact Ha|]. split; [exact Hs|exact Hl].
Defined.

(** C8.  The two intersections over the same two inputs, the comparator
    expressing the equality of the hasher: intersectByComparison emits
    [a] and [constructor], intersectByHash only [a]. *)
Lemma C8_witness :
  log (run JUndefined (4 * length constructor_and_a + 2 + 0)
         (start (hash_streams JUndefined Object_prototype property_key 10 2
                   constructor_and_a 0 1 2)))
  = [Seen 10 EvDone; Seen 11 EvDone; Seen 0 (EvItem (JStr "a")); Seen 2 EvDone]
  ∧ log (run (key := string) JUndefined (4 * length constructor_and_a + 2 + 0)
           (start (cmp_streams JUndefined same_key 10 2 constructor_and_a 0 1 2)))
    = [Seen 10 EvDone; Seen 11 EvDone; Seen 0 (EvItem (JStr "a"));
       Seen 0 (EvItem (JStr "constructor")); Seen 2 EvDone].
Proof.
  assert (Forall (fun e : @Event jsval => e.1 < 2) constructor_and_a) as H
    by (apply (bool_decide_unpack _); vm_compute; exact I).
  destruct (C8_intersections_emit_equal_items_under_plain_keys
              JUndefined Object_prototype property_key same_key 2 constructor_and_a
              10 0 1 2 0 same_key_property_key H)
    as ([Hh _] & [Hc _] & _).
  split; [exact Hh|exact Hc].
Defined.

(** The same with the inputs of the repository's tests, where no key is
    inherited: the two outputs are equal item by item under the equality
    of ids. *)
Example intersections_of_the_tests_agree :
  let evs := map (emits 0) test_A ++ [completion 0]
             ++ map (emits 1) test_B ++ [completion 1] in
  let kth := kth_occurrences by_id 2 [] (arrivals evs) in
  filter (fun y => plain Object_prototype (by_id y)) kth
  = [JObj 4 2; JObj 5 3; JObj 7 6]
  ∧ map (first_with by_id (arrivals evs)) kth = [JObj 2 2; JObj 3 3; JObj 0 6].
Proof. split; vm_compute; reflexivity. Qed.

(** Two inputs; the first emits [constructor] twice, the second
    nothing. *)
Definition constructor_twice : list (@Event jsval) :=
  [emits 0 (JStr "constructor"); emits 0 (JStr "constructor"); completion 0;
   completion 1].

(** C10.  The string [constructor] is not emitted, though it has arrived
    twice from the first of the two inputs. *)
Lemma C10_witness :
  occ property_key "constructor" (items_of 0 constructor_twice) = 2
  ∧ Seen 0 (EvItem (JStr "constructor"))
    ∉ log (run JUndefined (4 * length constructor_twice + 2 + 0)
             (start (hash_streams JUndefined Object_prototype property_key 10 2
                       constructor_twice 0 1 2))).
Proof.
  split; [reflexivity|].
  assert (Forall (fun e : @Event jsval => e.1 < 2) constructor_twice) as H1
    by (apply (bool_decide_unpack _); vm_compute; exact I).
  assert (0 < 2 ≤ occ property_key "constructor" (items_of 0 constructor_twice)) as H2
    by (vm_compute; lia).
  assert (∀ h (x : jsval) c, (h, ArgsItem x c) ∈ constructor_twice →
            property_key x = "constructor" → h = 0) as H3.
  { intros h x c Hin _. unfold constructor_twice, emits, completion in Hin.
    repeat (apply elem_of_cons in Hin as [[= -> -> ->]|Hin]; [reflexivity|]);
      repeat (apply elem_of_cons in Hin as [[=]|Hin]).
    by apply elem_of_nil in Hin. }
  assert (¬ plain Object_prototype "constructor") as H4 by (vm_compute; discriminate).
  exact (proj2 (C10_occurrences_within_one_input_suffice
                  JUndefined Object_prototype property_key 2 constructor_twice 0
                  "constructor" 10 0 1 2 0 H1 H2 H3) H4 (JStr "constructor") eq_refl).
Defined.

Example intersectByHash_constructor_twice :
  log (run JUndefined 18
         (start (hash_streams JUndefined Object_prototype property_key 10 2
                   constructor_twice 0 1 2)))
  = [Seen 10 EvDone; Seen 11 EvDone; Seen 2 EvDone].
Proof. vm_compute. reflexivity. Qed.

(** With a key that is not inherited the second arrival is emitted. *)
Example intersectByHash_b_twice :
  log (run JUndefined 18
         (start (hash_streams JUndefined Object_prototype property_key 10 2
                   [emits 0 (JStr "b"); emits 0 (JStr "b"); completion 0; completion 1]
                   0 1 2)))
  = [Seen 10 EvDone; Seen 11 EvDone; Seen 0 (EvItem (JStr "b")); Seen 2 EvDone].
Proof. vm_compute. reflexivity. Qed.

(** ** Instances of the further properties *)

(** X6. Listeners 3, 4, 3, 4 registered in this order; 4 is deregistered:
    3, 3, 4 are left. *)
Lemma X6_witness :
  let w0 := start (key := Z)
              (deregister_program JUndefined [JNum 1; JNum 2] ([3] ++ 4 :: [3; 4]) 9 4) in
  let w := run JUndefined (length [JNum 1; JNum 2] + 1 + 0) w0 in
  gens w0 !! 0 = Some (mkGen (map LUser ([3] ++ [3; 4])) [] [LUser 9])
  ∧ log w = flat_map (fun x => map (fun s => Seen s (EvItem x)) ([3] ++ [3; 4]))
              [JNum 1; JNum 2]
            ++ [Seen 9 EvDone]
  ∧ quiescent JUndefined w.
Proof.
  assert (4 ∉ [3]) as H by (intros ?%list_elem_of_singleton; lia).
  exact (X6_deregister_removes_the_oldest_registration JUndefined
           [JNum 1; JNum 2] [3] [3; 4] 4 9 0 H).
Defined.

(** X7. A Generator with listener 5 on its items; listener 7 is not
    registered. *)
Lemma X7_witness :
  let w := start (key := Z) (observed_by JUndefined (PArray [JNum 1]) [5] 9) in
  bind (Generator_emit 0 (LUser 7))
    (fun _ => Generator_deregister 0 "emit" (LUser 7)) w = (Some tt, w)
  ∧ Generator_deregister 0 "emit" (LUser 7) w = (Some tt, w)
  ∧ ("on"%string ≠ "emit"%string → "on"%string ≠ "catch"%string →
     "on"%string ≠ "done"%string →
     Generator_deregister 0 "on" (LUser 7) w = (None, w)).
Proof.
  exact (X7_deregister_undoes_a_fresh_registration 0 (mkGen [LUser 5] [] [LUser 9]) 7
           "on" (LUser 7) (start (observed_by JUndefined (PArray [JNum 1]) [5] 9))
           eq_refl eq_refl).
Defined.

(** X8, X9. The inputs of the repository's test. *)
Lemma X8_witness :
  let As := [test_A] ++ [test_B] in
  let K := length As in
  let em := filter (fun x => plain Object_prototype (by_id x)
                             ∧ Forall (fun A => by_id x ∈ map by_id A) [test_A])
              test_B in
  let w := run JUndefined (length (concat As) + 2 * K + (length em + 2) + 0)
             (start (hash_program JUndefined Object_prototype by_id 10 As 0 1 2)) in
  log w = map (fun k => Seen k EvDone) (seq 10 K)
          ++ map (fun y => Seen 0 (EvItem y)) em ++ [Seen 2 EvDone]
  ∧ quiescent JUndefined w.
Proof.
  assert (Forall (fun A => NoDup (map by_id A)) ([test_A] ++ [test_B])) as H
    by (apply (bool_decide_unpack _); vm_compute; exact I).
  exact (X8_intersectByHash_emits_the_common_items_of_the_last_input JUndefined
           Object_prototype by_id [test_A] test_B 10 0 1 2 0 H).
Defined.

Lemma X9_witness :
  let As := (test_A :: []) ++ [test_B] in
  let K := length As in
  let common := filter (fun x => Forall (fun A => by_id x ∈ map by_id A) (test_A :: []))
                  test_B in
  let em := map (first_with by_id test_A) common in
  let w := run (key := string) JUndefined
             (length (concat As) + 2 * K + (length em + 2) + 0)
             (start (cmp_program JUndefined same_id 10 As 0 1 2)) in
  log w = map (fun k => Seen k EvDone) (seq 10 K)
          ++ map (fun y => Seen 0 (EvItem y)) em ++ [Seen 2 EvDone]
  ∧ Forall (fun y => y ∈ test_A) em
  ∧ map by_id em = map by_id common
  ∧ quiescent (key := string) JUndefined w.
Proof.
  assert (Forall (fun A => NoDup (map by_id A)) ((test_A :: []) ++ [test_B])) as H
    by (apply (bool_decide_unpack _); vm_compute; exact I).
  exact (X9_intersectByComparison_emits_the_items_of_the_first_input JUndefined
           by_id same_id test_A [] test_B 10 0 1 2 0 same_id_by_id H).
Defined.

(** X10. One input with the ids 1, 2, 1. *)
Lemma X10_witness :
  sublist (kth_occurrences by_id 1 [] [JObj 0 1; JObj 1 2; JObj 2 1])
    [JObj 0 1; JObj 1 2; JObj 2 1].
Proof.
  exact (proj1 (proj2 (proj2
    (X10_intersection_of_one_input_keeps_first_arrivals JUndefined Object_prototype
       by_id same_id [JObj 0 1; JObj 1 2; JObj 2 1] 10 0 1 2 0 same_id_by_id)))).
Defined.

(** X17. Two items before the deregistration of listener 4, one after. *)
Lemma X17_witness :
  let w0 := start (key := Z)
              (observed_by JUndefined (PArray ([JNum 1; JNum 2] ++ [JNum 3])) [3; 4] 9) in
  let w1 := (Generator_deregister 0 "emit" (LUser 4)
               (run JUndefined (length [JNum 1; JNum 2]) w0)).2 in
  let w := run JUndefined (length [JNum 3] + 1 + 0) w1 in
  log w = flat_map (fun x => [Seen 3 (EvItem x); Seen 4 (EvItem x)]) [JNum 1; JNum 2]
          ++ map (fun x => Seen 3 (EvItem x)) [JNum 3]
          ++ [Seen 9 EvDone]
  ∧ quiescent JUndefined w.
Proof.
  assert (3 ≠ 4) as H by lia.
  exact (X17_deregistered_listener_receives_nothing_more JUndefined
           [JNum 1; JNum 2] [JNum 3] 3 4 9 0 H).
Defined.

(** X19. Two inputs with the ids 1, 2 and 1. *)
Lemma X19_witness :
  let As := [[JObj 0 1; JObj 1 2]; [JObj 2 1]] in
  let K := length As in
  let xs := concat As in
  let em := cmp_emitted same_id K xs in
  let w := run (key := string) JUndefined (length xs + 2 * K + (length em + 2) + 0)
             (start (cmp_program JUndefined same_id 10 As 0 1 2)) in
  ∃ ds, envs w !! K = Some (EnvCmp ds)
        ∧ NoDup (map (fun d => by_id (d_item d)) ds)
        ∧ (∀ k, k ∈ map (fun d => by_id (d_item d)) ds ↔ k ∈ map by_id xs)
        ∧ Forall (fun d =>
                    first_key by_id (by_id (d_item d)) xs = Some (d_item d)
                    ∧ d_count d = occ by_id (by_id (d_item d)) xs
                    ∧ (d_emitted d = true ↔ 1 ≤ K ≤ d_count d)) ds.
Proof.
  exact (X19_intersectByComparison_keeps_one_record_per_key JUndefined by_id same_id
           [[JObj 0 1; JObj 1 2]; [JObj 2 1]] 10 0 1 2 0 same_id_by_id).
Defined.
